(** * mcp-ssh: a shallow embedding of the SSH service and its tool dispatcher

    The development follows the TypeScript sources:
    - [src/tools/ssh-service.ts]  ([SSHService], [DockerCommandParser]),
    - [src/tools/container-context.ts]  ([ContainerContextManager]),
    - the tool dispatcher ([SshMCP]: the [executeCommand] tool handler and
      [limitOutputLength]).

    JavaScript strings are sequences of UTF-16 code units, so a string is a
    [list N]; [js] turns a literal of this file (UTF-8) into code units.
    Regular expressions are embedded as syntax trees run by a backtracking
    matcher that follows the priority order of the ECMAScript matcher. *)

From Stdlib Require Import NArith ZArith Lia DecimalString.
From stdpp Require Import strings list gmap.

Set Default Proof Using "Type".

(** ** JavaScript strings *)

Abbreviation code_unit := N (only parsing).
Abbreviation jsstring := (list N) (only parsing).

(** UTF-8 bytes of a literal, decoded to UTF-16 code units. *)
Fixpoint utf16_of_utf8 (bs : list N) : jsstring :=
  match bs with
  | [] => []
  | b0 :: t0 =>
    if (b0 <? 128)%N then b0 :: utf16_of_utf8 t0
    else match t0 with
    | [] => [b0]
    | b1 :: t1 =>
      if (b0 <? 224)%N then ((b0 - 192) * 64 + (b1 - 128))%N :: utf16_of_utf8 t1
      else match t1 with
      | [] => [b0; b1]
      | b2 :: t2 =>
        if (b0 <? 240)%N
        then ((b0 - 224) * 4096 + (b1 - 128) * 64 + (b2 - 128))%N :: utf16_of_utf8 t2
        else match t2 with
        | [] => [b0; b1; b2]
        | b3 :: t3 =>
          let cp := ((b0 - 240) * 262144 + (b1 - 128) * 4096
                     + (b2 - 128) * 64 + (b3 - 128) - 65536)%N in
          (55296 + cp / 1024)%N :: (56320 + cp mod 1024)%N :: utf16_of_utf8 t3
        end
      end
    end
  end.

Definition js (s : string) : jsstring :=
  utf16_of_utf8 (map Ascii.N_of_ascii (String.list_ascii_of_string s)).

(** The double quote and the single quote, which literals cannot hold. *)
Definition dq : code_unit := 34%N.
Definition sq : code_unit := 39%N.

Definition jseqb (a b : jsstring) : bool := bool_decide (a = b).

(** [if (s)] on a string: the empty string is falsy. *)
Definition truthy (s : jsstring) : bool :=
  match s with [] => false | _ => true end.

Definition truthy_opt (o : option jsstring) : bool :=
  match o with Some s => truthy s | None => false end.

(** [a || b] on optional strings. *)
Definition or_else (o : option jsstring) (d : jsstring) : jsstring :=
  match o with Some s => if truthy s then s else d | None => d end.

(** WhiteSpace and LineTerminator code units: [\s] and what [trim] strips. *)
Definition is_space (c : code_unit) : bool :=
  ((9 <=? c) && (c <=? 13) || (c =? 32) || (c =? 160) || (c =? 5760)
   || (8192 <=? c) && (c <=? 8202) || (c =? 8232) || (c =? 8233)
   || (c =? 8239) || (c =? 8287) || (c =? 12288) || (c =? 65279))%N.

(** LineTerminator: what [.] refuses. *)
Definition is_line_terminator (c : code_unit) : bool :=
  ((c =? 10) || (c =? 13) || (c =? 8232) || (c =? 8233))%N.

(** [\w]: ASCII letters, digits and underscore. *)
Definition is_word (c : code_unit) : bool :=
  ((48 <=? c) && (c <=? 57) || (65 <=? c) && (c <=? 90)
   || (97 <=? c) && (c <=? 122) || (c =? 95))%N.

Definition is_ascii_letter (c : code_unit) : bool :=
  ((65 <=? c) && (c <=? 90) || (97 <=? c) && (c <=? 122))%N.

(** Canonicalize of the [i] flag, on the code units an ASCII pattern
    character can match: a code unit above 127 never folds onto ASCII. *)
Definition upper (c : code_unit) : code_unit :=
  if ((97 <=? c) && (c <=? 122))%N then (c - 32)%N else c.

Definition eq_ci (a c : code_unit) : bool := (upper a =? upper c)%N.

Fixpoint trimStart (s : jsstring) : jsstring :=
  match s with
  | c :: t => if is_space c then trimStart t else s
  | [] => []
  end.

Definition trimEnd (s : jsstring) : jsstring := rev (trimStart (rev s)).

Definition trim (s : jsstring) : jsstring := trimEnd (trimStart s).

Fixpoint startsWith (s p : jsstring) : bool :=
  match p, s with
  | [], _ => true
  | a :: p', c :: s' => (a =? c)%N && startsWith s' p'
  | _ :: _, [] => false
  end.

Fixpoint includes (s p : jsstring) : bool :=
  startsWith s p ||
  match s with
  | [] => false
  | _ :: t => includes t p
  end.

(** [s.split(sep)] for a one-character separator string. *)
Fixpoint split_char (sep : code_unit) (cur : jsstring) (s : jsstring) : list jsstring :=
  match s with
  | [] => [rev cur]
  | c :: t => if (c =? sep)%N then rev cur :: split_char sep [] t
              else split_char sep (c :: cur) t
  end.

Definition split_on (sep : code_unit) (s : jsstring) : list jsstring :=
  split_char sep [] s.

(** [parts.join(sep)]. *)
Fixpoint join (sep : jsstring) (parts : list jsstring) : jsstring :=
  match parts with
  | [] => []
  | [p] => p
  | p :: rest => p ++ sep ++ join sep rest
  end.

(** [String(n)] for an integer [n]. *)
Definition N_to_js (n : N) : jsstring :=
  js (NilZero.string_of_uint (N.to_uint n)).

Definition Z_to_js (z : Z) : jsstring :=
  match z with
  | Zneg p => 45%N :: N_to_js (Npos p)
  | _ => N_to_js (Z.to_N z)
  end.

(** [s.substring(a, b)] for [0 <= a <= b]. *)
Definition substring (a b : nat) (s : jsstring) : jsstring :=
  take (b - a) (drop a s).

(** ** Regular expressions

    A pattern is a syntax tree; [rmatch] is the backtracking matcher in
    continuation-passing style: alternatives are tried left to right, a
    greedy quantifier tries one more iteration before it tries to stop, and
    an iteration that consumes nothing is refused, as in ECMAScript. *)

Inductive regex : Type :=
| REmpty
| RChar (p : code_unit -> bool)
| RSeq (r1 r2 : regex)
| RAlt (r1 r2 : regex)
| RStar (greedy : bool) (r : regex)
| RGroup (n : nat) (r : regex)
| RWordB
| RBol
| REol.

Record mstate := MState {
  m_prev : option code_unit;
  m_rest : jsstring;
  m_caps : list (nat * jsstring)
}.

Definition is_word_opt (o : option code_unit) : bool :=
  match o with Some c => is_word c | None => false end.

Definition at_word_boundary (s : mstate) : bool :=
  xorb (is_word_opt (m_prev s)) (is_word_opt (head (m_rest s))).

Definition set_capture (n : nat) (before after : mstate) : mstate :=
  MState (m_prev after) (m_rest after)
    ((n, take (length (m_rest before) - length (m_rest after)) (m_rest before))
       :: m_caps after).

(** The iterations of a quantifier: [step] matches the quantified pattern
    once. An iteration has to consume input, so [fuel] above the length of
    the remaining input is never used up. *)
Fixpoint star_loop
    (step : (mstate -> option mstate) -> mstate -> option mstate)
    (greedy : bool) (k : mstate -> option mstate) (fuel : nat) (s : mstate)
  : option mstate :=
  match fuel with
  | O => k s
  | S fuel' =>
    let again :=
      step (fun s' => if length (m_rest s') <? length (m_rest s)
                      then star_loop step greedy k fuel' s' else None) s in
    if greedy
    then match again with Some m => Some m | None => k s end
    else match k s with Some m => Some m | None => again end
  end.

Fixpoint rmatch (r : regex) (k : mstate -> option mstate) (s : mstate)
  : option mstate :=
  match r with
  | REmpty => k s
  | RChar p =>
    match m_rest s with
    | c :: t => if p c then k (MState (Some c) t (m_caps s)) else None
    | [] => None
    end
  | RSeq r1 r2 => rmatch r1 (rmatch r2 k) s
  | RAlt r1 r2 =>
    match rmatch r1 k s with
    | Some m => Some m
    | None => rmatch r2 k s
    end
  | RStar greedy r1 =>
    star_loop (rmatch r1) greedy k (S (length (m_rest s))) s
  | RGroup n r1 => rmatch r1 (fun s' => k (set_capture n s s')) s
  | RWordB => if at_word_boundary s then k s else None
  | RBol => match m_prev s with None => k s | Some _ => None end
  | REol => match m_rest s with [] => k s | _ :: _ => None end
  end.

(** A match that starts exactly at the position of [s]. *)
Definition match_here (r : regex) (prev : option code_unit) (s : jsstring)
  : option mstate :=
  rmatch r Some (MState prev s []).

(** The leftmost match, as [RegExp.prototype.exec] finds it without the
    [g] and [y] flags. *)
Fixpoint rsearch (r : regex) (prev : option code_unit) (s : jsstring)
  : option mstate :=
  match match_here r prev s with
  | Some m => Some m
  | None =>
    match s with
    | [] => None
    | c :: t => rsearch r (Some c) t
    end
  end.

(** [re.test(s)] *)
Definition regex_test (r : regex) (s : jsstring) : bool :=
  match rsearch r None s with Some _ => true | None => false end.

Fixpoint capture (n : nat) (caps : list (nat * jsstring)) : option jsstring :=
  match caps with
  | [] => None
  | (i, text) :: rest => if (i =? n) then Some text else capture n rest
  end.

(** [s.match(re)[n]] for a pattern without the [g] flag: [None] when there
    is no match, [Some None] when group [n] took no part in it. *)
Definition regex_match_group (r : regex) (n : nat) (s : jsstring)
  : option (option jsstring) :=
  match rsearch r None s with
  | Some m => Some (capture n (m_caps m))
  | None => None
  end.

(** [s.split(re)] for a pattern without capturing groups: [cur] is the
    reversed text since the last separator, [rest] the input still to scan. *)
Fixpoint regex_split_loop (r : regex) (fuel : nat) (prev : option code_unit)
    (cur rest : jsstring) : list jsstring :=
  match fuel with
  | O => [rev cur ++ rest]
  | S fuel' =>
    match rest with
    | [] => [rev cur]
    | c :: t =>
      match match_here r prev rest with
      | None => regex_split_loop r fuel' (Some c) (c :: cur) t
      | Some m =>
        if (length (m_rest m) =? length rest) && negb (truthy cur)
        then regex_split_loop r fuel' (Some c) (c :: cur) t
        else rev cur :: regex_split_loop r fuel' (m_prev m) [] (m_rest m)
      end
    end
  end.

Definition regex_split (r : regex) (s : jsstring) : list jsstring :=
  match s with
  | [] => match match_here r None [] with Some _ => [] | None => [[]] end
  | _ => regex_split_loop r (2 * length s + 2) None [] s
  end.

(** [s.replace(re, repl)] for a pattern with the [g] flag and a replacement
    without [$] patterns. *)
Fixpoint regex_replace_loop (r : regex) (repl : jsstring) (fuel : nat)
    (prev : option code_unit) (rest : jsstring) : jsstring :=
  match fuel with
  | O => rest
  | S fuel' =>
    let step :=
      match rest with
      | [] => []
      | c :: t => c :: regex_replace_loop r repl fuel' (Some c) t
      end in
    match match_here r prev rest with
    | None => step
    | Some m =>
      if length (m_rest m) =? length rest
      then repl ++ step
      else repl ++ regex_replace_loop r repl fuel' (m_prev m) (m_rest m)
    end
  end.

Definition regex_replace_all (r : regex) (repl : jsstring) (s : jsstring)
  : jsstring :=
  regex_replace_loop r repl (S (length s)) None s.

(** Pattern combinators *)

Definition rseq (rs : list regex) : regex := foldr RSeq REmpty rs.
Definition rlit (s : jsstring) : regex :=
  rseq ((fun c => RChar (N.eqb c)) <$> s).
Definition rlit_ci (s : jsstring) : regex :=
  rseq ((fun c => RChar (eq_ci c)) <$> s).
Definition rplus (r : regex) : regex := RSeq r (RStar true r).
Definition rplus_lazy (r : regex) : regex := RSeq r (RStar false r).
Definition rstar (r : regex) : regex := RStar true r.
Definition ropt (r : regex) : regex := RAlt r REmpty.
Definition rspace : regex := RChar is_space.
Definition rnonspace : regex := RChar (fun c => negb (is_space c)).
Definition rdot : regex := RChar (fun c => negb (is_line_terminator c)).
Definition rchar (c : code_unit) : regex := RChar (N.eqb c).

(** ** JavaScript objects used as string maps

    [Record<string, string>]: the list holds the properties in the order
    [Object.entries] lists them: array-index keys first, in ascending
    order, then the other keys in insertion order. *)

Definition is_digit (c : code_unit) : bool := ((48 <=? c) && (c <=? 57))%N.

Definition digits_value (s : jsstring) : N :=
  fold_left (fun acc c => (acc * 10 + (c - 48))%N) s 0%N.

(** A canonical numeric string below [2^32 - 1] is an array index. *)
Definition array_index (k : jsstring) : option N :=
  match k with
  | [] => None
  | c :: t =>
    if forallb is_digit k && (negb (c =? 48)%N || negb (truthy t))
       && (length k <=? 10) && (digits_value k <? 4294967295)%N
    then Some (digits_value k) else None
  end.

Fixpoint obj_has (k : jsstring) (o : list (jsstring * jsstring)) : bool :=
  match o with
  | [] => false
  | (k', _) :: rest => jseqb k' k || obj_has k rest
  end.

Fixpoint obj_update (k v : jsstring) (o : list (jsstring * jsstring))
  : list (jsstring * jsstring) :=
  match o with
  | [] => []
  | (k', v') :: rest =>
    if jseqb k' k then (k', v) :: rest else (k', v') :: obj_update k v rest
  end.

Fixpoint obj_insert_index (n : N) (k v : jsstring)
    (o : list (jsstring * jsstring)) : list (jsstring * jsstring) :=
  match o with
  | [] => [(k, v)]
  | (k', v') :: rest =>
    match array_index k' with
    | Some n' => if (n' <? n)%N then (k', v') :: obj_insert_index n k v rest
                 else (k, v) :: o
    | None => (k, v) :: o
    end
  end.

(** [o[k] = v] for a string [v] on a plain object. An own property is
    overwritten in place. A key the object does not own is looked up on
    [Object.prototype]: [__proto__] is an accessor there, whose setter
    ignores a value that is not an object, so nothing is stored. Any other
    new key becomes an own property, at its place in the key order. *)
Definition obj_set (k v : jsstring) (o : list (jsstring * jsstring))
  : list (jsstring * jsstring) :=
  if obj_has k o then obj_update k v o
  else if jseqb k (js "__proto__") then o
  else match array_index k with
       | Some n => obj_insert_index n k v o
       | None => o ++ [(k, v)]
       end.

(** ** DockerCommandParser (ssh-service.ts, docker-parser part) *)

Record DockerExecCommand := {
  dc_containerName : jsstring;
  dc_command : jsstring;
  dc_options : list jsstring;
  dc_workdir : option jsstring;
  dc_user : option jsstring;
  dc_env : list (jsstring * jsstring)
}.

Inductive CommandType := docker_exec | docker_run | regular | compound.

Record ParsedCommand := {
  pc_type : CommandType;
  pc_originalCommand : jsstring;
  pc_dockerCommands : list DockerExecCommand;
  pc_regularCommands : list jsstring;
  pc_needsContainerContext : option bool
}.

(** The patterns of the source are quoted with blanks between their
    pieces. The option block shared by the two docker patterns:
    [(?: -[a-zA-Z]+ (?: \s+ \S+ )? \s* )*] *)
Definition docker_options : regex :=
  rstar (rseq [rchar 45; rplus (RChar is_ascii_letter);
               ropt (RSeq (rplus rspace) (rplus rnonspace));
               rstar rspace]).

(** [/docker \s+ exec \s+ (?<options> ... ) \s* (?<container> \S+ ) \s+ (?<command> .+ )/i] *)
Definition DOCKER_EXEC_REGEX : regex :=
  rseq [rlit_ci (js "docker"); rplus rspace; rlit_ci (js "exec"); rplus rspace;
        RGroup 1 docker_options; rstar rspace; RGroup 2 (rplus rnonspace);
        rplus rspace; RGroup 3 (rplus rdot)].

(** [/docker \s+ run \s+ (?<options> ... ) \s* (?<image> \S+ ) \s* (?<command> .* )/i] *)
Definition DOCKER_RUN_REGEX : regex :=
  rseq [rlit_ci (js "docker"); rplus rspace; rlit_ci (js "run"); rplus rspace;
        RGroup 1 docker_options; rstar rspace; RGroup 2 (rplus rnonspace);
        rstar rspace; RGroup 3 (rstar rdot)].

(** [/ \s* (?: && | \|\| | ; ) \s* /] *)
Definition COMPOUND_SEPARATORS : regex :=
  rseq [rstar rspace;
        RAlt (rlit (js "&&")) (RAlt (rlit (js "||")) (rlit (js ";")));
        rstar rspace].

Definition isCompoundCommand (command : jsstring) : bool :=
  regex_test COMPOUND_SEPARATORS command.

Definition isDockerExecCommand (command : jsstring) : bool :=
  regex_test DOCKER_EXEC_REGEX command.

Definition isDockerRunCommand (command : jsstring) : bool :=
  regex_test DOCKER_RUN_REGEX command.

(** The option loop of [parseDockerExecCommand]: [rest] is [parts.slice(i)].
    It returns the options, workdir, user and environment read, and the
    parts left at the first one that does not start with a dash. *)
Fixpoint parse_exec_options (rest : list jsstring) (options : list jsstring)
    (workdir user : option jsstring) (env : list (jsstring * jsstring))
  : list jsstring * option jsstring * option jsstring
    * list (jsstring * jsstring) * list jsstring :=
  match rest with
  | [] => (options, workdir, user, env, [])
  | option :: t =>
    if negb (startsWith option (js "-")) then (options, workdir, user, env, rest)
    else if jseqb option (js "-w") || jseqb option (js "--workdir") then
      match t with
      | v :: t' => parse_exec_options t' options (Some v) user env
      | [] => (options, workdir, user, env, [])
      end
    else if jseqb option (js "-u") || jseqb option (js "--user") then
      match t with
      | v :: t' => parse_exec_options t' options workdir (Some v) env
      | [] => (options, workdir, user, env, [])
      end
    else if jseqb option (js "-e") || jseqb option (js "--env") then
      match t with
      | envVar :: t' =>
        parse_exec_options t' options workdir user
          (match split_on 61 envVar with
           | key :: value :: _ => obj_set key value env
           | _ => env
           end)
      | [] => (options, workdir, user, env, [])
      end
    else
      match t with
      | v :: t' =>
        if (jseqb option (js "-p") || jseqb option (js "-v")
            || jseqb option (js "--name")) && negb (startsWith v (js "-"))
        then parse_exec_options t' (options ++ [option; v]) workdir user env
        else parse_exec_options t (options ++ [option]) workdir user env
      | [] => (options ++ [option], workdir, user, env, [])
      end
  end.

Definition parseDockerExecCommand (command : jsstring)
  : option DockerExecCommand :=
  let parts := regex_split (rplus rspace) (trim command) in
  match parts with
  | p0 :: p1 :: p2 :: rest =>
    if negb (jseqb p0 (js "docker")) || negb (jseqb p1 (js "exec")) then None
    else
      match parse_exec_options (p2 :: rest) [] None None [] with
      | (options, workdir, user, env, containerName :: cmd_parts) =>
        match cmd_parts with
        | [] => None
        | _ => Some {| dc_containerName := containerName;
                       dc_command := join (js " ") cmd_parts;
                       dc_options := options;
                       dc_workdir := workdir;
                       dc_user := user;
                       dc_env := env |}
        end
      | (_, _, _, _, []) => None
      end
  | _ => None
  end.

(** The loop of [parseCompoundCommand] over the parts of the split. *)
Fixpoint compound_loop (parts : list jsstring)
    (dockerCommands : list DockerExecCommand) (regularCommands : list jsstring)
    (hasDockerExec : bool)
  : list DockerExecCommand * list jsstring * bool :=
  match parts with
  | [] => (dockerCommands, regularCommands, hasDockerExec)
  | part :: rest =>
    let trimmedPart := trim part in
    if negb (truthy trimmedPart)
    then compound_loop rest dockerCommands regularCommands hasDockerExec
    else if isDockerExecCommand trimmedPart then
      match parseDockerExecCommand trimmedPart with
      | Some dockerCommand =>
        compound_loop rest (dockerCommands ++ [dockerCommand]) regularCommands true
      | None => compound_loop rest dockerCommands regularCommands hasDockerExec
      end
    else compound_loop rest dockerCommands (regularCommands ++ [trimmedPart])
           hasDockerExec
  end.

Definition parseCompoundCommand (command : jsstring) : ParsedCommand :=
  let parts := regex_split COMPOUND_SEPARATORS command in
  let '(dockerCommands, regularCommands, hasDockerExec) :=
    compound_loop parts [] [] false in
  {| pc_type := compound;
     pc_originalCommand := command;
     pc_dockerCommands := dockerCommands;
     pc_regularCommands := regularCommands;
     pc_needsContainerContext :=
       Some (hasDockerExec && (0 <? length regularCommands)) |}.

Definition parseCommand (command : jsstring) : ParsedCommand :=
  let trimmedCommand := trim command in
  if isCompoundCommand trimmedCommand then parseCompoundCommand trimmedCommand
  else if isDockerExecCommand trimmedCommand then
    {| pc_type := docker_exec;
       pc_originalCommand := trimmedCommand;
       pc_dockerCommands :=
         match parseDockerExecCommand trimmedCommand with
         | Some dockerCommand => [dockerCommand]
         | None => []
         end;
       pc_regularCommands := [];
       pc_needsContainerContext := None |}
  else if isDockerRunCommand trimmedCommand then
    {| pc_type := docker_run;
       pc_originalCommand := trimmedCommand;
       pc_dockerCommands := [];
       pc_regularCommands := [trimmedCommand];
       pc_needsContainerContext := None |}
  else
    {| pc_type := regular;
       pc_originalCommand := trimmedCommand;
       pc_dockerCommands := [];
       pc_regularCommands := [trimmedCommand];
       pc_needsContainerContext := None |}.

Definition buildDockerExecCommand (dockerCmd : DockerExecCommand) : jsstring :=
  js "docker exec"
  ++ (match dc_options dockerCmd with
      | [] => []
      | opts => js " " ++ join (js " ") opts
      end)
  ++ (if truthy_opt (dc_workdir dockerCmd)
      then js " -w " ++ default [] (dc_workdir dockerCmd) else [])
  ++ (if truthy_opt (dc_user dockerCmd)
      then js " -u " ++ default [] (dc_user dockerCmd) else [])
  ++ concat ((fun kv => js " -e " ++ fst kv ++ js "=" ++ snd kv) <$> dc_env dockerCmd)
  ++ js " " ++ dc_containerName dockerCmd ++ js " " ++ dc_command dockerCmd.

Definition is_type (t : CommandType) (p : ParsedCommand) : bool :=
  match t, pc_type p with
  | docker_exec, docker_exec | docker_run, docker_run
  | regular, regular | compound, compound => true
  | _, _ => false
  end.

Definition buildContainerCommand (parsedCommand : ParsedCommand)
    (defaultContainer : option jsstring) : list jsstring :=
  if is_type regular parsedCommand then pc_regularCommands parsedCommand
  else if is_type docker_exec parsedCommand
  then [pc_originalCommand parsedCommand]
  else if is_type compound parsedCommand
          && default false (pc_needsContainerContext parsedCommand)
  then
    let currentContainer :=
      match last (pc_dockerCommands parsedCommand) with
      | Some dockerCmd => Some (dc_containerName dockerCmd)
      | None => defaultContainer
      end in
    (buildDockerExecCommand <$> pc_dockerCommands parsedCommand)
    ++ (if truthy_opt currentContainer
           && (0 <? length (pc_regularCommands parsedCommand))
        then [js "docker exec " ++ default [] currentContainer ++ js " sh -c "
              ++ [dq] ++ join (js " && ") (pc_regularCommands parsedCommand)
              ++ [dq]]
        else [])
  else [pc_originalCommand parsedCommand].

(** ** ContainerContextManager (container-context.ts)

    [containerSessions] is a JavaScript [Map]: its iteration order is the
    insertion order, and [set] on a present key keeps the key's place. A
    [Date] is its [getTime()], in milliseconds. *)

Record ContainerSession := {
  cs_connectionId : jsstring;
  cs_containerName : jsstring;
  cs_workingDirectory : jsstring;
  cs_environment : list (jsstring * jsstring);
  cs_user : option jsstring;
  cs_lastActivity : Z;
  cs_isActive : bool
}.

Fixpoint map_get {V : Type} (k : jsstring) (m : list (jsstring * V)) : option V :=
  match m with
  | [] => None
  | (k', v) :: rest => if jseqb k' k then Some v else map_get k rest
  end.

Fixpoint map_set {V : Type} (k : jsstring) (v : V) (m : list (jsstring * V))
  : list (jsstring * V) :=
  match m with
  | [] => [(k, v)]
  | (k', v') :: rest =>
    if jseqb k' k then (k', v) :: rest else (k', v') :: map_set k v rest
  end.

Definition sessionKey (connectionId containerName : jsstring) : jsstring :=
  connectionId ++ js ":" ++ containerName.

Definition setContainerContext (now : Z) (connectionId containerName : jsstring)
    (workingDirectory : option jsstring)
    (environment : option (list (jsstring * jsstring)))
    (user : option jsstring)
    (containerSessions : list (jsstring * ContainerSession))
  : list (jsstring * ContainerSession) :=
  map_set (sessionKey connectionId containerName)
    {| cs_connectionId := connectionId;
       cs_containerName := containerName;
       cs_workingDirectory := or_else workingDirectory (js "/root");
       cs_environment := default [] environment;
       cs_user := user;
       cs_lastActivity := now;
       cs_isActive := true |}
    containerSessions.

Definition getContainerContext (connectionId containerName : jsstring)
    (containerSessions : list (jsstring * ContainerSession))
  : option ContainerSession :=
  map_get (sessionKey connectionId containerName) containerSessions.

Definition updateActivity (now : Z) (connectionId containerName : jsstring)
    (containerSessions : list (jsstring * ContainerSession))
  : list (jsstring * ContainerSession) :=
  match getContainerContext connectionId containerName containerSessions with
  | Some session =>
    map_set (sessionKey connectionId containerName)
      {| cs_connectionId := cs_connectionId session;
         cs_containerName := cs_containerName session;
         cs_workingDirectory := cs_workingDirectory session;
         cs_environment := cs_environment session;
         cs_user := cs_user session;
         cs_lastActivity := now;
         cs_isActive := cs_isActive session |}
      containerSessions
  | None => containerSessions
  end.

(** The loop of [getActiveContainer]: the first session of the connection,
    in iteration order, with the greatest [lastActivity] above zero. *)
Fixpoint active_loop (connectionId : jsstring)
    (sessions : list (jsstring * ContainerSession))
    (activeContainer : option jsstring) (latestActivity : Z) : option jsstring :=
  match sessions with
  | [] => activeContainer
  | (_, session) :: rest =>
    if jseqb (cs_connectionId session) connectionId && cs_isActive session
       && (latestActivity <? cs_lastActivity session)%Z
    then active_loop connectionId rest (Some (cs_containerName session))
           (cs_lastActivity session)
    else active_loop connectionId rest activeContainer latestActivity
  end.

Definition getActiveContainer (connectionId : jsstring)
    (containerSessions : list (jsstring * ContainerSession)) : option jsstring :=
  active_loop connectionId containerSessions None 0%Z.

Definition buildContainerExecCommand (containerName command : jsstring)
    (session : option ContainerSession) (interactive : bool) : jsstring :=
  js "docker exec"
  ++ (if interactive then js " -it" else [])
  ++ (match session with
      | Some s => if truthy (cs_workingDirectory s)
                  then js " -w " ++ cs_workingDirectory s else []
      | None => []
      end)
  ++ (match session with
      | Some s => if truthy_opt (cs_user s)
                  then js " -u " ++ default [] (cs_user s) else []
      | None => []
      end)
  ++ (match session with
      | Some s => concat ((fun kv => js " -e " ++ fst kv ++ js "=" ++ [dq]
                                      ++ snd kv ++ [dq]) <$> cs_environment s)
      | None => []
      end)
  ++ js " " ++ containerName ++ js " " ++ command.

(** ** SSHService (ssh-service.ts): data *)

(** The optional properties of a configuration. *)
Inductive config_key :=
| key_port | key_password | key_privateKey | key_passphrase
| key_keepaliveInterval | key_readyTimeout | key_reconnect
| key_reconnectTries | key_reconnectDelay.

Global Instance config_key_eq_dec : EqDecision config_key.
Proof. solve_decision. Defined.

(** A configuration object. An optional property reads [None] when the
    object does not own it, and also when the object owns it with the value
    [undefined]; [cfg_undefined] lists the properties of the second kind
    (a key listed there counts only while its property reads [None]). The
    two kinds read alike but are not copied alike by a spread. *)
Record SSHConnectionConfig := {
  cfg_host : jsstring;
  cfg_port : option Z;
  cfg_username : jsstring;
  cfg_password : option jsstring;
  cfg_privateKey : option jsstring;
  cfg_passphrase : option jsstring;
  cfg_keepaliveInterval : option Z;
  cfg_readyTimeout : option Z;
  cfg_reconnect : option bool;
  cfg_reconnectTries : option Z;
  cfg_reconnectDelay : option Z;
  cfg_undefined : list config_key
}.

Inductive ConnectionStatus :=
  DISCONNECTED | CONNECTING | CONNECTED | RECONNECTING | ERROR.

Global Instance ConnectionStatus_eq_dec : EqDecision ConnectionStatus.
Proof. solve_decision. Defined.

(** A [NodeSSH] client is a handle; [new NodeSSH()] takes the next one. *)
Record SSHConnection := {
  conn_id : jsstring;
  conn_name : option jsstring;
  conn_config : SSHConnectionConfig;
  conn_status : ConnectionStatus;
  conn_lastUsed : option Z;
  conn_lastError : option jsstring;
  conn_client : option nat;
  conn_tags : option (list jsstring);
  conn_currentDirectory : option jsstring
}.

(** [code] is [null] when the remote command ended without an exit code. *)
Record CommandResult := {
  stdout : jsstring;
  stderr : jsstring;
  code : option Z
}.

Record ExecOptions := {
  cwd : option jsstring;
  timeout : option Z
}.

Record ConnectOptions := {
  co_host : jsstring;
  co_port : Z;
  co_username : jsstring;
  co_password : option jsstring;
  co_privateKey : option jsstring;
  co_passphrase : option jsstring;
  co_keepaliveInterval : Z;
  co_readyTimeout : Z
}.

Record Credentials := {
  cred_password : option jsstring;
  cred_passphrase : option jsstring
}.

Record TunnelConfig := {
  tc_id : option jsstring;
  tc_connectionId : jsstring;
  tc_localPort : Z;
  tc_remoteHost : jsstring;
  tc_remotePort : Z;
  tc_description : option jsstring
}.

(** A tunnel record: [server] and the sockets are handles. *)
Record Tunnel := {
  tn_config : TunnelConfig;
  tn_server : option nat;
  tn_connections : list nat;
  tn_isActive : bool
}.

(** The listeners [createTunnel] puts on a socket its server accepted: the
    two of the [connection] handler, which forget the socket, and the two
    added once [forwardOut] gave the SSH stream, which destroy the stream. *)
Inductive socket_listener :=
| ForgetOnClose
| ForgetOnError
| DestroyStreamOnError (stream : nat)
| DestroyStreamOnClose (stream : nat).

(** A socket accepted by a tunnel's server: the tunnel whose handler took
    it, the listeners it carries, in the order they were added, and the SSH
    stream it is piped with, once there is one. The listeners of the stream
    itself stay on the stream. *)
Record Socket := {
  sk_tunnel : jsstring;
  sk_listeners : list socket_listener;
  sk_stream : option nat
}.

(** What the service asks of the outside: the SSH transport, the remote
    shell, and the local TCP stack. *)
Inductive io_event :=
| IoConnect (client : nat) (opts : ConnectOptions)
| IoExec (client : nat) (command : jsstring) (opts : ExecOptions)
| IoListen (server : nat) (port : Z)
| IoSocketRemoveAllListeners (socket : nat)
| IoSocketDestroy (socket : nat)
| IoServerRemoveAllListeners (server : nat)
| IoServerClose (server : nat)
| IoScheduleReconnect (connectionId : jsstring)
| IoForwardOut (client socket : nat)
| IoStreamDestroy (stream : nat).

Inductive exec_response :=
| ExecResolved (out err : jsstring) (exit : option Z)
| ExecRejected (message : jsstring).

Record SavedConnection := {
  sv_name : option jsstring;
  sv_host : jsstring;
  sv_port : option Z;
  sv_username : jsstring;
  sv_privateKey : option jsstring;
  sv_lastUsed : Z;
  sv_tags : list jsstring
}.

Record ServiceState := {
  connections : gmap (list N) SSHConnection;
  containerSessions : list (jsstring * ContainerSession);
  credentialStore : gmap (list N) Credentials;
  connectionCollection : gmap (list N) SavedConnection;
  tunnels : gmap (list N) Tunnel;
  sockets : gmap nat Socket;
  next_handle : nat;
  history : list io_event
}.

Definition set_connections (f : gmap (list N) SSHConnection -> gmap (list N) SSHConnection)
    (st : ServiceState) : ServiceState :=
  {| connections := f (connections st);
     containerSessions := containerSessions st;
     credentialStore := credentialStore st;
     connectionCollection := connectionCollection st;
     tunnels := tunnels st;
     sockets := sockets st;
     next_handle := next_handle st;
     history := history st |}.

Definition set_containerSessions
    (f : list (jsstring * ContainerSession) -> list (jsstring * ContainerSession))
    (st : ServiceState) : ServiceState :=
  {| connections := connections st;
     containerSessions := f (containerSessions st);
     credentialStore := credentialStore st;
     connectionCollection := connectionCollection st;
     tunnels := tunnels st;
     sockets := sockets st;
     next_handle := next_handle st;
     history := history st |}.

Definition set_credentialStore
    (f : gmap (list N) Credentials -> gmap (list N) Credentials)
    (st : ServiceState) : ServiceState :=
  {| connections := connections st;
     containerSessions := containerSessions st;
     credentialStore := f (credentialStore st);
     connectionCollection := connectionCollection st;
     tunnels := tunnels st;
     sockets := sockets st;
     next_handle := next_handle st;
     history := history st |}.

Definition set_connectionCollection
    (f : gmap (list N) SavedConnection -> gmap (list N) SavedConnection)
    (st : ServiceState) : ServiceState :=
  {| connections := connections st;
     containerSessions := containerSessions st;
     credentialStore := credentialStore st;
     connectionCollection := f (connectionCollection st);
     tunnels := tunnels st;
     sockets := sockets st;
     next_handle := next_handle st;
     history := history st |}.

Definition set_tunnels (f : gmap (list N) Tunnel -> gmap (list N) Tunnel)
    (st : ServiceState) : ServiceState :=
  {| connections := connections st;
     containerSessions := containerSessions st;
     credentialStore := credentialStore st;
     connectionCollection := connectionCollection st;
     tunnels := f (tunnels st);
     sockets := sockets st;
     next_handle := next_handle st;
     history := history st |}.

Definition set_sockets (f : gmap nat Socket -> gmap nat Socket)
    (st : ServiceState) : ServiceState :=
  {| connections := connections st;
     containerSessions := containerSessions st;
     credentialStore := credentialStore st;
     connectionCollection := connectionCollection st;
     tunnels := tunnels st;
     sockets := f (sockets st);
     next_handle := next_handle st;
     history := history st |}.

Definition log_io (ev : io_event) (st : ServiceState) : ServiceState :=
  {| connections := connections st;
     containerSessions := containerSessions st;
     credentialStore := credentialStore st;
     connectionCollection := connectionCollection st;
     tunnels := tunnels st;
     sockets := sockets st;
     next_handle := next_handle st;
     history := history st ++ [ev] |}.

Definition take_handle (st : ServiceState) : nat * ServiceState :=
  (next_handle st,
   {| connections := connections st;
      containerSessions := containerSessions st;
      credentialStore := credentialStore st;
      connectionCollection := connectionCollection st;
      tunnels := tunnels st;
      sockets := sockets st;
      next_handle := S (next_handle st);
      history := history st |}).

(** ** A monad for the asynchronous methods

    A method runs on a state and ends by returning, by throwing (a rejected
    promise; the value thrown is kept as its message), or by running out of
    the fuel that bounds the model's recursion. The state a method leaves
    behind is kept when it throws. *)

Inductive outcome (A : Type) : Type :=
| Ret (a : A)
| Throw (message : jsstring)
| OutOfFuel.
Arguments Ret {A} a.
Arguments Throw {A} message.
Arguments OutOfFuel {A}.

Definition M (S A : Type) : Type := S -> outcome A * S.

Definition ret {S A : Type} (a : A) : M S A := fun st => (Ret a, st).
Definition throw {S A : Type} (message : jsstring) : M S A :=
  fun st => (Throw message, st).
Definition bind {S A B : Type} (m : M S A) (f : A -> M S B) : M S B :=
  fun st =>
    match m st with
    | (Ret a, st') => f a st'
    | (Throw message, st') => (Throw message, st')
    | (OutOfFuel, st') => (OutOfFuel, st')
    end.
Definition get {S : Type} : M S S := fun st => (Ret st, st).
Definition modify {S : Type} (f : S -> S) : M S unit := fun st => (Ret tt, f st).
Definition try_catch {S A : Type} (m : M S A) (handler : jsstring -> M S A)
  : M S A :=
  fun st =>
    match m st with
    | (Throw message, st') => handler message st'
    | r => r
    end.

Declare Scope js_scope.
Delimit Scope js_scope with js_m.
Notation "x <- c1 ;; c2" := (bind c1 (fun x => c2))
  (at level 100, c1 at next level, right associativity) : js_scope.
Notation "c1 ;;; c2" := (bind c1 (fun _ => c2))
  (at level 100, right associativity) : js_scope.

Local Open Scope js_scope.

Definition nl : code_unit := 10%N.

Definition is_CONNECTED (s : ConnectionStatus) : bool :=
  bool_decide (s = CONNECTED).

(** [n || d] and [if (n)] on an optional number: zero is falsy. *)
Definition truthy_num (o : option Z) : bool :=
  match o with Some z => negb (z =? 0)%Z | None => false end.

Definition with_dockerCommands (p : ParsedCommand)
    (dockerCommands : list DockerExecCommand) : ParsedCommand :=
  {| pc_type := pc_type p;
     pc_originalCommand := pc_originalCommand p;
     pc_dockerCommands := dockerCommands;
     pc_regularCommands := pc_regularCommands p;
     pc_needsContainerContext := pc_needsContainerContext p |}.

Definition with_currentDirectory (c : SSHConnection) (dir : option jsstring)
  : SSHConnection :=
  {| conn_id := conn_id c;
     conn_name := conn_name c;
     conn_config := conn_config c;
     conn_status := conn_status c;
     conn_lastUsed := conn_lastUsed c;
     conn_lastError := conn_lastError c;
     conn_client := conn_client c;
     conn_tags := conn_tags c;
     conn_currentDirectory := dir |}.

(** "/\bsudo\b/g" *)
Definition SUDO_WORD : regex := rseq [RWordB; rlit (js "sudo"); RWordB].

(** The accumulators of [executeDockerContextCommand]. *)
Record docker_acc := {
  combinedOutput : jsstring;
  combinedError : jsstring;
  lastExitCode : Z;
  activeContainer : option jsstring
}.

Section Service.

(** The outside world answers as a function of what was asked of it so far:
    the transport ([None]: ready, [Some m]: rejected with message [m]), the
    remote shell, the local listener, and the clock ([Date.now()]). *)
Variable ssh_connect : list io_event -> ConnectOptions -> option jsstring.
Variable ssh_exec : list io_event -> nat -> jsstring -> ExecOptions -> exec_response.
Variable tcp_listen : list io_event -> Z -> option jsstring.
Variable clock : list io_event -> Z.

(** [crypto.createHash('md5').update(s).digest('hex')] *)
Variable md5hex : jsstring -> jsstring.

(** The environment of the process: [IS_DOCKER === 'true'], and the values
    [parseInt] reads from [COMMAND_TIMEOUT] (when set to a number),
    [DEFAULT_SSH_PORT || '22'] and [CONNECTION_TIMEOUT || '10000']. *)
Variable isDocker : bool.
Variable COMMAND_TIMEOUT : option Z.
Variable DEFAULT_SSH_PORT : Z.
Variable CONNECTION_TIMEOUT : Z.

(** [client.execCommand(command, options)] *)
Definition execCommand (client : nat) (command : jsstring) (opts : ExecOptions)
  : M ServiceState CommandResult :=
  fun st =>
    let st' := log_io (IoExec client command opts) st in
    match ssh_exec (history st) client command opts with
    | ExecResolved out err exit =>
      (Ret {| stdout := out; stderr := err; code := exit |}, st')
    | ExecRejected message => (Throw message, st')
    end.

(** The connection and its client when
    [connection && connection.client && status === CONNECTED]. *)
Definition live_connection (connectionId : jsstring) (st : ServiceState)
  : option (SSHConnection * nat) :=
  match connections st !! connectionId with
  | Some connection =>
    match conn_client connection with
    | Some client =>
      if is_CONNECTED (conn_status connection) then Some (connection, client)
      else None
    | None => None
    end
  | None => None
  end.

Definition not_connected_message (connectionId : jsstring) : jsstring :=
  js "连接 " ++ connectionId ++ js " 不可用或未连接".

Definition getCurrentDirectory (connectionId : jsstring)
  : M ServiceState jsstring :=
  st <- get ;;
  match live_connection connectionId st with
  | None => throw (not_connected_message connectionId)
  | Some (_, client) =>
    try_catch
      (result <- execCommand client (js "pwd") {| cwd := None; timeout := None |} ;;
       ret (trim (stdout result)))
      (fun _ => ret [])
  end.

(** [getCredentials]: the keyring, or the credential collection in a
    container; a failure to read yields the empty record. *)
Definition getCredentials (id : jsstring) : M ServiceState Credentials :=
  st <- get ;;
  ret (default {| cred_password := None; cred_passphrase := None |}
         (credentialStore st !! id)).

Definition docker_exec_options (connection : SSHConnection) (options : ExecOptions)
  : ExecOptions :=
  {| cwd := if truthy_opt (cwd options) then cwd options
            else conn_currentDirectory connection;
     timeout := if truthy_num (timeout options) then timeout options else None |}.

Definition record_docker_context (dockerCmd : DockerExecCommand)
    (connectionId : jsstring) : M ServiceState unit :=
  st <- get ;;
  let now := clock (history st) in
  modify (set_containerSessions (fun sessions =>
    updateActivity now connectionId (dc_containerName dockerCmd)
      (setContainerContext now connectionId (dc_containerName dockerCmd)
         (dc_workdir dockerCmd) (Some (dc_env dockerCmd)) (dc_user dockerCmd)
         sessions))).

(** The [for] loop of [executeDockerContextCommand]. It returns the
    accumulators as they stand when the loop ends, breaks, or an
    [execCommand] rejects (then with the message thrown). *)
Fixpoint docker_exec_loop (client : nat) (connectionId : jsstring)
    (parsedCommand : ParsedCommand) (opts : ExecOptions)
    (cmds : list DockerExecCommand) (acc : docker_acc) (st : ServiceState)
  : docker_acc * option jsstring * ServiceState :=
  match cmds with
  | [] => (acc, None, st)
  | dockerCmd :: rest =>
    let dockerExecCommand :=
      default [] (head (buildContainerCommand
                          (with_dockerCommands parsedCommand [dockerCmd]) None)) in
    match execCommand client dockerExecCommand opts st with
    | (Ret result, st1) =>
      let acc1 :=
        {| combinedOutput :=
             combinedOutput acc
             ++ (if truthy (stdout result) then stdout result ++ [nl] else []);
           combinedError :=
             combinedError acc
             ++ (if truthy (stderr result) then stderr result ++ [nl] else []);
           lastExitCode := default 0%Z (code result);
           activeContainer := Some (dc_containerName dockerCmd) |} in
      let st2 := snd (record_docker_context dockerCmd connectionId st1) in
      if negb (lastExitCode acc1 =? 0)%Z then (acc1, None, st2)
      else docker_exec_loop client connectionId parsedCommand opts rest acc1 st2
    | (Throw message, st1) => (acc, Some message, st1)
    | (OutOfFuel, st1) => (acc, None, st1)
    end
  end.

Definition executeDockerContextCommand (connectionId : jsstring)
    (parsedCommand : ParsedCommand) (options : ExecOptions)
  : M ServiceState CommandResult :=
  fun st =>
    match connections st !! connectionId with
    | None => (Throw (js "连接 " ++ connectionId ++ js " 不可用"), st)
    | Some connection =>
      match conn_client connection with
      | None => (Throw (js "连接 " ++ connectionId ++ js " 不可用"), st)
      | Some client =>
        let opts := docker_exec_options connection options in
        let caught (acc : docker_acc) (message : jsstring) :=
          {| stdout := trim (combinedOutput acc);
             stderr := trim (combinedError acc ++ message);
             code := Some 1%Z |} in
        match docker_exec_loop client connectionId parsedCommand opts
                (pc_dockerCommands parsedCommand)
                {| combinedOutput := []; combinedError := [];
                   lastExitCode := 0; activeContainer := None |} st with
        | (acc, Some message, st1) => (Ret (caught acc message), st1)
        | (acc, None, st1) =>
          if (0 <? length (pc_regularCommands parsedCommand))
             && truthy_opt (activeContainer acc) && (lastExitCode acc =? 0)%Z
          then
            let container := default [] (activeContainer acc) in
            let containerSession :=
              getContainerContext connectionId container (containerSessions st1) in
            let combinedRegularCommand :=
              join (js " && ") (pc_regularCommands parsedCommand) in
            let containerExecCommand :=
              buildContainerExecCommand container
                (js "sh -c " ++ [dq] ++ combinedRegularCommand ++ [dq])
                containerSession false in
            match execCommand client containerExecCommand opts st1 with
            | (Ret result, st2) =>
              let st3 :=
                set_containerSessions
                  (updateActivity (clock (history st2)) connectionId container) st2 in
              (Ret {| stdout := trim (combinedOutput acc ++ stdout result);
                      stderr := trim (combinedError acc ++ stderr result);
                      code := Some (default 0%Z (code result)) |}, st3)
            | (Throw message, st2) => (Ret (caught acc message), st2)
            | (OutOfFuel, st2) => (OutOfFuel, st2)
            end
          else
            (Ret {| stdout := trim (combinedOutput acc);
                    stderr := trim (combinedError acc);
                    code := Some (lastExitCode acc) |}, st1)
        end
      end
    end.

(** [command.trim().startsWith('sudo ') || command.includes(' sudo ')] *)
Definition is_sudo_command (command : jsstring) : bool :=
  startsWith (trim command) (js "sudo ") || includes command (js " sudo ").

Definition sudo_rewrite (password command : jsstring) : jsstring :=
  js "echo " ++ [dq] ++ password ++ [dq] ++ js " | "
  ++ regex_replace_all SUDO_WORD (js "sudo -S") command ++ js " 2>/dev/null".

Definition exec_options (connection : SSHConnection) (options : ExecOptions)
  : ExecOptions :=
  {| cwd := if truthy_opt (cwd options) then cwd options
            else if truthy_opt (conn_currentDirectory connection)
                 then conn_currentDirectory connection else None;
     timeout := if truthy_num (timeout options) then timeout options
                else match COMMAND_TIMEOUT with
                     | Some t => if (0 <? t)%Z then Some t else None
                     | None => None
                     end |}.

(** The part of [executeCommand] from "prepare the options" to the end of
    the [try] block. *)
Definition execute_plain (connectionId : jsstring) (connection : SSHConnection)
    (client : nat) (parsedCommand : ParsedCommand) (command : jsstring)
    (options : ExecOptions) : M ServiceState CommandResult :=
  let execOptions := exec_options connection options in
  command' <-
    (if is_sudo_command command then
       password <-
         (if truthy_opt (cfg_password (conn_config connection))
          then ret (cfg_password (conn_config connection))
          else savedCredentials <- getCredentials (conn_id connection) ;;
               ret (cred_password savedCredentials)) ;;
       if truthy_opt password
       then ret (sudo_rewrite (default [] password) command)
       else ret command
     else ret command) ;;
  result <- execCommand client command' execOptions ;;
  (if startsWith (trim command') (js "cd ") then
     dir <- getCurrentDirectory connectionId ;;
     modify (set_connections
               (alter (fun c => with_currentDirectory c (Some dir)) connectionId))
   else ret tt) ;;;
  (if is_type docker_exec parsedCommand then
     match pc_dockerCommands parsedCommand with
     | dockerCmd :: _ => record_docker_context dockerCmd connectionId
     | [] => ret tt
     end
   else ret tt) ;;;
  ret {| stdout := stdout result; stderr := stderr result; code := code result |}.

(** The [try] block of [executeCommand]; [self] is the method itself, for
    the call on the command wrapped for the active container. *)
Definition executeCommand_try
    (self : jsstring -> jsstring -> ExecOptions -> M ServiceState CommandResult)
    (connectionId : jsstring) (connection : SSHConnection) (client : nat)
    (command : jsstring) (options : ExecOptions)
  : M ServiceState CommandResult :=
  st <- get ;;
  let parsedCommand := parseCommand command in
  if default false (pc_needsContainerContext parsedCommand)
  then executeDockerContextCommand connectionId parsedCommand options
  else
    let activeContainer :=
      getActiveContainer connectionId (containerSessions st) in
    if truthy_opt activeContainer && is_type regular parsedCommand
    then
      let container := default [] activeContainer in
      let containerSession :=
        getContainerContext connectionId container (containerSessions st) in
      let containerCommand :=
        buildContainerExecCommand container command containerSession false in
      self connectionId containerCommand options
    else
      execute_plain connectionId connection client parsedCommand command options.

(** The [catch] block of [executeCommand]. *)
Definition executeCommand_catch (message : jsstring)
  : M ServiceState CommandResult :=
  ret {| stdout := []; stderr := message; code := Some 1%Z |}.

(** [SSHService.executeCommand]. The method calls itself on the command it
    wrapped for the active container; [fuel] bounds the depth of these
    calls. *)
Fixpoint executeCommand (fuel : nat) (connectionId command : jsstring)
    (options : ExecOptions) : M ServiceState CommandResult :=
  match fuel with
  | O => fun st => (OutOfFuel, st)
  | S fuel' =>
    st <- get ;;
    match live_connection connectionId st with
    | None => throw (not_connected_message connectionId)
    | Some (connection, client) =>
      try_catch
        (executeCommand_try (executeCommand fuel') connectionId connection
           client command options)
        executeCommand_catch
    end
  end.

(** *** Connecting *)

(** [`${config.username}@${config.host}:${config.port || 22}`], hashed. *)
Definition generateConnectionId (config : SSHConnectionConfig) : jsstring :=
  md5hex (cfg_username config ++ js "@" ++ cfg_host config ++ js ":"
          ++ Z_to_js (if truthy_num (cfg_port config)
                      then default 0%Z (cfg_port config) else 22%Z)).

Definition opt_or {A : Type} (a b : option A) : option A :=
  match a with Some _ => a | None => b end.

(** One optional property of [{...old, ...config}]: the one of [config]
    when [config] owns it, be it with the value [undefined], the one of
    [old] otherwise. *)
Definition spread {A : Type} (key : config_key)
    (property : SSHConnectionConfig -> option A)
    (old config : SSHConnectionConfig) : option A :=
  match property config with
  | Some value => Some value
  | None =>
    if bool_decide (key ∈ cfg_undefined config) then None else property old
  end.

(** [{...old, ...config}] *)
Definition merge_config (old config : SSHConnectionConfig) : SSHConnectionConfig :=
  {| cfg_host := cfg_host config;
     cfg_port := spread key_port cfg_port old config;
     cfg_username := cfg_username config;
     cfg_password := spread key_password cfg_password old config;
     cfg_privateKey := spread key_privateKey cfg_privateKey old config;
     cfg_passphrase := spread key_passphrase cfg_passphrase old config;
     cfg_keepaliveInterval :=
       spread key_keepaliveInterval cfg_keepaliveInterval old config;
     cfg_readyTimeout := spread key_readyTimeout cfg_readyTimeout old config;
     cfg_reconnect := spread key_reconnect cfg_reconnect old config;
     cfg_reconnectTries :=
       spread key_reconnectTries cfg_reconnectTries old config;
     cfg_reconnectDelay :=
       spread key_reconnectDelay cfg_reconnectDelay old config;
     cfg_undefined := cfg_undefined config ++ cfg_undefined old |}.

Definition with_secrets (config : SSHConnectionConfig)
    (password passphrase : option jsstring) : SSHConnectionConfig :=
  {| cfg_host := cfg_host config;
     cfg_port := cfg_port config;
     cfg_username := cfg_username config;
     cfg_password := password;
     cfg_privateKey := cfg_privateKey config;
     cfg_passphrase := passphrase;
     cfg_keepaliveInterval := cfg_keepaliveInterval config;
     cfg_readyTimeout := cfg_readyTimeout config;
     cfg_reconnect := cfg_reconnect config;
     cfg_reconnectTries := cfg_reconnectTries config;
     cfg_reconnectDelay := cfg_reconnectDelay config;
     cfg_undefined := cfg_undefined config |}.

Definition update_connection (connectionId : jsstring)
    (f : SSHConnection -> SSHConnection) : M ServiceState unit :=
  modify (set_connections (alter f connectionId)).

Definition saveCredentials (id : jsstring) (password passphrase : option jsstring)
  : M ServiceState unit :=
  if isDocker then
    modify (set_credentialStore
              (insert id {| cred_password := password;
                            cred_passphrase := passphrase |}))
  else
    modify (set_credentialStore (fun store =>
      let old := default {| cred_password := None; cred_passphrase := None |}
                   (store !! id) in
      if truthy_opt password || truthy_opt passphrase then
        <[id := {| cred_password :=
                     if truthy_opt password then password else cred_password old;
                   cred_passphrase :=
                     if truthy_opt passphrase then passphrase
                     else cred_passphrase old |}]> store
      else store)).

Definition saveConnection (connection : SSHConnection) : M ServiceState unit :=
  st <- get ;;
  modify (set_connectionCollection
            (insert (conn_id connection)
               {| sv_name := conn_name connection;
                  sv_host := cfg_host (conn_config connection);
                  sv_port := cfg_port (conn_config connection);
                  sv_username := cfg_username (conn_config connection);
                  sv_privateKey := cfg_privateKey (conn_config connection);
                  sv_lastUsed := default (clock (history st)) (conn_lastUsed connection);
                  sv_tags := default [] (conn_tags connection) |})).

Definition connect_options (config : SSHConnectionConfig) : ConnectOptions :=
  {| co_host := cfg_host config;
     co_port := if truthy_num (cfg_port config)
                then default 0%Z (cfg_port config) else DEFAULT_SSH_PORT;
     co_username := cfg_username config;
     co_password := cfg_password config;
     co_privateKey := cfg_privateKey config;
     co_passphrase := cfg_passphrase config;
     co_keepaliveInterval :=
       if truthy_num (cfg_keepaliveInterval config)
       then default 0%Z (cfg_keepaliveInterval config) else 60000%Z;
     co_readyTimeout :=
       if truthy_num (cfg_readyTimeout config)
       then default 0%Z (cfg_readyTimeout config) else CONNECTION_TIMEOUT |}.

(** [ssh.connect(connectOptions)] on a fresh client. *)
Definition new_transport (opts : ConnectOptions) : M ServiceState nat :=
  fun st =>
    let '(client, st1) := take_handle st in
    let st2 := log_io (IoConnect client opts) st1 in
    match ssh_connect (history st1) opts with
    | None => (Ret client, st2)
    | Some message => (Throw message, st2)
    end.

(** [scheduleReconnect]: the status change; the timers it starts are left
    to the event loop and recorded as an event. *)
Definition scheduleReconnect (connectionId : jsstring) : M ServiceState unit :=
  st <- get ;;
  match connections st !! connectionId with
  | None => ret tt
  | Some _ =>
    update_connection connectionId (fun c =>
      {| conn_id := conn_id c; conn_name := conn_name c;
         conn_config := conn_config c; conn_status := RECONNECTING;
         conn_lastUsed := conn_lastUsed c; conn_lastError := conn_lastError c;
         conn_client := conn_client c; conn_tags := conn_tags c;
         conn_currentDirectory := conn_currentDirectory c |}) ;;;
    modify (log_io (IoScheduleReconnect connectionId))
  end.

(** [connect], on a service that is ready (its database is loaded, so that
    [ensureReady] returns at once). *)
Definition connect (config : SSHConnectionConfig) (name : option jsstring)
    (rememberPassword : bool) (tags : option (list jsstring))
  : M ServiceState SSHConnection :=
  st <- get ;;
  let connectionId := generateConnectionId config in
  let existing := connections st !! connectionId in
  match live_connection connectionId st with
  | Some (connection, _) => ret connection
  | None =>
    (match existing with
     | Some connection =>
       update_connection connectionId (fun c =>
         {| conn_id := conn_id c;
            conn_name := if truthy_opt name then name else conn_name c;
            conn_config := merge_config (conn_config c) config;
            conn_status := CONNECTING;
            conn_lastUsed := conn_lastUsed c; conn_lastError := conn_lastError c;
            conn_client := conn_client c;
            conn_tags := opt_or tags (conn_tags c);
            conn_currentDirectory := conn_currentDirectory c |})
     | None =>
       modify (set_connections
         (insert connectionId
            {| conn_id := connectionId;
               conn_name :=
                 if truthy_opt name then name
                 else Some (cfg_username config ++ js "@" ++ cfg_host config);
               conn_config := config;
               conn_status := CONNECTING;
               conn_lastUsed := Some (clock (history st));
               conn_lastError := None; conn_client := None;
               conn_tags := tags; conn_currentDirectory := None |}))
     end) ;;;
    try_catch
      (config1 <-
         (if negb (truthy_opt (cfg_password config))
             && negb (truthy_opt (cfg_privateKey config))
          then
            savedCredentials <- getCredentials connectionId ;;
            let config1 :=
              with_secrets config
                (if truthy_opt (cred_password savedCredentials)
                 then cred_password savedCredentials else cfg_password config)
                (if truthy_opt (cred_passphrase savedCredentials)
                 then cred_passphrase savedCredentials else cfg_passphrase config) in
            (* a new connection holds this very [config] object *)
            (match existing with
             | None => update_connection connectionId (fun c =>
                 {| conn_id := conn_id c; conn_name := conn_name c;
                    conn_config := config1; conn_status := conn_status c;
                    conn_lastUsed := conn_lastUsed c;
                    conn_lastError := conn_lastError c;
                    conn_client := conn_client c; conn_tags := conn_tags c;
                    conn_currentDirectory := conn_currentDirectory c |})
             | Some _ => ret tt
             end) ;;;
            ret config1
          else ret config) ;;
       ssh <- new_transport (connect_options config1) ;;
       st1 <- get ;;
       update_connection connectionId (fun c =>
         {| conn_id := conn_id c; conn_name := conn_name c;
            conn_config := conn_config c; conn_status := CONNECTED;
            conn_lastUsed := Some (clock (history st1));
            conn_lastError := None;
            conn_client := Some ssh; conn_tags := conn_tags c;
            conn_currentDirectory := conn_currentDirectory c |}) ;;;
       dir <- getCurrentDirectory connectionId ;;
       update_connection connectionId (fun c => with_currentDirectory c (Some dir)) ;;;
       (if rememberPassword
        then saveCredentials connectionId (cfg_password config1) (cfg_passphrase config1)
        else ret tt) ;;;
       st2 <- get ;;
       match connections st2 !! connectionId with
       | Some connection => saveConnection connection ;;; ret connection
       | None => throw (js "TypeError")
       end)
      (fun message =>
         update_connection connectionId (fun c =>
           {| conn_id := conn_id c; conn_name := conn_name c;
              conn_config := conn_config c; conn_status := ERROR;
              conn_lastUsed := conn_lastUsed c;
              conn_lastError := Some message;
              conn_client := conn_client c; conn_tags := conn_tags c;
              conn_currentDirectory := conn_currentDirectory c |}) ;;;
         (if default false (cfg_reconnect config)
             && truthy_num (cfg_reconnectTries config)
             && (0 <? default 0 (cfg_reconnectTries config))%Z
          then scheduleReconnect connectionId else ret tt) ;;;
         throw message)
  end.

(** *** Tunnels *)

(** [Array.from(this.tunnels.values()).find(t => t.config.localPort ===
    localPort && t.isActive)] finds a tunnel. *)
Definition tunnel_port_taken (localPort : Z) (st : ServiceState) : bool :=
  existsb (fun kv => (tc_localPort (tn_config (snd kv)) =? localPort)%Z
                     && tn_isActive (snd kv))
    (map_to_list (tunnels st)).

Definition with_tunnel_id (config : TunnelConfig) (tunnelId : jsstring)
  : TunnelConfig :=
  {| tc_id := Some tunnelId;
     tc_connectionId := tc_connectionId config;
     tc_localPort := tc_localPort config;
     tc_remoteHost := tc_remoteHost config;
     tc_remotePort := tc_remotePort config;
     tc_description := tc_description config |}.

Definition without_listeners (s : Socket) : Socket :=
  {| sk_tunnel := sk_tunnel s; sk_listeners := []; sk_stream := sk_stream s |}.

(** [socket.removeAllListeners(); socket.destroy()] *)
Definition destroy_socket (st : ServiceState) (socket : nat) : ServiceState :=
  log_io (IoSocketDestroy socket)
    (log_io (IoSocketRemoveAllListeners socket)
       (set_sockets (alter without_listeners socket) st)).

(** [closeTunnel] on the record it found, up to the [await] on the server's
    [close]: all of this runs in one go. *)
Definition closeTunnel_begin (tunnel : Tunnel) (tunnelId : jsstring)
  : M ServiceState unit :=
  modify (fun st => foldl destroy_socket st (tn_connections tunnel)) ;;;
  modify (set_tunnels (alter (fun t =>
    {| tn_config := tn_config t; tn_server := tn_server t;
       tn_connections := []; tn_isActive := tn_isActive t |}) tunnelId)) ;;;
  match tn_server tunnel with
  | Some server =>
    modify (fun st => log_io (IoServerClose server)
                        (log_io (IoServerRemoveAllListeners server) st))
  | None => ret tt
  end.

(** [closeTunnel] from the moment the server has reported that it closed. *)
Definition closeTunnel_finish (tunnelId : jsstring) : M ServiceState bool :=
  modify (set_tunnels (alter (fun t =>
    {| tn_config := tn_config t; tn_server := tn_server t;
       tn_connections := tn_connections t; tn_isActive := false |}) tunnelId)) ;;;
  modify (set_tunnels (delete tunnelId)) ;;;
  ret true.

(** [closeTunnel], awaited: nothing else happens between its two halves. *)
Definition closeTunnel (tunnelId : jsstring) : M ServiceState bool :=
  st <- get ;;
  match tunnels st !! tunnelId with
  | None => ret false
  | Some tunnel =>
    closeTunnel_begin tunnel tunnelId ;;;
    closeTunnel_finish tunnelId
  end.

(** [this.closeTunnel(tunnelId).catch(() => {})], not awaited: what the call
    has done when its caller goes on. With a server in the record that is
    the part before the [await]; the rest follows when the server has
    reported that it closed ([closeTunnel_finish]). Without a server there
    is no [await] and the call runs to its end. *)
Definition closeTunnel_unawaited (tunnelId : jsstring) : M ServiceState unit :=
  st <- get ;;
  match tunnels st !! tunnelId with
  | None => ret tt
  | Some tunnel =>
    closeTunnel_begin tunnel tunnelId ;;;
    match tn_server tunnel with
    | Some _ => ret tt
    | None => closeTunnel_finish tunnelId ;;; ret tt
    end
  end.

(** [server.listen(port, '127.0.0.1', callback)] with its [error] event. *)
Definition listen (server : nat) (tunnelId : jsstring) (port : Z)
  : M ServiceState unit :=
  fun st =>
    let st1 := log_io (IoListen server port) st in
    match tcp_listen (history st) port with
    | None =>
      (Ret tt,
       set_tunnels (alter (fun t =>
         {| tn_config := tn_config t; tn_server := tn_server t;
            tn_connections := tn_connections t; tn_isActive := true |}) tunnelId) st1)
    | Some message => (Throw message, st1)
    end.

(** [createTunnel]. The clean-up after a failed [listen] is started without
    being awaited: the error is thrown when that call has reached its
    [await]. *)
Definition createTunnel (config : TunnelConfig) : M ServiceState jsstring :=
  st <- get ;;
  match live_connection (tc_connectionId config) st with
  | None => throw (not_connected_message (tc_connectionId config))
  | Some _ =>
    let tunnelId :=
      if truthy_opt (tc_id config) then default [] (tc_id config)
      else md5hex (tc_connectionId config ++ js ":" ++ Z_to_js (tc_localPort config)
                   ++ js ":" ++ tc_remoteHost config ++ js ":"
                   ++ Z_to_js (tc_remotePort config) ++ js ":"
                   ++ Z_to_js (clock (history st))) in
    if tunnel_port_taken (tc_localPort config) st
    then throw (js "本地端口 " ++ Z_to_js (tc_localPort config)
                ++ js " 已被另一个隧道使用")
    else
      try_catch
        (server <- (fun st => let '(h, st') := take_handle st in (Ret h, st')) ;;
         modify (set_tunnels (insert tunnelId
           {| tn_config := with_tunnel_id config tunnelId;
              tn_server := Some server;
              tn_connections := [];
              tn_isActive := false |})) ;;;
         listen server tunnelId (tc_localPort config) ;;;
         ret tunnelId)
        (fun message => closeTunnel_unawaited tunnelId ;;; throw message)
  end.









Definition getTunnels (st : ServiceState) : list TunnelConfig :=
  tn_config <$> filter (fun t => tn_isActive t = true)
                  (snd <$> map_to_list (tunnels st)).





(** *** File transfers *)

(** The numbers of a transfer's progress. A binary64 that is not negative
    is kept as the whole number of units of 2^-1074 it is made of: every
    finite binary64 is such a multiple. Byte counts and sizes are integers
    below 2^53, which binary64 holds exactly. *)
Definition binary64_unit : Z := (2 ^ 1074)%Z.

(** The integer nearest to [num / den], a tie going to the even one. *)
Definition round_nearest_even (num den : Z) : Z :=
  let q := (num / den)%Z in
  let r := (num mod den)%Z in
  if (2 * r <? den)%Z then q
  else if (den <? 2 * r)%Z then (q + 1)%Z
  else if Z.even q then q else (q + 1)%Z.

(** The binary64 nearest to [num / den] units: 53 significant bits, on the
    grid of the units for the smallest. *)
Definition binary64_round (num den : Z) : Z :=
  let e := Z.max (Z.log2 (num / den) - 52) 0 in
  (round_nearest_even num (den * 2 ^ e) * 2 ^ e)%Z.

(** [a / b] on integers, [x * k] for an integer [k], and [Math.round]. *)
Definition binary64_div (a b : Z) : Z := binary64_round (a * binary64_unit) b.
Definition binary64_mul (x k : Z) : Z := binary64_round (x * k) 1.
Definition Math_round (x : Z) : Z :=
  ((2 * x + binary64_unit) / (2 * binary64_unit))%Z.

(** [Math.min(100, Math.round((bytesTransferred / stats.size) * 100))];
    [None] is NaN, the value of [0 / 0]; a positive count over the size 0
    is [Infinity], capped at 100. *)
Definition transfer_progress (bytesTransferred size : Z) : option Z :=
  if (size =? 0)%Z
  then (if (bytesTransferred =? 0)%Z then None else Some 100%Z)
  else Some (Z.min 100
               (Math_round (binary64_mul (binary64_div bytesTransferred size) 100))).

Inductive TransferDirection := upload | download.
Inductive TransferStatus := pending | in_progress | completed | failed.

Record FileTransferInfo := {
  ft_id : jsstring;
  ft_localPath : jsstring;
  ft_remotePath : jsstring;
  ft_direction : TransferDirection;
  ft_status : TransferStatus;
  ft_progress : option Z;
  ft_size : Z;
  ft_bytesTransferred : Z;
  ft_error : option jsstring;
  ft_startTime : Z;
  ft_endTime : option Z
}.

(** What the two streams of a transfer report, with the time of the
    report: a chunk read (its length), an error of the read or of the write
    stream, the close of the write stream. *)
Inductive stream_event :=
| DataEvent (chunkLength : Z)
| ReadErrorEvent (message : jsstring) (now : Z)
| WriteErrorEvent (message : jsstring) (now : Z)
| CloseEvent (now : Z).

(** The record of a transfer and the handlers' own count of the bytes. *)
Record TransferRun := {
  run_info : FileTransferInfo;
  run_bytesTransferred : Z
}.

Definition transfer_update (info : FileTransferInfo) (status : TransferStatus)
    (progress : option Z) (bytesTransferred : Z) (error : option jsstring)
    (endTime : option Z) : FileTransferInfo :=
  {| ft_id := ft_id info; ft_localPath := ft_localPath info;
     ft_remotePath := ft_remotePath info; ft_direction := ft_direction info;
     ft_status := status; ft_progress := progress; ft_size := ft_size info;
     ft_bytesTransferred := bytesTransferred; ft_error := error;
     ft_startTime := ft_startTime info; ft_endTime := endTime |}.

Definition transfer_failed (info : FileTransferInfo) (message : jsstring)
    (now : Z) : FileTransferInfo :=
  transfer_update info failed (ft_progress info) (ft_bytesTransferred info)
    (Some message) (Some now).

(** The handlers of [data], [error] and [close]. *)
Definition on_stream_event (ev : stream_event) (run : TransferRun) : TransferRun :=
  let info := run_info run in
  match ev with
  | DataEvent chunkLength =>
    let bytesTransferred := (run_bytesTransferred run + chunkLength)%Z in
    {| run_info :=
         transfer_update info (ft_status info)
           (transfer_progress bytesTransferred (ft_size info))
           bytesTransferred (ft_error info) (ft_endTime info);
       run_bytesTransferred := bytesTransferred |}
  | ReadErrorEvent message now | WriteErrorEvent message now =>
    {| run_info := transfer_failed info message now;
       run_bytesTransferred := run_bytesTransferred run |}
  | CloseEvent now =>
    {| run_info :=
         transfer_update info completed (Some 100%Z) (ft_size info)
           (ft_error info) (Some now);
       run_bytesTransferred := run_bytesTransferred run |}
  end.

(** How an event settles the promise the transfer waits for: [Some None]
    resolves it, [Some (Some message)] rejects it. *)
Definition settles (ev : stream_event) : option (option jsstring) :=
  match ev with
  | DataEvent _ => None
  | ReadErrorEvent message _ | WriteErrorEvent message _ => Some (Some message)
  | CloseEvent _ => Some None
  end.

(** The events up to the one that settles the promise, and how it does. *)
Fixpoint until_settled (events : list stream_event)
  : list stream_event * option (option jsstring) :=
  match events with
  | [] => ([], None)
  | ev :: rest =>
    match settles ev with
    | Some s => ([ev], Some s)
    | None => let '(taken, s) := until_settled rest in (ev :: taken, s)
    end
  end.

(** The states of a run, one after each event. *)
Fixpoint stream_points (run : TransferRun) (events : list stream_event)
  : list TransferRun :=
  match events with
  | [] => []
  | ev :: rest =>
    let run' := on_stream_event ev run in run' :: stream_points run' rest
  end.

Definition run_stream (run : TransferRun) (events : list stream_event)
  : TransferRun :=
  foldl (fun run ev => on_stream_event ev run) run events.

(** The events that follow the one that settles the promise. *)
Definition after_settled (events : list stream_event) : list stream_event :=
  drop (length (fst (until_settled events))) events.

(** What the outside answers to one transfer: the time at its start, the
    local directory a download makes sure of ([Some message]: it cannot be
    made), the size of the source ([inl]: the stat fails,
    [inr (isFile, size)]), the SFTP session ([Some message]: refused), the
    events of the streams, all of them and in their order, how many of the
    events that follow the one that rejected the promise come before the
    [catch] block runs (the others come after the call has returned), and
    the time in the [catch] block. *)
Record TransferWorld := {
  tw_started : Z;
  tw_mkdir : option jsstring;
  tw_stat : jsstring + (bool * Z);
  tw_requestSFTP : option jsstring;
  tw_events : list stream_event;
  tw_before_catch : nat;
  tw_caught : Z
}.

(** The [catch] block of [uploadFile] and [downloadFile]. *)
Definition transfer_catch (transferId localPath remotePath : jsstring)
    (direction : TransferDirection) (message : jsstring) (now : Z)
  : M (gmap jsstring FileTransferInfo) FileTransferInfo :=
  fileTransfers <- get ;;
  match fileTransfers !! transferId with
  | Some transferInfo =>
    let transferInfo' := transfer_failed transferInfo message now in
    modify (insert transferId transferInfo') ;;;
    ret transferInfo'
  | None =>
    let failedTransfer :=
      {| ft_id := transferId; ft_localPath := localPath;
         ft_remotePath := remotePath; ft_direction := direction;
         ft_status := failed; ft_progress := Some 0%Z; ft_size := 0;
         ft_bytesTransferred := 0; ft_error := Some message;
         ft_startTime := now; ft_endTime := Some now |} in
    modify (insert transferId failedTransfer) ;;;
    ret failedTransfer
  end.

Definition pending_transfer (transferId localPath remotePath : jsstring)
    (direction : TransferDirection) (size now : Z) : FileTransferInfo :=
  {| ft_id := transferId; ft_localPath := localPath;
     ft_remotePath := remotePath; ft_direction := direction;
     ft_status := pending; ft_progress := Some 0%Z; ft_size := size;
     ft_bytesTransferred := 0; ft_error := None;
     ft_startTime := now; ft_endTime := None |}.

(** The record once the streams are set up. *)
Definition started_run (transferInfo : FileTransferInfo) : TransferRun :=
  {| run_info :=
       transfer_update transferInfo in_progress (ft_progress transferInfo)
         (ft_bytesTransferred transferInfo) (ft_error transferInfo)
         (ft_endTime transferInfo);
     run_bytesTransferred := 0 |}.

(** The handlers stay on the streams when the promise is settled: an event
    that comes later is still written to the record filed under the
    transfer's id, which is the object the call returns.
    [bytesTransferred] is the handlers' own count of the bytes. *)
Definition handle_events (transferId : jsstring) (bytesTransferred : Z)
    (events : list stream_event)
  : M (gmap jsstring FileTransferInfo) unit :=
  modify (alter (fun info =>
    run_info (run_stream {| run_info := info;
                            run_bytesTransferred := bytesTransferred |} events))
    transferId).

(** The promise around the streams, and what follows it. The record in the
    registry is the object the handlers write to. When the write stream's
    close resolves the promise, the call returns the record as the close
    left it. When an error rejects it, the [catch] block marks the record
    failed and returns it, after the events that came in between. In both
    cases the events still to come are written to the record after the call
    has returned: what is returned here is the record at the time of the
    return, and the registry is left as it is after the last event. When no
    event settles the promise the call stays pending, which [OutOfFuel]
    stands for here. *)
Definition stream_transfer (transferInfo : FileTransferInfo)
    (world : TransferWorld)
  : M (gmap jsstring FileTransferInfo) FileTransferInfo :=
  let '(events, settled) := until_settled (tw_events world) in
  let later := after_settled (tw_events world) in
  let run := run_stream (started_run transferInfo) events in
  modify (insert (ft_id transferInfo) (run_info run)) ;;;
  match settled with
  | Some None =>
    handle_events (ft_id transferInfo) (run_bytesTransferred run) later ;;;
    ret (run_info run)
  | Some (Some message) =>
    let between := take (tw_before_catch world) later in
    handle_events (ft_id transferInfo) (run_bytesTransferred run) between ;;;
    result <-
      transfer_catch (ft_id transferInfo) (ft_localPath transferInfo)
        (ft_remotePath transferInfo) (ft_direction transferInfo) message
        (tw_caught world) ;;
    handle_events (ft_id transferInfo)
      (run_bytesTransferred (run_stream run between))
      (drop (tw_before_catch world) later) ;;;
    ret result
  | None => fun fileTransfers => (OutOfFuel, fileTransfers)
  end.

Definition transfer_id (direction : TransferDirection)
    (connectionId source target : jsstring) (now : Z) : jsstring :=
  md5hex ((match direction with upload => js "upload:" | download => js "download:" end)
          ++ connectionId ++ js ":" ++ source ++ js ":" ++ target ++ js ":"
          ++ Z_to_js now).

Definition uploadFile (connectionId localPath remotePath : jsstring)
    (world : TransferWorld) (st : ServiceState)
  : M (gmap jsstring FileTransferInfo) FileTransferInfo :=
  match live_connection connectionId st with
  | None => throw (not_connected_message connectionId)
  | Some _ =>
    let transferId :=
      transfer_id upload connectionId localPath remotePath (tw_started world) in
    let catch message :=
      transfer_catch transferId localPath remotePath upload message
        (tw_caught world) in
    match tw_stat world with
    | inl message => catch message
    | inr (isFile, size) =>
      if negb isFile
      then catch (js "本地路径 " ++ localPath ++ js " 不是一个文件")
      else
        let transferInfo :=
          pending_transfer transferId localPath remotePath upload size
            (tw_started world) in
        modify (insert transferId transferInfo) ;;;
        match tw_requestSFTP world with
        | Some message => catch message
        | None => stream_transfer transferInfo world
        end
    end
  end.

Definition downloadFile (connectionId remotePath localPath : jsstring)
    (world : TransferWorld) (st : ServiceState)
  : M (gmap jsstring FileTransferInfo) FileTransferInfo :=
  match live_connection connectionId st with
  | None => throw (not_connected_message connectionId)
  | Some _ =>
    let transferId :=
      transfer_id download connectionId remotePath localPath (tw_started world) in
    let catch message :=
      transfer_catch transferId localPath remotePath download message
        (tw_caught world) in
    match tw_mkdir world with
    | Some message => catch message
    | None =>
      match tw_requestSFTP world with
      | Some message => catch message
      | None =>
        match tw_stat world with
        | inl message => catch message
        | inr (_, size) =>
          let transferInfo :=
            pending_transfer transferId localPath remotePath download size
              (tw_started world) in
          modify (insert transferId transferInfo) ;;;
          stream_transfer transferInfo world
        end
      end
    end
  end.

(** ** The tool dispatcher (SshMCP) *)

(** [limitOutputLength(text, maxLength, targetLength)] *)
Definition omittedMessage (omittedLength : Z) : jsstring :=
  [nl; nl] ++ js "... 已省略 " ++ Z_to_js omittedLength ++ js " 个字符 ..." ++ [nl]
  ++ js "如需查看完整输出，可添加以下参数：" ++ [nl]
  ++ js "- 使用 > output.txt 将输出保存到文件" ++ [nl]
  ++ js "- 使用 | head -n 数字 查看前几行" ++ [nl]
  ++ js "- 使用 | tail -n 数字 查看后几行" ++ [nl]
  ++ js "- 使用 | grep " ++ [dq] ++ js "关键词" ++ [dq]
  ++ js " 过滤包含特定内容的行" ++ [nl; nl].

Definition limitOutputLength_with (text : jsstring) (maxLength targetLength : Z)
  : jsstring :=
  if (Z.of_nat (length text) <=? maxLength)%Z then text
  else
    let halfTargetLength := (targetLength / 2)%Z in
    let prefix := substring 0 (Z.to_nat halfTargetLength) text in
    let suffix := drop (Z.to_nat (Z.of_nat (length text) - halfTargetLength)) text in
    let omittedLength := (Z.of_nat (length text) - targetLength)%Z in
    prefix ++ omittedMessage omittedLength ++ suffix.

(** The call with the default [maxLength = 10000] and [targetLength = 6000]. *)
Definition limitOutputLength (text : jsstring) : jsstring :=
  limitOutputLength_with text 10000 6000.

Record ToolResult := {
  tr_text : jsstring;
  tr_isError : bool
}.

(** The dispatcher's state: the service it owns, its own record of when a
    connection was last active, and, for the statements below, the calls it
    made to [sshService.executeCommand]. *)
Record McpState := {
  sshService : ServiceState;
  activeConnections : gmap (list N) Z;
  service_calls : list (jsstring * jsstring * ExecOptions)
}.

Definition quote_class (c : code_unit) : bool := ((c =? 34) || (c =? 39))%N.
Definition rquote_opt : regex := ropt (RChar quote_class).
Definition rsession : regex :=
  RGroup 1 (rplus (RChar (fun c => negb (quote_class c) && negb (is_space c)))).

(** The patterns of the [executeCommand] tool, all with the [i] flag:
    [tmux \s+ send-keys \s+ (?: -t \s+ )? QUOTE? ( NOT-QUOTE-OR-SPACE+ ) QUOTE?
     \s+ QUOTE? ( .+? ) QUOTE? \s+ (?: Enter | C-m )] and its four siblings. *)
Definition tmuxSendKeysRegex : regex :=
  rseq [rlit_ci (js "tmux"); rplus rspace; rlit_ci (js "send-keys"); rplus rspace;
        ropt (RSeq (rlit_ci (js "-t")) (rplus rspace));
        rquote_opt; rsession; rquote_opt; rplus rspace; rquote_opt;
        RGroup 2 (rplus_lazy rdot); rquote_opt; rplus rspace;
        RAlt (rlit_ci (js "Enter")) (rlit_ci (js "C-m"))].

Definition tmux_target_regex (subcommand : jsstring) : regex :=
  rseq [rlit_ci (js "tmux"); rplus rspace; rlit_ci subcommand; rplus rspace;
        RSeq (rlit_ci (js "-t")) (rplus rspace);
        rquote_opt; rsession; rquote_opt].

Definition tmuxCaptureRegex : regex := tmux_target_regex (js "capture-pane").
Definition tmuxKillSessionRegex : regex := tmux_target_regex (js "kill-session").
Definition tmuxHasSessionRegex : regex := tmux_target_regex (js "has-session").

Definition tmuxNewSessionRegex : regex :=
  rseq [rlit_ci (js "tmux"); rplus rspace; rlit_ci (js "new-session"); rplus rspace;
        rplus (rseq [rchar 45; RChar (fun c => eq_ci 100 c || eq_ci 115 c);
                     rplus rspace]);
        RSeq (rlit_ci (js "-s")) (rplus rspace);
        rquote_opt; rsession; rquote_opt].

(** [/^(vim|nano|less|more|top|htop|man)$/] *)
Definition INTERACTIVE_PROGRAM : regex :=
  rseq [RBol;
        RGroup 1 (RAlt (rlit (js "vim")) (RAlt (rlit (js "nano"))
                 (RAlt (rlit (js "less")) (RAlt (rlit (js "more"))
                 (RAlt (rlit (js "top")) (RAlt (rlit (js "htop"))
                                               (rlit (js "man"))))))));
        REol].

Definition isTmuxCommand (command : jsstring) : bool :=
  regex_test tmuxSendKeysRegex command || regex_test tmuxCaptureRegex command
  || regex_test tmuxNewSessionRegex command
  || regex_test tmuxKillSessionRegex command
  || regex_test tmuxHasSessionRegex command.

Definition listPanesCommand (sessionName : jsstring) : jsstring :=
  js "tmux list-panes -t " ++ sessionName ++ js " -F " ++ [dq]
  ++ js "#{pane_pid} #{pane_current_command}" ++ [dq].
Definition processStateCommand (panePid : jsstring) : jsstring :=
  js "ps -o state= -p " ++ panePid.
Definition childrenCommand (panePid : jsstring) : jsstring :=
  js "pgrep -P " ++ panePid.
Definition processInfoCommand (panePid : jsstring) : jsstring :=
  js "ps -o pid,ppid,stat,time,command -p " ++ panePid.
Definition paneContextCommand (sessionName : jsstring) : jsstring :=
  js "tmux capture-pane -p -t " ++ sessionName ++ js " -S -10".

Definition blockedMessage (sessionName panePid context processInfo : jsstring)
  : jsstring :=
  js "警告: tmux会话 " ++ [dq] ++ sessionName ++ [dq] ++ js " 当前有阻塞进程:" ++ [nl; nl]
  ++ js "当前会话上下文:" ++ [nl] ++ context ++ [nl; nl]
  ++ js "进程信息:" ++ [nl] ++ processInfo ++ [nl; nl]
  ++ js "建议操作:" ++ [nl]
  ++ js "1. 如果是交互式程序(vim/nano等), 请先正常退出" ++ [nl]
  ++ js "2. 如果是后台任务, 可以:" ++ [nl]
  ++ js "   - 等待任务完成（执行 sleep <seconds> 命令进行等待）" ++ [nl]
  ++ js "   - 使用 Ctrl+C (tmux send-keys -t " ++ sessionName ++ js " C-c)" ++ [nl]
  ++ js "   - 使用 kill -TERM " ++ panePid ++ js " 终止进程" ++ [nl; nl]
  ++ js "为避免命令冲突, 本次操作已取消。如果确定要强制执行,请添加 force: true 参数。".

(** [processState === 'D' || processState === 'T' || processState === 'W'] *)
Definition blocked_state (processState : jsstring) : bool :=
  jseqb processState (js "D") || jseqb processState (js "T")
  || jseqb processState (js "W").

Definition code_to_js (c : option Z) : jsstring :=
  match c with Some z => Z_to_js z | None => js "null" end.

(** The text the handler builds from the result, up to the prompt line. *)
Definition render_output (connection : SSHConnection) (result : CommandResult)
  : jsstring :=
  let currentDir := or_else (conn_currentDirectory connection) (js "~") in
  let promptPrefix :=
    js "[" ++ cfg_username (conn_config connection) ++ js "@"
    ++ cfg_host (conn_config connection) in
  let output1 := if truthy (stdout result) then stdout result else [] in
  let output2 :=
    if truthy (stderr result)
    then (if truthy output1 then output1 ++ [nl] else output1)
         ++ js "错误输出:" ++ [nl] ++ stderr result
    else output1 in
  let output3 :=
    if negb (bool_decide (code result = Some 0%Z))
    then output2 ++ [nl] ++ js "命令退出码: " ++ code_to_js (code result)
    else output2 in
  let output4 := if truthy output3 then output3 ++ [nl] else output3 in
  output4 ++ [nl] ++ promptPrefix ++ js " " ++ currentDir ++ js "]$ ".

Section Dispatcher.

(** The depth allowed to the service's calls to itself. *)
Variable fuel : nat.

(** The block that enriches the output of a tmux command (the handler's
    lines after the prompt is appended). Its guard asks for an output that
    is empty or blank, and is stated as in the source; the block itself is
    left open. *)
Variable tmux_enrichment :
  jsstring -> jsstring -> option jsstring -> CommandResult -> jsstring ->
  M McpState jsstring.

(** [await this.sshService.executeCommand(connectionId, command, options)] *)
Definition call_executeCommand (connectionId command : jsstring)
    (options : ExecOptions) : M McpState CommandResult :=
  fun ms =>
    let '(r, st') := executeCommand fuel connectionId command options (sshService ms) in
    (r, {| sshService := st';
           activeConnections := activeConnections ms;
           service_calls := service_calls ms ++ [(connectionId, command, options)] |}).

Definition touch_active (connectionId : jsstring) : M McpState unit :=
  modify (fun ms =>
    {| sshService := sshService ms;
       activeConnections :=
         <[connectionId := clock (history (sshService ms))]> (activeConnections ms);
       service_calls := service_calls ms |}).

(** The third operand of [isBlocked]: the pane process has a child. *)
Definition has_children (connectionId panePid : jsstring) : M McpState bool :=
  children <- call_executeCommand connectionId (childrenCommand panePid)
                {| cwd := None; timeout := Some 3000%Z |} ;;
  ret (truthy (trim (stdout children))).

(** The blocked check of a [tmux send-keys] command: the result to return
    when the pane is blocked. *)
Definition tmux_blocked_check (connectionId sessionName : jsstring)
    (cwd : option jsstring) : M McpState (option ToolResult) :=
  try_catch
    (checkResult <- call_executeCommand connectionId (listPanesCommand sessionName)
                      {| cwd := cwd; timeout := Some 5000%Z |} ;;
     if truthy (stdout checkResult) then
       let parts := split_on 32 (trim (stdout checkResult)) in
       let panePid := default [] (parts !! 0) in
       let currentCommand := default (js "undefined") (parts !! 1) in
       if truthy panePid then
         processResult <- call_executeCommand connectionId
                            (processStateCommand panePid)
                            {| cwd := None; timeout := Some 3000%Z |} ;;
         let processState := trim (stdout processResult) in
         isBlocked <-
           (if blocked_state processState then ret true
            else if regex_test INTERACTIVE_PROGRAM currentCommand then ret true
            else has_children connectionId panePid) ;;
         if isBlocked : bool then
           processInfo <- call_executeCommand connectionId
                            (processInfoCommand panePid)
                            {| cwd := None; timeout := Some 3000%Z |} ;;
           contextOutput <- call_executeCommand connectionId
                              (paneContextCommand sessionName)
                              {| cwd := None; timeout := Some 3000%Z |} ;;
           ret (Some {| tr_text := blockedMessage sessionName panePid
                                     (stdout contextOutput) (stdout processInfo);
                        tr_isError := true |})
         else ret None
       else ret None
     else ret None)
    (fun _ => ret None).

(** The handler of the [executeCommand] tool. *)
Definition executeCommandTool (connectionId command : jsstring)
    (cwd : option jsstring) (timeout : option Z) (force : option bool)
  : M McpState ToolResult :=
  try_catch
    (ms <- get ;;
     match connections (sshService ms) !! connectionId with
     | None =>
       ret {| tr_text := js "错误: 连接 " ++ connectionId ++ js " 不存在";
              tr_isError := true |}
     | Some connection =>
       if negb (is_CONNECTED (conn_status connection)) then
         ret {| tr_text := js "错误: 连接 "
                           ++ or_else (conn_name connection) connectionId
                           ++ js " 未连接";
                tr_isError := true |}
       else
         touch_active connectionId ;;;
         blocked <-
           (match regex_match_group tmuxSendKeysRegex 1 command with
            | Some sessionName =>
              if negb (default false force)
              then tmux_blocked_check connectionId
                     (default (js "undefined") sessionName) cwd
              else ret None
            | None => ret None
            end) ;;
         match blocked with
         | Some result => ret result
         | None =>
           result <- call_executeCommand connectionId command
                       {| cwd := cwd; timeout := timeout |} ;;
           ms1 <- get ;;
           (* [connection] is the registry's object: it shows what the
              execution did to it *)
           let connection1 :=
             default connection (connections (sshService ms1) !! connectionId) in
           let output := render_output connection1 result in
           output1 <-
             (if isTmuxCommand command
                 && bool_decide (code result = Some 0%Z)
                 && (negb (truthy output) || negb (truthy (trim output)))
              then try_catch
                     (tmux_enrichment connectionId command cwd result output)
                     (fun message =>
                        ret (js "tmux命令已执行，但无法获取额外信息: " ++ message))
              else ret output) ;;
           let output2 := limitOutputLength output1 in
           ret {| tr_text := if truthy output2 then output2
                             else js "命令执行成功，无输出";
                  tr_isError := false |}
         end
     end)
    (fun message =>
       ret {| tr_text := js "执行命令时出错: " ++ message; tr_isError := true |}).

End Dispatcher.


(** ** What a pattern matches

    [matches r p s p' s']: from the position with [p] before it and [s]
    ahead, pattern [r] can consume input up to the position with [p']
    before it and [s'] ahead. *)
Inductive matches : regex -> option N -> list N -> option N -> list N -> Prop :=
| m_empty p s : matches REmpty p s p s
| m_char f p c t : f c = true -> matches (RChar f) p (c :: t) (Some c) t
| m_seq r1 r2 p s p1 s1 p2 s2 :
    matches r1 p s p1 s1 -> matches r2 p1 s1 p2 s2 ->
    matches (RSeq r1 r2) p s p2 s2
| m_alt_l r1 r2 p s p' s' : matches r1 p s p' s' -> matches (RAlt r1 r2) p s p' s'
| m_alt_r r1 r2 p s p' s' : matches r2 p s p' s' -> matches (RAlt r1 r2) p s p' s'
| m_star_nil g r p s : matches (RStar g r) p s p s
| m_star_cons g r p s p1 s1 p2 s2 :
    matches r p s p1 s1 -> length s1 < length s ->
    matches (RStar g r) p1 s1 p2 s2 -> matches (RStar g r) p s p2 s2
| m_group n r p s p' s' : matches r p s p' s' -> matches (RGroup n r) p s p' s'
| m_wordb p s :
    xorb (is_word_opt p) (is_word_opt (head s)) = true -> matches RWordB p s p s
| m_bol s : matches RBol None s None s
| m_eol p : matches REol p [] p [].

(** The code unit before the position reached after [w]. *)
Definition prev_after (p : option N) (w : list N) : option N :=
  match last w with Some c => Some c | None => p end.

(** ** Notions the statements use *)

(** The segments of a compound line: the parts of the split, trimmed, the
    empty ones dropped. *)
Definition compound_segments (command : jsstring) : list jsstring :=
  filter (fun seg => truthy seg = true)
    (trim <$> regex_split COMPOUND_SEPARATORS command).

(** A segment the parser files under the docker exec commands: it matches
    the docker exec pattern and its options parse. *)
Definition docker_segment (seg : jsstring) : option DockerExecCommand :=
  if isDockerExecCommand seg then parseDockerExecCommand seg else None.

(** The specification's splitting, for comparison with the parser's: a
    line splits on the separators that stand outside single and double
    quotes. [quote] is the quote that is open, [cur] the reversed text of
    the segment being read. *)
Fixpoint spec_split_unquoted_from (quote : option N) (cur : jsstring)
    (s : jsstring) : list jsstring :=
  match s with
  | [] => [rev cur]
  | c :: t =>
    match quote with
    | Some q =>
      spec_split_unquoted_from (if (c =? q)%N then None else quote) (c :: cur) t
    | None =>
      if quote_class c then spec_split_unquoted_from (Some c) (c :: cur) t
      else if (c =? 59)%N then rev cur :: spec_split_unquoted_from None [] t
      else match t with
           | c' :: t' =>
             if ((c =? c') && ((c =? 38) || (c =? 124)))%N
             then rev cur :: spec_split_unquoted_from None [] t'
             else spec_split_unquoted_from None (c :: cur) t
           | [] => spec_split_unquoted_from None (c :: cur) t
           end
    end
  end.

Definition spec_split_unquoted (s : jsstring) : list jsstring :=
  spec_split_unquoted_from None [] s.

(** [erase_dir c]: a connection record without its current directory, the
    one field command execution writes. *)
Definition erase_dir (c : SSHConnection) : SSHConnection :=
  with_currentDirectory c None.

(** What command execution leaves alone: every connection record but for
    its current directory, the credentials, the saved connections and the
    tunnels; the history only grows. *)
Definition service_frame (st st' : ServiceState) : Prop :=
  (forall id, erase_dir <$> connections st' !! id = erase_dir <$> connections st !! id)
  /\ credentialStore st' = credentialStore st
  /\ connectionCollection st' = connectionCollection st
  /\ tunnels st' = tunnels st
  /\ exists events, history st' = history st ++ events.

Definition mcp_frame (ms ms' : McpState) : Prop :=
  service_frame (sshService ms) (sshService ms')
  /\ activeConnections ms' = activeConnections ms.

(** [m] moves every state to one related to it by [P]. *)
Definition preserves {S A : Type} (P : S -> S -> Prop) (m : M S A) : Prop :=
  forall st, P st (snd (m st)).

(** [m] never throws. *)
Definition no_throw {S A : Type} (m : M S A) : Prop :=
  forall st message, fst (m st) <> Throw message.

(** [m] ends within the fuel it is given. *)
Definition within_fuel {S A : Type} (m : M S A) : Prop :=
  forall st, fst (m st) <> OutOfFuel.

(** Whether a text, read from its start, goes through blanks, a word,
    blanks again, and reaches a second word. [phase] is 0 in the leading
    blanks, 1 in the first word, 2 in the blanks after it. *)
Fixpoint reaches_second_word (phase : nat) (s : jsstring) : bool :=
  match s with
  | [] => false
  | c :: t =>
    match phase with
    | 0 => reaches_second_word (if is_space c then 0 else 1) t
    | 1 => reaches_second_word (if is_space c then 2 else 1) t
    | _ => if is_space c then reaches_second_word 2 t else true
    end
  end.

(** The password [executeCommand] feeds to sudo: the one of the
    connection's configuration, or else the stored one. *)
Definition stored_password (connection : SSHConnection) (st : ServiceState)
  : option jsstring :=
  if truthy_opt (cfg_password (conn_config connection))
  then cfg_password (conn_config connection)
  else cred_password
         (default {| cred_password := None; cred_passphrase := None |}
            (credentialStore st !! conn_id connection)).

(** The command reaches the execution step of [executeCommand]: it is not
    handed to the docker-context execution and is not wrapped for an active
    container. *)
Definition reaches_execution (connectionId command : jsstring)
    (st : ServiceState) : bool :=
  negb (default false (pc_needsContainerContext (parseCommand command)))
  && negb (truthy_opt (getActiveContainer connectionId (containerSessions st))
           && is_type regular (parseCommand command)).


(** The registry files every connection record under the record's own id. *)
Definition registry_wf (st : ServiceState) : Prop :=
  forall id connection,
    connections st !! id = Some connection -> conn_id connection = id.

Definition keeps_registry_wf (st st' : ServiceState) : Prop :=
  registry_wf st -> registry_wf st'.

(** A chunk has a length that is not negative. *)
Definition chunk_length_ok (ev : stream_event) : Prop :=
  match ev with DataEvent chunkLength => (0 <= chunkLength)%Z | _ => True end.

(** Modelled from the spec: the progress of a transfer is
    [round(100 * bytesTransferred / size)], capped at 100; the rounding is
    that of [Math.round] on the exact quotient. *)
Definition spec_progress (bytesTransferred size : Z) : Z :=
  Z.min 100 ((200 * bytesTransferred + size) / (2 * size)).

(** ** Fixtures of the worked examples

    A service with one connected connection [c1] (user [root] on host [h],
    password [p], client handle 0, last used at time 5), a remote shell
    that answers every command with [ok], and a clock that starts at 100
    and advances with every request. *)

Definition demo_config : SSHConnectionConfig :=
  {| cfg_host := js "h"; cfg_port := None; cfg_username := js "root";
     cfg_password := Some (js "p"); cfg_privateKey := None;
     cfg_passphrase := None; cfg_keepaliveInterval := None;
     cfg_readyTimeout := None; cfg_reconnect := None;
     cfg_reconnectTries := None; cfg_reconnectDelay := None;
     cfg_undefined := [] |}.

Definition demo_connection : SSHConnection :=
  {| conn_id := js "c1"; conn_name := Some (js "box");
     conn_config := demo_config; conn_status := CONNECTED;
     conn_lastUsed := Some 5%Z; conn_lastError := None;
     conn_client := Some 0; conn_tags := None;
     conn_currentDirectory := None |}.

Definition demo_state : ServiceState :=
  {| connections := {[ js "c1" := demo_connection ]};
     containerSessions := []; credentialStore := ∅;
     connectionCollection := ∅; tunnels := ∅; sockets := ∅;
     next_handle := 1; history := [] |}.

(** The service before any connection. *)
Definition empty_state : ServiceState :=
  {| connections := ∅; containerSessions := []; credentialStore := ∅;
     connectionCollection := ∅; tunnels := ∅; sockets := ∅;
     next_handle := 0; history := [] |}.

Definition demo_exec (history : list io_event) (client : nat)
    (command : jsstring) (opts : ExecOptions) : exec_response :=
  ExecResolved (js "ok") [] (Some 0%Z).

Definition demo_clock (history : list io_event) : Z :=
  (100 + Z.of_nat (length history))%Z.

Definition no_options : ExecOptions := {| cwd := None; timeout := None |}.



Definition demo_enrich (connectionId command : jsstring) (cwd : option jsstring)
    (result : CommandResult) (output : jsstring) : M McpState jsstring :=
  ret output.

Definition demo_mcp : McpState :=
  {| sshService := demo_state; activeConnections := ∅; service_calls := [] |}.


(** A stand-in for the hash that sends the demo connection's
    [root@h:22] to [c1]. *)
Definition demo_md5hex (text : jsstring) : jsstring :=
  if jseqb text (js "root@h:22") then js "c1" else js "md5:" ++ text.

Definition demo_connect (history : list io_event) (opts : ConnectOptions)
  : option jsstring := None.

Definition demo_listen (history : list io_event) (port : Z) : option jsstring :=
  None.

Definition demo_tunnel (id : string) : TunnelConfig :=
  {| tc_id := Some (js id); tc_connectionId := js "c1"; tc_localPort := 8080;
     tc_remoteHost := js "db"; tc_remotePort := 5432; tc_description := None |}.

(** ** Further notions *)

(** Some code unit of the text is not a blank. *)
Definition has_nonspace (s : jsstring) : bool :=
  existsb (fun c => negb (is_space c)) s.

(** Every connection record but the one of [connectionId] is what it was. *)
Definition others_kept (connectionId : jsstring) (st st' : ServiceState) : Prop :=
  forall id, id <> connectionId -> connections st' !! id = connections st !! id.

(** What a run returned, when it returned. *)
Definition fst_ret {S A : Type} (run : outcome A * S) : option A :=
  match fst run with Ret a => Some a | _ => None end.

(** ** SSHService: leaving and forgetting a connection *)

(** [client.dispose()]: [None] when it resolves, the message of the error
    when it rejects. The request is not one of the events of the history. *)
Variable ssh_dispose : list io_event -> nat -> option jsstring.

Definition with_status (c : SSHConnection) (status : ConnectionStatus)
    (client : option nat) (lastError : option jsstring) : SSHConnection :=
  {| conn_id := conn_id c;
     conn_name := conn_name c;
     conn_config := conn_config c;
     conn_status := status;
     conn_lastUsed := conn_lastUsed c;
     conn_lastError := lastError;
     conn_client := client;
     conn_tags := conn_tags c;
     conn_currentDirectory := conn_currentDirectory c |}.

(** [disconnect] *)
Definition disconnect (connectionId : jsstring) : M ServiceState bool :=
  st <- get ;;
  match connections st !! connectionId with
  | None => ret false
  | Some connection =>
    match conn_client connection with
    | None => ret false
    | Some client =>
      match ssh_dispose (history st) client with
      | None =>
        update_connection connectionId (fun c =>
          with_status c DISCONNECTED None (conn_lastError c)) ;;;
        ret true
      | Some message =>
        update_connection connectionId (fun c =>
          with_status c ERROR (conn_client c) (Some message)) ;;;
        ret false
      end
    end
  end.

(** [getConnection] and [getAllConnections] *)
Definition getConnection (connectionId : jsstring) (st : ServiceState)
  : option SSHConnection :=
  connections st !! connectionId.

(** [deleteConnection], on a service that is ready. *)
Definition deleteConnection (connectionId : jsstring) : M ServiceState bool :=
  disconnect connectionId ;;;
  modify (set_connectionCollection (delete connectionId)) ;;;
  modify (set_connections (delete connectionId)) ;;;
  modify (set_credentialStore (delete connectionId)) ;;;
  ret true.

(** ** Tunnels *)

(** The id [createTunnel] files a tunnel under: the one of the
    configuration, or else a hash that takes in the time. *)
Definition tunnel_id_for (config : TunnelConfig) (st : ServiceState) : jsstring :=
  if truthy_opt (tc_id config) then default [] (tc_id config)
  else md5hex (tc_connectionId config ++ js ":" ++ Z_to_js (tc_localPort config)
               ++ js ":" ++ tc_remoteHost config ++ js ":"
               ++ Z_to_js (tc_remotePort config) ++ js ":"
               ++ Z_to_js (clock (history st))).

(** The record of a tunnel that listens. *)
Definition listening_tunnel (config : TunnelConfig) (tunnelId : jsstring)
    (server : nat) : Tunnel :=
  {| tn_config := with_tunnel_id config tunnelId;
     tn_server := Some server;
     tn_connections := [];
     tn_isActive := true |}.

(** A local TCP stack on which no port can be bound. *)
Definition busy_listen (history : list io_event) (port : Z) : option jsstring :=
  Some (js "EADDRINUSE").

(** ** Connecting *)

(** The configuration [connect] goes on with: when the caller gave neither
    password nor key, the stored password and passphrase are filled in. *)
Definition config_with_saved (config : SSHConnectionConfig) (st : ServiceState)
  : SSHConnectionConfig :=
  if negb (truthy_opt (cfg_password config))
     && negb (truthy_opt (cfg_privateKey config))
  then
    let savedCredentials :=
      default {| cred_password := None; cred_passphrase := None |}
        (credentialStore st !! generateConnectionId config) in
    with_secrets config
      (if truthy_opt (cred_password savedCredentials)
       then cred_password savedCredentials else cfg_password config)
      (if truthy_opt (cred_passphrase savedCredentials)
       then cred_passphrase savedCredentials else cfg_passphrase config)
  else config.

(** [config.reconnect && config.reconnectTries && config.reconnectTries > 0] *)
Definition wants_reconnect (config : SSHConnectionConfig) : bool :=
  default false (cfg_reconnect config)
  && truthy_num (cfg_reconnectTries config)
  && (0 <? default 0 (cfg_reconnectTries config))%Z.

(** The history of the second state goes on from that of the first. *)
Definition history_extends (st st' : ServiceState) : Prop :=
  exists events, history st' = history st ++ events.

(** ** Fixtures of the further examples *)

(** A transport that refuses every connection. *)
Definition refusing_connect (history : list io_event) (opts : ConnectOptions)
  : option jsstring := Some (js "refused").

(** The demo configuration as a caller gives it who relies on the stored
    password. *)
Definition keyless_config : SSHConnectionConfig :=
  with_secrets demo_config None None.

(** ** ContainerContextManager: the other methods (container-context.ts)

    A session object is written to in place by the methods below; here the
    map's entry is replaced by the updated record, the key keeping its
    place. *)

Definition update_session (connectionId containerName : jsstring)
    (f : ContainerSession -> ContainerSession)
    (containerSessions : list (jsstring * ContainerSession))
  : list (jsstring * ContainerSession) :=
  match getContainerContext connectionId containerName containerSessions with
  | Some session =>
    map_set (sessionKey connectionId containerName) (f session) containerSessions
  | None => containerSessions
  end.

Definition with_isActive (session : ContainerSession) (isActive : bool)
  : ContainerSession :=
  {| cs_connectionId := cs_connectionId session;
     cs_containerName := cs_containerName session;
     cs_workingDirectory := cs_workingDirectory session;
     cs_environment := cs_environment session;
     cs_user := cs_user session;
     cs_lastActivity := cs_lastActivity session;
     cs_isActive := isActive |}.

(** The loop of [getContainerContext] when no container name is given: the
    first session of the connection, in iteration order, with the greatest
    [lastActivity] later than [new Date(0)]. *)
Fixpoint latest_loop (connectionId : jsstring)
    (sessions : list (jsstring * ContainerSession))
    (latestSession : option ContainerSession) (latestTime : Z)
  : option ContainerSession :=
  match sessions with
  | [] => latestSession
  | (_, session) :: rest =>
    if jseqb (cs_connectionId session) connectionId && cs_isActive session
       && (latestTime <? cs_lastActivity session)%Z
    then latest_loop connectionId rest (Some session) (cs_lastActivity session)
    else latest_loop connectionId rest latestSession latestTime
  end.

(** [getContainerContext(connectionId, containerName?)]: an absent or empty
    name asks for the latest active session. *)
Definition getContainerContextOpt (connectionId : jsstring)
    (containerName : option jsstring)
    (containerSessions : list (jsstring * ContainerSession))
  : option ContainerSession :=
  if truthy_opt containerName
  then getContainerContext connectionId (default [] containerName) containerSessions
  else latest_loop connectionId containerSessions None 0%Z.

Definition updateWorkingDirectory (now : Z)
    (connectionId containerName workingDirectory : jsstring)
    (containerSessions : list (jsstring * ContainerSession))
  : list (jsstring * ContainerSession) :=
  update_session connectionId containerName
    (fun session =>
       {| cs_connectionId := cs_connectionId session;
          cs_containerName := cs_containerName session;
          cs_workingDirectory := workingDirectory;
          cs_environment := cs_environment session;
          cs_user := cs_user session;
          cs_lastActivity := now;
          cs_isActive := cs_isActive session |})
    containerSessions.

Definition setEnvironmentVariable (now : Z)
    (connectionId containerName key value : jsstring)
    (containerSessions : list (jsstring * ContainerSession))
  : list (jsstring * ContainerSession) :=
  update_session connectionId containerName
    (fun session =>
       {| cs_connectionId := cs_connectionId session;
          cs_containerName := cs_containerName session;
          cs_workingDirectory := cs_workingDirectory session;
          cs_environment := obj_set key value (cs_environment session);
          cs_user := cs_user session;
          cs_lastActivity := now;
          cs_isActive := cs_isActive session |})
    containerSessions.

Definition getEnvironmentVariables (connectionId containerName : jsstring)
    (containerSessions : list (jsstring * ContainerSession))
  : list (jsstring * jsstring) :=
  match getContainerContext connectionId containerName containerSessions with
  | Some session => cs_environment session
  | None => []
  end.

(** [cleanupInactiveSessions(maxInactiveMinutes)], for a whole number of
    minutes, at the time [now]. *)
Definition cleanupInactiveSessions (now maxInactiveMinutes : Z)
    (containerSessions : list (jsstring * ContainerSession))
  : list (jsstring * ContainerSession) :=
  let cutoffTime := (now - maxInactiveMinutes * 60 * 1000)%Z in
  (fun kv => (fst kv,
              if (cs_lastActivity (snd kv) <? cutoffTime)%Z
              then with_isActive (snd kv) false else snd kv))
    <$> containerSessions.

(** [Array.prototype.sort] is stable, so what it returns for the comparator
    [(a, b) => b.lastActivity - a.lastActivity] is determined: the sessions
    by descending [lastActivity], those of equal time in the order they had.
    It is computed here by insertion from the right. *)
Fixpoint insert_session (session : ContainerSession)
    (sorted : list ContainerSession) : list ContainerSession :=
  match sorted with
  | [] => [session]
  | other :: rest =>
    if (cs_lastActivity session <? cs_lastActivity other)%Z
    then other :: insert_session session rest
    else session :: sorted
  end.

Definition sort_sessions (sessions : list ContainerSession)
  : list ContainerSession :=
  foldr insert_session [] sessions.

Definition session_of (connectionId : jsstring) (session : ContainerSession)
  : bool :=
  jseqb (cs_connectionId session) connectionId && cs_isActive session.

Definition getActiveContainerSessions (connectionId : jsstring)
    (containerSessions : list (jsstring * ContainerSession))
  : list ContainerSession :=
  sort_sessions
    (List.filter (session_of connectionId) (snd <$> containerSessions)).

Definition closeContainerSession (connectionId containerName : jsstring)
    (containerSessions : list (jsstring * ContainerSession))
  : list (jsstring * ContainerSession) :=
  update_session connectionId containerName
    (fun session => with_isActive session false) containerSessions.

Definition closeAllContainerSessions (connectionId : jsstring)
    (containerSessions : list (jsstring * ContainerSession))
  : list (jsstring * ContainerSession) :=
  (fun kv => (fst kv,
              if jseqb (cs_connectionId (snd kv)) connectionId
              then with_isActive (snd kv) false else snd kv))
    <$> containerSessions.

(** [exitContainer] of the service. *)
Definition exitContainer (connectionId : jsstring)
    (containerName : option jsstring) : M ServiceState jsstring :=
  if truthy_opt containerName then
    modify (set_containerSessions
              (closeContainerSession connectionId (default [] containerName))) ;;;
    ret (js "已退出容器 " ++ default [] containerName)
  else
    modify (set_containerSessions (closeAllContainerSessions connectionId)) ;;;
    ret (js "已退出所有容器上下文").

(** [getCurrentContainerContext] of the service. *)
Definition getCurrentContainerContext (connectionId : jsstring)
    (st : ServiceState) : option ContainerSession :=
  getContainerContextOpt connectionId None (containerSessions st).

(** Every session is filed under the key made of its own connection id and
    container name, and no key is held twice. *)
Definition sessions_wf (containerSessions : list (jsstring * ContainerSession))
  : Prop :=
  NoDup (fst <$> containerSessions)
  /\ forall key session, (key, session) ∈ containerSessions ->
       key = sessionKey (cs_connectionId session) (cs_containerName session).

(** No session of the list is followed by one of later activity. *)
Fixpoint latest_first (sessions : list ContainerSession) : Prop :=
  match sessions with
  | [] => True
  | session :: rest =>
    Forall (fun other => (cs_lastActivity other <= cs_lastActivity session)%Z) rest
    /\ latest_first rest
  end.

Definition keeps_sessions_wf (st st' : ServiceState) : Prop :=
  sessions_wf (containerSessions st) -> sessions_wf (containerSessions st').

(** The demo service after [web] became the container of [c1] at time 50. *)
Definition container_sessions : list (jsstring * ContainerSession) :=
  setContainerContext 50 (js "c1") (js "web") None None None [].

Definition container_state : ServiceState :=
  set_containerSessions (fun _ => container_sessions) demo_state.

(** ** Transfers: the registry and batches *)

(** The registry files every transfer record under the record's own id. *)
Definition transfers_wf (fileTransfers : gmap jsstring FileTransferInfo) : Prop :=
  forall id r, fileTransfers !! id = Some r -> ft_id r = id.

(** The streams of the world report an event that settles the transfer. *)
Definition world_settles (world : TransferWorld) : Prop :=
  snd (until_settled (tw_events world)) <> None.

(** [getTransferInfo] *)
Definition getTransferInfo (transferId : jsstring)
    (fileTransfers : gmap jsstring FileTransferInfo) : option FileTransferInfo :=
  fileTransfers !! transferId.

Record TransferItem := {
  ti_localPath : jsstring;
  ti_remotePath : jsstring
}.

(** One transfer of a batch. *)
Definition transfer_item (direction : TransferDirection)
    (connectionId : jsstring) (item : TransferItem) (world : TransferWorld)
    (st : ServiceState)
  : M (gmap jsstring FileTransferInfo) FileTransferInfo :=
  match direction with
  | upload =>
    uploadFile connectionId (ti_localPath item) (ti_remotePath item) world st
  | download =>
    downloadFile connectionId (ti_remotePath item) (ti_localPath item) world st
  end.

(** The id [transfer_item] gives its transfer. *)
Definition transfer_item_id (direction : TransferDirection)
    (connectionId : jsstring) (item : TransferItem) (world : TransferWorld)
  : jsstring :=
  match direction with
  | upload =>
    transfer_id upload connectionId (ti_localPath item) (ti_remotePath item)
      (tw_started world)
  | download =>
    transfer_id download connectionId (ti_remotePath item) (ti_localPath item)
      (tw_started world)
  end.

(** The error with which the [try] block of a transfer ends before its
    streams are set up, when it does. *)
Definition setup_error (direction : TransferDirection) (item : TransferItem)
    (world : TransferWorld) : option jsstring :=
  match direction with
  | upload =>
    match tw_stat world with
    | inl message => Some message
    | inr (isFile, _) =>
      if negb isFile
      then Some (js "本地路径 " ++ ti_localPath item ++ js " 不是一个文件")
      else tw_requestSFTP world
    end
  | download =>
    match tw_mkdir world with
    | Some message => Some message
    | None =>
      match tw_requestSFTP world with
      | Some message => Some message
      | None =>
        match tw_stat world with
        | inl message => Some message
        | inr _ => None
        end
      end
    end
  end.

(** The error a transfer runs into, when it does: before the streams, or
    the one of the streams that rejects the promise. *)
Definition transfer_error (direction : TransferDirection) (item : TransferItem)
    (world : TransferWorld) : option jsstring :=
  match setup_error direction item world with
  | Some message => Some message
  | None =>
    match snd (until_settled (tw_events world)) with
    | Some (Some message) => Some message
    | _ => None
    end
  end.

(** The events of a transfer's streams that come after the call has
    returned. *)
Definition events_after_return (direction : TransferDirection)
    (item : TransferItem) (world : TransferWorld) : list stream_event :=
  match setup_error direction item world with
  | Some _ => []
  | None =>
    match snd (until_settled (tw_events world)) with
    | Some (Some _) =>
      drop (tw_before_catch world) (after_settled (tw_events world))
    | _ => after_settled (tw_events world)
    end
  end.

(** The loop of [batchTransfer]; every item meets a world of its own. *)
Fixpoint batch_loop (direction : TransferDirection) (connectionId : jsstring)
    (items : list (TransferItem * TransferWorld)) (st : ServiceState)
    (transferIds errors : list jsstring)
  : M (gmap jsstring FileTransferInfo) (list jsstring * list jsstring) :=
  match items with
  | [] => ret (transferIds, errors)
  | (item, world) :: rest =>
    outcome <-
      try_catch
        (transferInfo <- transfer_item direction connectionId item world st ;;
         ret (inl (ft_id transferInfo)))
        (fun message => ret (inr message)) ;;
    match outcome with
    | inl transferId =>
      batch_loop direction connectionId rest st (transferIds ++ [transferId])
        errors
    | inr message =>
      batch_loop direction connectionId rest st transferIds (errors ++ [message])
    end
  end.

Definition batchTransfer (connectionId : jsstring)
    (items : list (TransferItem * TransferWorld)) (direction : TransferDirection)
    (st : ServiceState) : M (gmap jsstring FileTransferInfo) (list jsstring) :=
  match live_connection connectionId st with
  | None => throw (not_connected_message connectionId)
  | Some _ =>
    result <- batch_loop direction connectionId items st [] [] ;;
    if length (snd result) =? length items
    then throw (js "批量传输完全失败: " ++ join (js ", ") (snd result))
    else ret (fst result)
  end.

(** A transfer whose source cannot be read (its streams, never opened,
    would have closed at once), and the item it stands for. *)
Definition failing_world : TransferWorld :=
  {| tw_started := 7; tw_mkdir := None; tw_stat := inl (js "ENOENT");
     tw_requestSFTP := None; tw_events := [CloseEvent 9];
     tw_before_catch := 0; tw_caught := 8 |}.

(** A transfer of 10 bytes whose read stream fails after 4 of them; the
    write stream, closed by the handler of that error in [downloadFile],
    reports its close when the call has returned. *)
Definition late_close_world : TransferWorld :=
  {| tw_started := 1; tw_mkdir := None; tw_stat := inr (true, 10%Z);
     tw_requestSFTP := None;
     tw_events := [DataEvent 4; ReadErrorEvent (js "EIO") 5; CloseEvent 6];
     tw_before_catch := 0; tw_caught := 5 |}.

Definition demo_item : TransferItem :=
  {| ti_localPath := js "a.txt"; ti_remotePath := js "/tmp/a.txt" |}.

(** * Properties *)

(** ** The matcher against [matches] *)

Lemma star_loop_S step g k fuel s :
  star_loop step g k (S fuel) s =
  let again :=
    step (fun s' => if length (m_rest s') <? length (m_rest s)
                    then star_loop step g k fuel s' else None) s in
  if g then match again with Some m => Some m | None => k s end
  else match k s with Some m => Some m | None => again end.
Proof. reflexivity. Qed.

#[local] Arguments star_loop : simpl never.

Lemma star_loop_ext step1 step2 g k1 k2 fuel s :
  (forall k k' s, (forall x, k x = k' x) -> step1 k s = step2 k' s) ->
  (forall x, k1 x = k2 x) ->
  star_loop step1 g k1 fuel s = star_loop step2 g k2 fuel s.
Proof.
  intros Hstep Hk. revert s.
  induction fuel as [|fuel IH]; intros s; [apply Hk|].
  rewrite !star_loop_S. cbv zeta.
  rewrite (Hstep _ (fun s' => if length (m_rest s') <? length (m_rest s)
                              then star_loop step2 g k2 fuel s' else None) s).
  - rewrite Hk. reflexivity.
  - intros x. destruct (_ <? _); [apply IH | reflexivity].
Qed.

Lemma rmatch_ext r : forall k k' s,
  (forall x, k x = k' x) -> rmatch r k s = rmatch r k' s.
Proof.
  induction r as [|p|r1 IH1 r2 IH2|r1 IH1 r2 IH2|g r IH|n r IH| | |];
    intros k k' s Hk; simpl.
  - apply Hk.
  - destruct (m_rest s); [reflexivity|]. destruct (p _); [apply Hk|reflexivity].
  - apply IH1. intros x. apply IH2, Hk.
  - rewrite (IH1 k k' s Hk), (IH2 k k' s Hk). reflexivity.
  - apply star_loop_ext; [|exact Hk]. intros; apply IH; assumption.
  - apply IH. intros x. apply Hk.
  - destruct (at_word_boundary s); [apply Hk|reflexivity].
  - destruct (m_prev s); [reflexivity|apply Hk].
  - destruct (m_rest s); [apply Hk|reflexivity].
Qed.

(** Fuel beyond the length of the input changes nothing. *)
Lemma star_loop_fuel r g k : forall n s f1 f2,
  length (m_rest s) < n -> length (m_rest s) < f1 -> length (m_rest s) < f2 ->
  star_loop (rmatch r) g k f1 s = star_loop (rmatch r) g k f2 s.
Proof.
  induction n as [|n IH]; intros s f1 f2 Hn H1 H2; [lia|].
  destruct f1 as [|f1]; [lia|]. destruct f2 as [|f2]; [lia|].
  rewrite !star_loop_S. cbv zeta.
  rewrite (rmatch_ext r _
    (fun s' => if length (m_rest s') <? length (m_rest s)
               then star_loop (rmatch r) g k f2 s' else None)); [reflexivity|].
  intros x. destruct (Nat.ltb_spec (length (m_rest x)) (length (m_rest s)));
    [|reflexivity].
  apply IH; lia.
Qed.

Lemma rmatch_complete r p s p' s' :
  matches r p s p' s' ->
  forall k caps, (forall caps', is_Some (k (MState p' s' caps'))) ->
  is_Some (rmatch r k (MState p s caps)).
Proof.
  induction 1 as [p s|f p c t Hf|r1 r2 p s p1 s1 p2 s2 _ IH1 _ IH2
                 |r1 r2 p s p' s' _ IH|r1 r2 p s p' s' _ IH|g r p s
                 |g r p s p1 s1 p2 s2 _ IH1 Hlen _ IH2|n r p s p' s' _ IH
                 |p s Hb|s|p]; intros k caps Hk; simpl.
  - apply Hk.
  - rewrite Hf. apply Hk.
  - apply IH1. intros caps'. apply IH2, Hk.
  - destruct (IH k caps Hk) as [m ->]. eauto.
  - destruct (rmatch r1 k _); [eauto|]. apply IH, Hk.
  - rewrite star_loop_S. cbv zeta. destruct g.
    + destruct (rmatch r _ _); [eauto|apply Hk].
    + destruct (Hk caps) as [m ->]. eauto.
  - rewrite star_loop_S. cbv zeta. simpl.
    assert (Hagain : is_Some (rmatch r
      (fun s' => if length (m_rest s') <? length s
                 then star_loop (rmatch r) g k (length s) s' else None)
      (MState p s caps))).
    { apply IH1. intros caps'. simpl.
      destruct (Nat.ltb_spec (length s1) (length s)); [|lia].
      specialize (IH2 k caps' Hk). simpl in IH2.
      rewrite (star_loop_fuel r g k (S (length s1)) _ (length s) (S (length s1)));
        simpl; [exact IH2|lia..]. }
    destruct Hagain as [m Hm]. rewrite Hm.
    destruct g; [eauto|]. destruct (k _); eauto.
  - apply IH. intros caps'. apply Hk.
  - unfold at_word_boundary. simpl. rewrite Hb. apply Hk.
  - apply Hk.
  - apply Hk.
Qed.

Lemma star_loop_sound r g
  (IH : forall k s m, rmatch r k s = Some m ->
        exists p' s' caps', matches r (m_prev s) (m_rest s) p' s'
                            /\ k (MState p' s' caps') = Some m) :
  forall fuel k s m, star_loop (rmatch r) g k fuel s = Some m ->
  exists p' s' caps', matches (RStar g r) (m_prev s) (m_rest s) p' s'
                      /\ k (MState p' s' caps') = Some m.
Proof.
  induction fuel as [|fuel IHf]; intros k s m H.
  - destruct s as [p t caps]. exists p, t, caps. split; [constructor|exact H].
  - rewrite star_loop_S in H. cbv zeta in H.
    assert (Hstop : k s = Some m ->
      exists p' s' caps', matches (RStar g r) (m_prev s) (m_rest s) p' s'
                          /\ k (MState p' s' caps') = Some m).
    { intros Hk. destruct s as [p t caps]. exists p, t, caps.
      split; [constructor|exact Hk]. }
    assert (Hagain : rmatch r
        (fun s' => if length (m_rest s') <? length (m_rest s)
                   then star_loop (rmatch r) g k fuel s' else None) s = Some m ->
      exists p' s' caps', matches (RStar g r) (m_prev s) (m_rest s) p' s'
                          /\ k (MState p' s' caps') = Some m).
    { intros Hm. apply IH in Hm as (p1 & s1 & caps1 & Hm1 & Hk1). simpl in Hk1.
      destruct (Nat.ltb_spec (length s1) (length (m_rest s))); [|discriminate].
      apply IHf in Hk1 as (p2 & s2 & caps2 & Hm2 & Hk2). simpl in Hm2.
      exists p2, s2, caps2. split; [|exact Hk2].
      eapply m_star_cons; eauto. }
    destruct g.
    + destruct (rmatch r _ s) eqn:E; [inversion H; subst; auto|auto].
    + destruct (k s) eqn:E; [inversion H; subst; auto|auto].
Qed.

Lemma rmatch_sound r : forall k s m,
  rmatch r k s = Some m ->
  exists p' s' caps', matches r (m_prev s) (m_rest s) p' s'
                      /\ k (MState p' s' caps') = Some m.
Proof.
  induction r as [|f|r1 IH1 r2 IH2|r1 IH1 r2 IH2|g r IH|n r IH| | |];
    intros k s m H; simpl in H.
  - destruct s as [p t caps]. exists p, t, caps. split; [constructor|exact H].
  - destruct s as [p t caps]. simpl in *. destruct t as [|c t]; [discriminate|].
    destruct (f c) eqn:Hf; [|discriminate].
    exists (Some c), t, caps. split; [constructor; exact Hf|exact H].
  - apply IH1 in H as (p1 & s1 & caps1 & Hm1 & H).
    apply IH2 in H as (p2 & s2 & caps2 & Hm2 & H). simpl in Hm2.
    exists p2, s2, caps2. split; [econstructor; eauto|exact H].
  - destruct (rmatch r1 k s) eqn:E.
    + inversion H; subst. apply IH1 in E as (p1 & s1 & caps1 & Hm1 & Hk1).
      exists p1, s1, caps1. split; [apply m_alt_l; exact Hm1|exact Hk1].
    + apply IH2 in H as (p1 & s1 & caps1 & Hm1 & Hk1).
      exists p1, s1, caps1. split; [apply m_alt_r; exact Hm1|exact Hk1].
  - eapply star_loop_sound; eauto.
  - apply IH in H as (p1 & s1 & caps1 & Hm1 & H). unfold set_capture in H.
    simpl in H. eexists p1, s1, _. split; [constructor; exact Hm1|exact H].
  - destruct (at_word_boundary s) eqn:Hb; [|discriminate].
    destruct s as [p t caps]. exists p, t, caps.
    split; [constructor; exact Hb|exact H].
  - destruct s as [p t caps]. simpl in *. destruct p; [discriminate|].
    exists None, t, caps. split; [constructor|exact H].
  - destruct s as [p t caps]. simpl in *. destruct t; [|discriminate].
    exists p, [], caps. split; [constructor|exact H].
Qed.

Lemma match_here_complete r p s p' s' :
  matches r p s p' s' -> is_Some (match_here r p s).
Proof. intros H. apply (rmatch_complete _ _ _ _ _ H). eauto. Qed.

Lemma match_here_sound r p s m :
  match_here r p s = Some m ->
  exists caps, m = MState (m_prev m) (m_rest m) caps
               /\ matches r p s (m_prev m) (m_rest m).
Proof.
  intros H. apply rmatch_sound in H as (p' & s' & caps & Hm & Hk).
  inversion Hk; subst. simpl in *. eauto.
Qed.

Lemma prev_after_app p a b : prev_after p (a ++ b) = prev_after (prev_after p a) b.
Proof.
  unfold prev_after. destruct b as [|c b] using rev_ind.
  - rewrite app_nil_r. destruct (last a); reflexivity.
  - rewrite app_assoc, !last_snoc. reflexivity.
Qed.

Lemma matches_consumes r p s p' s' :
  matches r p s p' s' -> exists w, s = w ++ s' /\ p' = prev_after p w.
Proof.
  induction 1 as [p s|f p c t Hf|r1 r2 p s p1 s1 p2 s2 _ IH1 _ IH2
                 |r1 r2 p s p' s' _ IH|r1 r2 p s p' s' _ IH|g r p s
                 |g r p s p1 s1 p2 s2 _ IH1 Hlen _ IH2|n r p s p' s' _ IH
                 |p s Hb|s|p];
    try (exists []; split; reflexivity); try exact IH.
  - exists [c]. split; reflexivity.
  - destruct IH1 as (w1 & -> & ->), IH2 as (w2 & -> & ->).
    exists (w1 ++ w2). rewrite app_assoc, prev_after_app. split; reflexivity.
  - destruct IH1 as (w1 & -> & ->), IH2 as (w2 & -> & ->).
    exists (w1 ++ w2). rewrite app_assoc, prev_after_app. split; reflexivity.
Qed.

Lemma rsearch_complete r : forall pre p suf p' s',
  matches r (prev_after p pre) suf p' s' -> is_Some (rsearch r p (pre ++ suf)).
Proof.
  induction pre as [|c pre IH]; intros p suf p' s' H.
  - change (matches r p suf p' s') in H. cbn [app].
    destruct suf; cbn [rsearch];
      destruct (match_here_complete _ _ _ _ _ H) as [m ->]; eauto.
  - cbn [app rsearch]. destruct (match_here r p _); [eauto|].
    apply (IH (Some c) suf p' s').
    replace (prev_after (Some c) pre) with (prev_after p (c :: pre)); [exact H|].
    change (c :: pre) with ([c] ++ pre). rewrite prev_after_app. reflexivity.
Qed.

Lemma rsearch_sound r : forall s p m,
  rsearch r p s = Some m ->
  exists pre suf, s = pre ++ suf
                  /\ matches r (prev_after p pre) suf (m_prev m) (m_rest m).
Proof.
  induction s as [|c s IH]; intros p m H; simpl in H.
  - destruct (match_here r p []) eqn:E; [|discriminate]. inversion H; subst.
    apply match_here_sound in E as (caps & _ & E). exists [], []. auto.
  - destruct (match_here r p (c :: s)) eqn:E.
    + inversion H; subst. apply match_here_sound in E as (caps & _ & E).
      exists [], (c :: s). auto.
    + apply IH in H as (pre & suf & -> & H). exists (c :: pre), suf.
      split; [reflexivity|].
      change (c :: pre) with ([c] ++ pre). rewrite prev_after_app. exact H.
Qed.

Lemma regex_test_true r s :
  regex_test r s = true <->
  exists pre suf p' s', s = pre ++ suf /\ matches r (prev_after None pre) suf p' s'.
Proof.
  unfold regex_test. split.
  - destruct (rsearch r None s) eqn:E; [|discriminate]. intros _.
    apply rsearch_sound in E as (pre & suf & -> & H). eauto 6.
  - intros (pre & suf & p' & s' & -> & H).
    destruct (rsearch_complete r pre None suf p' s' H) as [m ->]. reflexivity.
Qed.

(** ** Strings *)

Lemma startsWith_spec s p : startsWith s p = true <-> exists t, s = p ++ t.
Proof.
  revert s. induction p as [|a p IH]; intros s; simpl.
  - destruct s; split; eauto.
  - destruct s as [|c s].
    + split; [discriminate|]. intros [t Ht]. discriminate.
    + cbn [startsWith]. rewrite andb_true_iff, N.eqb_eq, IH. split.
      * intros [-> [t ->]]. eauto.
      * intros [t Ht]. inversion Ht; subst. eauto.
Qed.

Lemma includes_spec s p : includes s p = true <-> exists a b, s = a ++ p ++ b.
Proof.
  induction s as [|c s IH]; cbn [includes]; rewrite orb_true_iff, startsWith_spec.
  - split.
    + intros [[t Ht]|]; [|discriminate]. exists [], t. exact Ht.
    + intros (a & b & H). left. destruct a; [|discriminate].
      simpl in H. eauto.
  - rewrite IH. split.
    + intros [[t Ht]|(a & b & ->)].
      * exists [], t. exact Ht.
      * exists (c :: a), b. reflexivity.
    + intros (a & b & H). destruct a as [|c' a].
      * left. exists b. exact H.
      * right. inversion H; subst. eauto.
Qed.

Lemma matches_rseq_cons r rs p s p' s' :
  matches (rseq (r :: rs)) p s p' s' <->
  exists p1 s1, matches r p s p1 s1 /\ matches (rseq rs) p1 s1 p' s'.
Proof.
  split.
  - intros H. inversion H; subst. eauto.
  - intros (p1 & s1 & H1 & H2). econstructor; eauto.
Qed.

Lemma matches_rlit w : forall p s p' s',
  matches (rlit w) p s p' s' <-> s = w ++ s' /\ p' = prev_after p w.
Proof.
  induction w as [|c w IH]; intros p s p' s'.
  - split.
    + intros H. inversion H; subst. auto.
    + intros [-> ->]. constructor.
  - unfold rlit in *. rewrite fmap_cons, matches_rseq_cons. split.
    + intros (p1 & s1 & H1 & H2). inversion H1; subst.
      apply IH in H2 as [-> ->].
      match goal with H : (_ =? _)%N = true |- _ => apply N.eqb_eq in H as <- end.
      split; [reflexivity|].
      change (c :: w) with ([c] ++ w). rewrite prev_after_app. reflexivity.
    + intros [-> ->]. exists (Some c), (w ++ s'). split.
      * constructor. apply N.eqb_refl.
      * apply IH. split; [reflexivity|].
        change (c :: w) with ([c] ++ w). rewrite prev_after_app. reflexivity.
Qed.

(** ** The Docker command parser (C5) *)

Lemma matches_separator p s p' s' :
  matches COMPOUND_SEPARATORS p s p' s' ->
  exists ws sep rest,
    s = ws ++ sep ++ rest /\ (sep = js "&&" \/ sep = js "||" \/ sep = js ";").
Proof.
  unfold COMPOUND_SEPARATORS. intros H.
  apply matches_rseq_cons in H as (p1 & s1 & H1 & H).
  apply matches_rseq_cons in H as (p2 & s2 & H2 & _).
  apply matches_consumes in H1 as (ws & -> & _).
  assert (exists sep, s1 = sep ++ s2
            /\ (sep = js "&&" \/ sep = js "||" \/ sep = js ";")) as (sep & -> & Hs).
  { inversion H2; subst.
    - match goal with H : matches (rlit _) _ _ _ _ |- _ =>
        apply matches_rlit in H as [-> _] end. eauto.
    - match goal with H : matches (RAlt _ _) _ _ _ _ |- _ =>
        inversion H; subst end;
      match goal with H : matches (rlit _) _ _ _ _ |- _ =>
        apply matches_rlit in H as [-> _] end; eauto 6. }
  eauto 6.
Qed.

Lemma separator_matches p sep rest :
  sep = js "&&" \/ sep = js "||" \/ sep = js ";" ->
  matches COMPOUND_SEPARATORS p (sep ++ rest) (prev_after p sep) rest.
Proof.
  intros Hs. unfold COMPOUND_SEPARATORS.
  apply matches_rseq_cons. exists p, (sep ++ rest). split; [constructor|].
  apply matches_rseq_cons. exists (prev_after p sep), rest. split.
  - destruct Hs as [-> | [-> | ->]].
    + apply m_alt_l, matches_rlit. auto.
    + apply m_alt_r, m_alt_l, matches_rlit. auto.
    + apply m_alt_r, m_alt_r, matches_rlit. auto.
  - apply matches_rseq_cons. exists (prev_after p sep), rest.
    split; constructor.
Qed.

(** A line is compound exactly when it holds one of the three separators,
    wherever it stands. *)
Lemma isCompoundCommand_spec s :
  isCompoundCommand s = true <->
  includes s (js "&&") = true \/ includes s (js "||") = true
  \/ includes s (js ";") = true.
Proof.
  unfold isCompoundCommand. rewrite regex_test_true, !includes_spec. split.
  - intros (pre & suf & p' & s' & -> & H).
    apply matches_separator in H as (ws & sep & rest & -> & Hs).
    destruct Hs as [-> | [-> | ->]]; [left|right; left|right; right];
      exists (pre ++ ws), rest; rewrite <- app_assoc; reflexivity.
  - intros [(a & b & ->)|[(a & b & ->)|(a & b & ->)]];
      exists a; eexists; do 2 eexists; (split; [reflexivity|]);
      apply separator_matches; auto.
Qed.

Lemma compound_loop_spec parts : forall dcs rcs has,
  compound_loop parts dcs rcs has =
  (dcs ++ omap docker_segment (filter (fun seg => truthy seg = true) (trim <$> parts)),
   rcs ++ filter (fun seg => isDockerExecCommand seg = false)
            (filter (fun seg => truthy seg = true) (trim <$> parts)),
   has || existsb (fun seg => bool_decide (is_Some (docker_segment seg)))
            (filter (fun seg => truthy seg = true) (trim <$> parts))).
Proof.
  induction parts as [|part parts IH]; intros dcs rcs has.
  - cbn. rewrite !app_nil_r, orb_false_r. reflexivity.
  - cbn [compound_loop]. rewrite fmap_cons, filter_cons.
    destruct (truthy (trim part)) eqn:Ht; cbn [negb].
    + rewrite decide_True by reflexivity.
      rewrite filter_cons. cbn [omap list_omap existsb].
      destruct (isDockerExecCommand (trim part)) eqn:Hd.
      * rewrite decide_False by discriminate.
        destruct (parseDockerExecCommand (trim part)) eqn:Hp.
        -- assert (Hs : docker_segment (trim part) = Some d)
             by (unfold docker_segment; rewrite Hd; exact Hp).
           rewrite Hs, IH, <- app_assoc.
           rewrite bool_decide_eq_true_2 by (eexists; reflexivity).
           rewrite orb_true_r. reflexivity.
        -- assert (Hs : docker_segment (trim part) = None)
             by (unfold docker_segment; rewrite Hd; exact Hp).
           rewrite Hs, IH.
           rewrite bool_decide_eq_false_2 by (intros [? ?]; discriminate).
           reflexivity.
      * assert (Hs : docker_segment (trim part) = None)
          by (unfold docker_segment; rewrite Hd; reflexivity).
        rewrite decide_True by reflexivity. rewrite Hs, IH, <- app_assoc.
        rewrite bool_decide_eq_false_2 by (intros [? ?]; discriminate).
        reflexivity.
    + rewrite decide_False by discriminate. apply IH.
Qed.

Lemma parseCommand_type_compound command :
  pc_type (parseCommand command) = compound <->
  isCompoundCommand (trim command) = true.
Proof.
  unfold parseCommand. destruct (isCompoundCommand (trim command)).
  - unfold parseCompoundCommand. destruct (compound_loop _ _ _ _) as [[? ?] ?].
    simpl. split; reflexivity.
  - destruct (isDockerExecCommand (trim command)),
      (isDockerRunCommand (trim command)); simpl; split; discriminate.
Qed.

Lemma parseCommand_needs_none command :
  pc_type (parseCommand command) <> compound ->
  pc_needsContainerContext (parseCommand command) = None.
Proof.
  intros Hc. destruct (isCompoundCommand (trim command)) eqn:E.
  - exfalso. apply Hc, parseCommand_type_compound, E.
  - unfold parseCommand. rewrite E.
    destruct (isDockerExecCommand (trim command)),
      (isDockerRunCommand (trim command)); reflexivity.
Qed.

(** C5, as the parser has it: a line is compound exactly when it holds
    [&&], [||] or [;] anywhere, quoted or not. Of its segments, those that
    match the docker exec pattern and parse are the docker exec commands,
    those that do not match the pattern are the regular commands, and the
    line needs the container context exactly when there is at least one of
    each. A line that is not compound carries no such mark. *)
Theorem parseCommand_compound_spec (command : jsstring) :
  let line := trim command in
  let parsed := parseCommand command in
  let segments := compound_segments line in
  (pc_type parsed = compound <->
     includes line (js "&&") = true \/ includes line (js "||") = true
     \/ includes line (js ";") = true) /\
  (pc_type parsed = compound ->
     pc_dockerCommands parsed = omap docker_segment segments /\
     pc_regularCommands parsed =
       filter (fun seg => isDockerExecCommand seg = false) segments /\
     (pc_needsContainerContext parsed = Some true <->
        (exists seg, seg ∈ segments /\ is_Some (docker_segment seg)) /\
        (exists seg, seg ∈ segments /\ isDockerExecCommand seg = false))) /\
  (pc_type parsed <> compound -> pc_needsContainerContext parsed = None).
Proof.
  intros line parsed segments. split; [|split].
  - subst parsed line. rewrite parseCommand_type_compound.
    apply isCompoundCommand_spec.
  - intros Hc. apply parseCommand_type_compound in Hc.
    subst parsed segments line. unfold parseCommand. rewrite Hc.
    unfold parseCompoundCommand. rewrite compound_loop_spec.
    fold (compound_segments (trim command)).
    set (segments := compound_segments (trim command)). cbn.
    split; [reflexivity|split; [reflexivity|]].
    split.
    + intros H. injection H as H. apply andb_true_iff in H as [H1 H2]. split.
      * apply existsb_exists in H1 as (seg & Hin & Hseg).
        exists seg. split; [apply list_elem_of_In; exact Hin|].
        apply bool_decide_eq_true in Hseg. exact Hseg.
      * destruct (filter _ segments) as [|seg rest] eqn:Hf; [discriminate|].
        assert (Hin : seg ∈ filter (fun seg => isDockerExecCommand seg = false) segments)
          by (rewrite Hf; left).
        apply list_elem_of_filter in Hin as [? ?]. eauto.
    + intros [(seg & Hin & Hseg) (seg' & Hin' & Hseg')]. f_equal.
      apply andb_true_iff. split.
      * apply existsb_exists. exists seg. split; [apply list_elem_of_In; exact Hin|].
        apply bool_decide_eq_true. exact Hseg.
      * assert (Hf : seg' ∈ filter (fun seg => isDockerExecCommand seg = false) segments)
          by (apply list_elem_of_filter; auto).
        destruct (filter _ segments); [inversion Hf|reflexivity].
  - apply parseCommand_needs_none.
Qed.

(** C5, as stated, fails: a separator inside quotes splits the line. The
    specification's splitting keeps [echo "a;b"] whole; the parser makes it
    a compound line of two segments. *)
Lemma quoted_separator_splits :
  let command := js "echo " ++ [dq] ++ js "a;b" ++ [dq] in
  spec_split_unquoted command = [command] /\
  pc_type (parseCommand command) = compound /\
  pc_regularCommands (parseCommand command)
  = [js "echo " ++ [dq] ++ js "a"; js "b" ++ [dq]].
Proof. vm_compute. auto. Qed.

(** ** The output truncator (C6) *)

Lemma omittedMessage_mentions (n : Z) :
  exists before after, omittedMessage n = before ++ Z_to_js n ++ after.
Proof.
  unfold omittedMessage. eexists ([nl; nl] ++ js "... 已省略 "), _.
  rewrite <- !app_assoc. reflexivity.
Qed.

(** C6: a text of at most 10 000 code units is returned unchanged; a longer
    one becomes its first 3 000 code units, a marker that mentions the
    number of code units left out, and its last 3 000 code units. *)
Theorem limitOutputLength_spec (text : jsstring) :
  let n := Z.of_nat (length text) in
  ((n <= 10000)%Z -> limitOutputLength text = text) /\
  ((10000 < n)%Z ->
     let first := take 3000 text in
     let last := drop (length text - 3000) text in
     limitOutputLength text = first ++ omittedMessage (n - 6000) ++ last /\
     length first = 3000 /\ length last = 3000 /\
     (n - 6000)%Z = Z.of_nat (length text - length first - length last) /\
     exists before after,
       omittedMessage (n - 6000) = before ++ Z_to_js (n - 6000) ++ after).
Proof.
  intros n. unfold limitOutputLength, limitOutputLength_with. fold n. split.
  - intros H. apply Z.leb_le in H. rewrite H. reflexivity.
  - intros H. cbv zeta.
    destruct (Z.leb_spec n 10000); [lia|].
    change (6000 / 2)%Z with 3000%Z. unfold substring.
    replace (Z.to_nat 3000 - 0) with 3000 by lia.
    replace (Z.to_nat (n - 3000)) with (length text - 3000) by lia.
    rewrite drop_0.
    assert (length (take 3000 text) = 3000) by (rewrite length_take; lia).
    assert (length (drop (length text - 3000) text) = 3000)
      by (rewrite length_drop; lia).
    repeat split; [assumption..| |apply omittedMessage_mentions]. lia.
Qed.

(** ** Running the monad *)

Lemma bind_ret {S A B} (a : A) (f : A -> M S B) : bind (ret a) f = f a.
Proof. reflexivity. Qed.

Lemma bind_run {S A B} (m : M S A) (f : A -> M S B) st a st' :
  m st = (Ret a, st') -> bind m f st = f a st'.
Proof. intros H. unfold bind. rewrite H. reflexivity. Qed.

Lemma bind_throws {S A B} (m : M S A) (f : A -> M S B) st message st' :
  m st = (Throw message, st') -> bind m f st = (Throw message, st').
Proof. intros H. unfold bind. rewrite H. reflexivity. Qed.

Lemma try_catch_run {S A} (m : M S A) h st a st' :
  m st = (Ret a, st') -> try_catch m h st = (Ret a, st').
Proof. intros H. unfold try_catch. rewrite H. reflexivity. Qed.

Lemma try_catch_throws {S A} (m : M S A) h st message st' :
  m st = (Throw message, st') -> try_catch m h st = h message st'.
Proof. intros H. unfold try_catch. rewrite H. reflexivity. Qed.

Lemma bind_step {S A B} (m : M S A) (f : A -> M S B) st a st' r :
  m st = (Ret a, st') -> f a st' = r -> bind m f st = r.
Proof. intros H <-. apply bind_run, H. Qed.

Lemma bind_get {S B} (f : S -> M S B) st : bind get f st = f st st.
Proof. reflexivity. Qed.

(** ** Frame rules for the monad *)

Section Preserves.
Context {S : Type} (P : S -> S -> Prop).
Hypothesis P_refl : forall st, P st st.
Hypothesis P_trans : forall a b c, P a b -> P b c -> P a c.

Lemma preserves_ret {A} (a : A) : preserves P (ret a).
Proof using P_refl. intros st. apply P_refl. Qed.

Lemma preserves_throw {A} message : preserves P (throw (A := A) message).
Proof using P_refl. intros st. apply P_refl. Qed.

Lemma preserves_get : preserves P get.
Proof using P_refl. intros st. apply P_refl. Qed.

Lemma preserves_modify f : (forall st, P st (f st)) -> preserves P (modify f).
Proof. intros H st. apply H. Qed.

Lemma preserves_bind {A B} (m : M S A) (f : A -> M S B) :
  preserves P m -> (forall a, preserves P (f a)) -> preserves P (bind m f).
Proof using P_trans.
  intros Hm Hf st. unfold bind. specialize (Hm st).
  destruct (m st) as [[a|message|] st']; simpl in *; [|assumption..].
  eapply P_trans; [exact Hm|apply Hf].
Qed.

Lemma preserves_try_catch {A} (m : M S A) h :
  preserves P m -> (forall message, preserves P (h message)) ->
  preserves P (try_catch m h).
Proof using P_trans.
  intros Hm Hh st. unfold try_catch. specialize (Hm st).
  destruct (m st) as [[a|message|] st']; simpl in *; [assumption| |assumption].
  eapply P_trans; [exact Hm|apply Hh].
Qed.
End Preserves.

Lemma service_frame_refl st : service_frame st st.
Proof.
  split; [reflexivity|]. do 3 (split; [reflexivity|]).
  exists []. symmetry. apply app_nil_r.
Qed.

Lemma service_frame_trans a b c :
  service_frame a b -> service_frame b c -> service_frame a c.
Proof.
  intros (H1 & H2 & H3 & H4 & e1 & H5) (K1 & K2 & K3 & K4 & e2 & K5).
  split; [|do 3 (split; [congruence|])].
  - intros id. rewrite K1. apply H1.
  - exists (e1 ++ e2). rewrite K5, H5, app_assoc. reflexivity.
Qed.

Lemma mcp_frame_refl ms : mcp_frame ms ms.
Proof. split; [apply service_frame_refl|reflexivity]. Qed.

Lemma mcp_frame_trans a b c : mcp_frame a b -> mcp_frame b c -> mcp_frame a c.
Proof.
  intros [H1 H2] [K1 K2]. split; [eapply service_frame_trans; eauto|congruence].
Qed.

Lemma service_frame_log_io ev st : service_frame st (log_io ev st).
Proof.
  split; [reflexivity|]. do 3 (split; [reflexivity|]).
  exists [ev]. reflexivity.
Qed.

Lemma service_frame_sessions f st : service_frame st (set_containerSessions f st).
Proof.
  split; [reflexivity|]. do 3 (split; [reflexivity|]).
  exists []. symmetry. apply app_nil_r.
Qed.

Lemma service_frame_dir connectionId dir st :
  service_frame st
    (set_connections
       (alter (fun c => with_currentDirectory c (Some dir)) connectionId) st).
Proof.
  split; [|do 3 (split; [reflexivity|]); exists []; symmetry; apply app_nil_r].
  intros id. simpl. rewrite lookup_alter. case_decide; [subst|reflexivity].
  destruct (connections st !! id) as [c|]; reflexivity.
Qed.

Lemma keeps_registry_wf_refl st : keeps_registry_wf st st.
Proof. intros H. exact H. Qed.

Lemma keeps_registry_wf_trans a b c :
  keeps_registry_wf a b -> keeps_registry_wf b c -> keeps_registry_wf a c.
Proof. unfold keeps_registry_wf. auto. Qed.

Create HintDb frame.
#[local] Hint Resolve service_frame_refl mcp_frame_refl keeps_registry_wf_refl
  service_frame_trans mcp_frame_trans keeps_registry_wf_trans : frame.

(** Combinators of the frame proofs. *)
Ltac frame_step :=
  lazymatch goal with
  | |- preserves _ (ret _) => apply preserves_ret; auto with frame
  | |- preserves _ (throw _) => apply preserves_throw; auto with frame
  | |- preserves _ get => apply preserves_get; auto with frame
  | |- preserves _ (bind _ _) =>
    apply preserves_bind; [eauto with frame| |intros]
  | |- preserves _ (try_catch _ _) =>
    apply preserves_try_catch; [eauto with frame| |intros]
  | |- preserves _ (if ?b then _ else _) => destruct b
  | |- preserves _ (match ?x with _ => _ end) => destruct x
  | |- preserves _ (let _ := _ in _) => cbv zeta
  end.

Lemma execCommand_frame client command opts :
  preserves service_frame (execCommand client command opts).
Proof.
  intros st. unfold execCommand.
  destruct (ssh_exec _ _ _ _); apply service_frame_log_io.
Qed.

Lemma getCurrentDirectory_frame connectionId :
  preserves service_frame (getCurrentDirectory connectionId).
Proof.
  unfold getCurrentDirectory. repeat frame_step.
  apply execCommand_frame.
Qed.

Lemma getCredentials_frame id : preserves service_frame (getCredentials id).
Proof. unfold getCredentials. repeat frame_step. Qed.

Lemma record_docker_context_frame dockerCmd connectionId :
  preserves service_frame (record_docker_context dockerCmd connectionId).
Proof.
  unfold record_docker_context. repeat frame_step.
  apply preserves_modify. intros st. apply service_frame_sessions.
Qed.

Lemma docker_exec_loop_frame client connectionId parsedCommand opts cmds :
  forall acc st,
    service_frame st
      (snd (docker_exec_loop client connectionId parsedCommand opts cmds acc st)).
Proof.
  induction cmds as [|dockerCmd rest IH]; intros acc st; cbn [docker_exec_loop].
  - apply service_frame_refl.
  - pose proof (execCommand_frame client
      (default [] (head (buildContainerCommand
                           (with_dockerCommands parsedCommand [dockerCmd]) None)))
      opts st) as Hexec.
    destruct (execCommand _ _ _ st) as [[result|message|] st1];
      cbn [snd] in *; [|assumption..].
    pose proof (record_docker_context_frame dockerCmd connectionId st1) as Hrec.
    destruct (negb _); cbn [snd].
    + eapply service_frame_trans; eassumption.
    + eapply service_frame_trans; [eassumption|].
      eapply service_frame_trans; [eassumption|apply IH].
Qed.

Lemma executeDockerContextCommand_frame connectionId parsedCommand options :
  preserves service_frame
    (executeDockerContextCommand connectionId parsedCommand options).
Proof.
  intros st. unfold executeDockerContextCommand.
  destruct (connections st !! connectionId) as [connection|];
    [|apply service_frame_refl].
  destruct (conn_client connection) as [client|]; [|apply service_frame_refl].
  match goal with
  | |- context [docker_exec_loop ?c ?i ?p ?o ?l ?a st] =>
    pose proof (docker_exec_loop_frame c i p o l a st) as Hloop;
    destruct (docker_exec_loop c i p o l a st) as [[acc [message|]] st1]
  end; cbn [snd] in *; [assumption|].
  destruct (_ && _ && _); [|assumption].
  match goal with
  | |- context [execCommand ?c ?cmd ?o st1] =>
    pose proof (execCommand_frame c cmd o st1) as Hexec;
    destruct (execCommand c cmd o st1) as [[result|message|] st2]
  end; cbn [snd] in *.
  - eapply service_frame_trans; [eassumption|].
    eapply service_frame_trans; [eassumption|apply service_frame_sessions].
  - eapply service_frame_trans; eassumption.
  - eapply service_frame_trans; eassumption.
Qed.

Lemma execute_plain_frame connectionId connection client parsedCommand command
    options :
  preserves service_frame
    (execute_plain connectionId connection client parsedCommand command options).
Proof.
  unfold execute_plain. repeat frame_step;
    auto using execCommand_frame, getCredentials_frame,
      getCurrentDirectory_frame, record_docker_context_frame.
  all: try (apply preserves_modify; intros st; apply service_frame_dir).
Qed.

Lemma executeCommand_try_frame self connectionId connection client command options :
  (forall c o, preserves service_frame (self connectionId c o)) ->
  preserves service_frame
    (executeCommand_try self connectionId connection client command options).
Proof.
  intros Hself. unfold executeCommand_try. repeat frame_step;
    auto using executeDockerContextCommand_frame, execute_plain_frame.
Qed.

Lemma executeCommand_frame fuel : forall connectionId command options,
  preserves service_frame (executeCommand fuel connectionId command options).
Proof.
  induction fuel as [|fuel IH]; intros connectionId command options;
    cbn [executeCommand].
  - intros st. apply service_frame_refl.
  - repeat frame_step.
    + apply executeCommand_try_frame. intros c o. apply IH.
    + unfold executeCommand_catch. frame_step.
Qed.

(** Command execution keeps a live connection live, with its client. *)
Lemma service_frame_live st st' connectionId connection client :
  service_frame st st' ->
  live_connection connectionId st = Some (connection, client) ->
  exists connection',
    live_connection connectionId st' = Some (connection', client)
    /\ erase_dir connection' = erase_dir connection.
Proof.
  intros (H & _) Hlive. unfold live_connection in *. specialize (H connectionId).
  destruct (connections st !! connectionId) as [c|]; [|discriminate].
  destruct (connections st' !! connectionId) as [c'|]; [|discriminate].
  assert (He : erase_dir c' = erase_dir c) by (simpl in H; congruence).
  assert (Hcl : conn_client c' = conn_client c)
    by (change (conn_client (erase_dir c') = conn_client (erase_dir c)); congruence).
  assert (Hst : conn_status c' = conn_status c)
    by (change (conn_status (erase_dir c') = conn_status (erase_dir c)); congruence).
  rewrite Hcl, Hst. destruct (conn_client c); [|discriminate].
  destruct (is_CONNECTED (conn_status c)); [|discriminate].
  injection Hlive as <- <-. eauto.
Qed.

(** ** Bounded recursion *)

Lemma within_fuel_ret {S A} (a : A) : within_fuel (S := S) (ret a).
Proof. intros st. discriminate. Qed.

Lemma within_fuel_throw {S A} message : within_fuel (S := S) (throw (A := A) message).
Proof. intros st. discriminate. Qed.

Lemma within_fuel_get {S} : within_fuel (S := S) get.
Proof. intros st. discriminate. Qed.

Lemma within_fuel_modify {S} (f : S -> S) : within_fuel (modify f).
Proof. intros st. discriminate. Qed.

Lemma within_fuel_bind {S A B} (m : M S A) (f : A -> M S B) :
  within_fuel m -> (forall a, within_fuel (f a)) -> within_fuel (bind m f).
Proof.
  intros Hm Hf st. unfold bind. specialize (Hm st).
  destruct (m st) as [[a|message|] st']; simpl in *;
    [apply Hf|discriminate|congruence].
Qed.

Lemma within_fuel_try_catch {S A} (m : M S A) h :
  within_fuel m -> (forall message, within_fuel (h message)) ->
  within_fuel (try_catch m h).
Proof.
  intros Hm Hh st. unfold try_catch. specialize (Hm st).
  destruct (m st) as [[a|message|] st']; simpl in *;
    [discriminate|apply Hh|congruence].
Qed.

Ltac fuel_step :=
  lazymatch goal with
  | |- within_fuel (ret _) => apply within_fuel_ret
  | |- within_fuel (throw _) => apply within_fuel_throw
  | |- within_fuel get => apply within_fuel_get
  | |- within_fuel (modify _) => apply within_fuel_modify
  | |- within_fuel (bind _ _) => apply within_fuel_bind; [|intros]
  | |- within_fuel (try_catch _ _) => apply within_fuel_try_catch; [|intros]
  | |- within_fuel (if ?b then _ else _) => destruct b
  | |- within_fuel (match ?x with _ => _ end) => destruct x
  | |- within_fuel (let _ := _ in _) => cbv zeta
  end.

Lemma execCommand_within_fuel client command opts :
  within_fuel (execCommand client command opts).
Proof.
  intros st. unfold execCommand. destruct (ssh_exec _ _ _ _); discriminate.
Qed.

Lemma getCurrentDirectory_within_fuel connectionId :
  within_fuel (getCurrentDirectory connectionId).
Proof.
  unfold getCurrentDirectory. repeat fuel_step. apply execCommand_within_fuel.
Qed.

Lemma record_docker_context_within_fuel dockerCmd connectionId :
  within_fuel (record_docker_context dockerCmd connectionId).
Proof. unfold record_docker_context. repeat fuel_step. Qed.

Lemma executeDockerContextCommand_within_fuel connectionId parsedCommand options :
  within_fuel (executeDockerContextCommand connectionId parsedCommand options).
Proof.
  intros st. unfold executeDockerContextCommand.
  destruct (connections st !! connectionId) as [connection|]; [|discriminate].
  destruct (conn_client connection) as [client|]; [|discriminate].
  destruct (docker_exec_loop _ _ _ _ _ _ _) as [[acc [message|]] st1];
    [discriminate|].
  destruct (_ && _ && _); [|discriminate].
  match goal with
  | |- context [execCommand ?c ?cmd ?o st1] =>
    pose proof (execCommand_within_fuel c cmd o st1) as Hexec;
    destruct (execCommand c cmd o st1) as [[result|message|] st2]
  end; simpl in *; congruence.
Qed.

Lemma execute_plain_within_fuel connectionId connection client parsedCommand
    command options :
  within_fuel
    (execute_plain connectionId connection client parsedCommand command options).
Proof.
  unfold execute_plain, getCredentials. repeat fuel_step;
    auto using execCommand_within_fuel, getCurrentDirectory_within_fuel,
      record_docker_context_within_fuel.
Qed.

(** The wrapped command is a docker exec command, or compound: never a
    regular one. The proof reads the pattern on the text after the first
    [docker exec]. *)

Lemma trimStart_app_nonspace u b v :
  is_space b = false -> trimStart (u ++ b :: v) = trimStart u ++ b :: v.
Proof.
  intros Hb. induction u as [|c u IH]; simpl.
  - rewrite Hb. reflexivity.
  - destruct (is_space c); [exact IH|reflexivity].
Qed.

Lemma trimEnd_app_nonspace a b q :
  is_space b = false -> trimEnd (a ++ b :: q) = a ++ b :: trimEnd q.
Proof.
  intros Hb. unfold trimEnd.
  rewrite rev_app_distr. simpl. rewrite <- app_assoc. simpl.
  rewrite trimStart_app_nonspace by exact Hb.
  rewrite rev_app_distr. simpl. rewrite rev_involutive, <- app_assoc.
  reflexivity.
Qed.

Lemma trim_cons_nonspace c s :
  is_space c = false -> trim (c :: s) = c :: trimEnd s.
Proof.
  intros Hc. unfold trim. simpl. rewrite Hc.
  apply (trimEnd_app_nonspace [] c s Hc).
Qed.

Lemma reaches_triple a s b q : forall p phase,
  phase <= 2 -> is_space a = false -> is_space s = true -> is_space b = false ->
  reaches_second_word phase (p ++ a :: s :: b :: q) = true.
Proof.
  induction p as [|c p IH]; intros phase Hph Ha Hs Hb.
  - destruct phase as [|[|[|]]]; try lia; simpl; rewrite ?Ha, ?Hs, ?Hb; reflexivity.
  - destruct phase as [|[|[|]]]; try lia; simpl; destruct (is_space c);
      try reflexivity; apply IH; auto.
Qed.

Lemma reaches_phase2 s :
  reaches_second_word 2 s = true ->
  exists w c rest, s = w ++ c :: rest /\ Forall (fun x => is_space x = true) w
                   /\ is_space c = false.
Proof.
  induction s as [|x s IH]; simpl; [discriminate|].
  destruct (is_space x) eqn:Hx.
  - intros H. apply IH in H as (w & c & rest & -> & Hw & Hc).
    exists (x :: w), c, rest. auto.
  - intros _. exists [], x, s. auto.
Qed.

Lemma reaches_phase1 s :
  reaches_second_word 1 s = true ->
  exists t w c rest,
    s = t ++ w ++ c :: rest /\ Forall (fun x => is_space x = false) t
    /\ w <> [] /\ Forall (fun x => is_space x = true) w /\ is_space c = false.
Proof.
  induction s as [|x s IH]; simpl; [discriminate|].
  destruct (is_space x) eqn:Hx.
  - intros H. apply reaches_phase2 in H as (w & c & rest & -> & Hw & Hc).
    exists [], (x :: w), c, rest. repeat split; auto; try discriminate.
  - intros H. apply IH in H as (t & w & c & rest & -> & Ht & Hne & Hw & Hc).
    exists (x :: t), w, c, rest. repeat split; auto.
Qed.

Lemma reaches_phase0 s :
  reaches_second_word 0 s = true ->
  exists w1 t w c rest,
    s = w1 ++ t ++ w ++ c :: rest /\ Forall (fun x => is_space x = true) w1
    /\ t <> [] /\ Forall (fun x => is_space x = false) t
    /\ w <> [] /\ Forall (fun x => is_space x = true) w /\ is_space c = false.
Proof.
  induction s as [|x s IH]; simpl; [discriminate|].
  destruct (is_space x) eqn:Hx.
  - intros H. apply IH in H as (w1 & t & w & c & rest & -> & H1 & ? & ? & ? & ? & ?).
    exists (x :: w1), t, w, c, rest. repeat split; auto.
  - intros H. apply reaches_phase1 in H as (t & w & c & rest & -> & ? & ? & ? & ?).
    exists [], (x :: t), w, c, rest. repeat split; auto; try discriminate.
Qed.

Lemma matches_star_class f g w : forall p s,
  Forall (fun x => f x = true) w ->
  matches (RStar g (RChar f)) p (w ++ s) (prev_after p w) s.
Proof.
  induction w as [|c w IH]; intros p s Hw.
  - constructor.
  - inversion Hw; subst. eapply m_star_cons.
    + constructor. assumption.
    + change (length (w ++ s) < S (length (w ++ s))). lia.
    + replace (prev_after p (c :: w)) with (prev_after (Some c) w);
        [apply IH; assumption|].
      change (c :: w) with ([c] ++ w). rewrite prev_after_app. reflexivity.
Qed.

Lemma matches_plus_class f w p s :
  w <> [] -> Forall (fun x => f x = true) w ->
  matches (rplus (RChar f)) p (w ++ s) (prev_after p w) s.
Proof.
  intros Hne Hw. destruct w as [|c w]; [congruence|]. inversion Hw; subst.
  unfold rplus. econstructor.
  - constructor. assumption.
  - replace (prev_after p (c :: w)) with (prev_after (Some c) w);
      [apply matches_star_class; assumption|].
    change (c :: w) with ([c] ++ w). rewrite prev_after_app. reflexivity.
Qed.

Lemma matches_rlit_ci w : forall p s,
  matches (rlit_ci w) p (w ++ s) (prev_after p w) s.
Proof.
  induction w as [|c w IH]; intros p s.
  - constructor.
  - unfold rlit_ci in *. rewrite fmap_cons. apply matches_rseq_cons.
    exists (Some c), (w ++ s). split.
    + constructor. unfold eq_ci. apply N.eqb_refl.
    + replace (prev_after p (c :: w)) with (prev_after (Some c) w); [apply IH|].
      change (c :: w) with ([c] ++ w). rewrite prev_after_app. reflexivity.
Qed.

Lemma line_terminator_is_space c : is_line_terminator c = true -> is_space c = true.
Proof.
  unfold is_line_terminator. rewrite !orb_true_iff, !N.eqb_eq.
  intros [[[->| ->]| ->]| ->]; reflexivity.
Qed.

Lemma docker_exec_shape y c0 y' :
  y = c0 :: y' -> is_space c0 = true -> reaches_second_word 0 y = true ->
  isDockerExecCommand (js "docker exec" ++ y) = true.
Proof.
  intros Hy Hc0 Hr.
  apply reaches_phase0 in Hr
    as (w1 & t & w & c & rest & Hs & Hw1 & Ht & Hnt & Hw & Hsw & Hc).
  assert (w1 <> []) as Hne1.
  { intros ->. subst y. destruct t as [|x t]; [congruence|].
    simpl in Hs. injection Hs as -> _. inversion Hnt; subst. congruence. }
  clear Hy. subst y.
  apply regex_test_true. exists [], (js "docker exec" ++ w1 ++ t ++ w ++ c :: rest).
  eexists _, rest. split; [reflexivity|].
  change (js "docker exec") with (js "docker" ++ [32%N] ++ js "exec").
  rewrite <- !app_assoc. unfold DOCKER_EXEC_REGEX.
  apply matches_rseq_cons. eexists _, _. split; [apply matches_rlit_ci|].
  apply matches_rseq_cons. eexists _, _. split.
  { apply (matches_plus_class is_space [32%N]); [discriminate|].
    repeat constructor. }
  apply matches_rseq_cons. eexists _, _. split; [apply matches_rlit_ci|].
  apply matches_rseq_cons. eexists _, _. split.
  { apply (matches_plus_class is_space w1); assumption. }
  apply matches_rseq_cons. eexists _, _. split.
  { constructor. unfold docker_options, rstar. constructor. }
  apply matches_rseq_cons. eexists _, _. split; [constructor|].
  apply matches_rseq_cons. eexists _, _. split.
  { constructor. apply (matches_plus_class (fun c => negb (is_space c)) t);
      [assumption|].
    eapply Forall_impl; [exact Hnt|]. simpl. intros x ->. reflexivity. }
  apply matches_rseq_cons. eexists _, _. split.
  { apply (matches_plus_class is_space w); assumption. }
  apply matches_rseq_cons. eexists _, _. split.
  { constructor.
    apply (matches_plus_class (fun c => negb (is_line_terminator c)) [c] _ rest);
      [discriminate|].
    constructor; [|constructor].
    destruct (is_line_terminator c) eqn:E; [|reflexivity].
    apply line_terminator_is_space in E. congruence. }
  constructor.
Qed.

(** The options [buildContainerExecCommand] writes start with a blank. *)
Lemma container_options_head session :
  let opts :=
    (match session with
     | Some s => if truthy (cs_workingDirectory s)
                 then js " -w " ++ cs_workingDirectory s else []
     | None => []
     end)
    ++ (match session with
        | Some s => if truthy_opt (cs_user s)
                    then js " -u " ++ default [] (cs_user s) else []
        | None => []
        end)
    ++ (match session with
        | Some s => concat ((fun kv => js " -e " ++ fst kv ++ js "=" ++ [dq]
                                        ++ snd kv ++ [dq]) <$> cs_environment s)
        | None => []
        end) in
  opts = [] \/ exists rest, opts = 32%N :: rest.
Proof.
  destruct session as [s|]; [|left; reflexivity]. cbv zeta.
  destruct (truthy (cs_workingDirectory s)); [right; eexists; reflexivity|].
  destruct (truthy_opt (cs_user s)); [right; eexists; reflexivity|].
  destruct (cs_environment s) as [|kv env]; [left; reflexivity|].
  right. eexists. reflexivity.
Qed.

Lemma wrapped_shape opts container z :
  opts = [] \/ (exists rest, opts = 32%N :: rest) ->
  isDockerExecCommand
    (trim (js "docker exec" ++ opts ++ js " " ++ container ++ js " "
           ++ js "docker exec" ++ z)) = true.
Proof.
  intros Hopts.
  change (js "docker exec" ++ z)
    with (js "docker " ++ 101%N :: (js "xec" ++ z)).
  replace (js "docker exec" ++ opts ++ js " " ++ container ++ js " "
           ++ js "docker " ++ 101%N :: js "xec" ++ z)
    with (100%N :: (js "ocker exec" ++ opts ++ js " " ++ container ++ js " "
          ++ js "docker ") ++ 101%N :: (js "xec" ++ z))
    by (rewrite <- !app_assoc; reflexivity).
  rewrite trim_cons_nonspace by reflexivity.
  rewrite trimEnd_app_nonspace by reflexivity.
  set (q := trimEnd (js "xec" ++ z)).
  replace (100%N :: (js "ocker exec" ++ opts ++ js " " ++ container ++ js " "
           ++ js "docker ") ++ 101%N :: q)
    with (js "docker exec"
          ++ (opts ++ js " " ++ container ++ js " " ++ js "docke")
          ++ 114%N :: 32%N :: 101%N :: q)
    by (rewrite <- !app_assoc; reflexivity).
  destruct Hopts as [->|[rest ->]].
  - eapply (docker_exec_shape _ 32%N); [reflexivity|reflexivity|].
    apply (reaches_triple 114%N 32%N 101%N q
             ([] ++ js " " ++ container ++ js " " ++ js "docke") 0);
      [lia|reflexivity..].
  - eapply (docker_exec_shape _ 32%N); [reflexivity|reflexivity|].
    apply (reaches_triple 114%N 32%N 101%N q
             ((32%N :: rest) ++ js " " ++ container ++ js " " ++ js "docke") 0);
      [lia|reflexivity..].
Qed.

Lemma wrapped_docker_exec_matches container session z :
  isDockerExecCommand
    (trim (buildContainerExecCommand container (js "docker exec" ++ z)
             session false)) = true.
Proof.
  unfold buildContainerExecCommand.
  pose proof (container_options_head session) as Hopts. cbv zeta in Hopts.
  match type of Hopts with
  | ?a ++ ?b ++ ?c = [] \/ _ =>
    replace (js "docker exec" ++ [] ++ a ++ b ++ c ++ js " " ++ container
             ++ js " " ++ js "docker exec" ++ z)
      with (js "docker exec" ++ (a ++ b ++ c) ++ js " " ++ container
            ++ js " " ++ js "docker exec" ++ z)
      by (rewrite <- !app_assoc; reflexivity)
  end.
  apply wrapped_shape, Hopts.
Qed.

Lemma parse_docker_not_regular command :
  isDockerExecCommand (trim command) = true ->
  is_type regular (parseCommand command) = false.
Proof.
  intros H. unfold parseCommand.
  destruct (isCompoundCommand (trim command)).
  - unfold parseCompoundCommand. destruct (compound_loop _ _ _ _) as [[? ?] ?].
    reflexivity.
  - rewrite H. reflexivity.
Qed.

Lemma wrapped_twice_not_regular container session container' session' command :
  is_type regular
    (parseCommand
       (buildContainerExecCommand container'
          (buildContainerExecCommand container command session false)
          session' false)) = false.
Proof.
  apply parse_docker_not_regular.
  unfold buildContainerExecCommand at 2. apply wrapped_docker_exec_matches.
Qed.

Lemma executeCommand_try_within_fuel self connectionId connection client
    command options :
  (is_type regular (parseCommand command) = true ->
   forall container session,
     within_fuel (self connectionId
                    (buildContainerExecCommand container command session false)
                    options)) ->
  within_fuel
    (executeCommand_try self connectionId connection client command options).
Proof.
  intros Hself. unfold executeCommand_try.
  apply within_fuel_bind; [apply within_fuel_get|]. intros st.
  destruct (default false _);
    [apply executeDockerContextCommand_within_fuel|].
  destruct (truthy_opt _); cbn [andb]; [|apply execute_plain_within_fuel].
  destruct (is_type regular (parseCommand command)) eqn:E;
    [|apply execute_plain_within_fuel].
  apply Hself. reflexivity.
Qed.

Lemma executeCommand_within_fuel_step self connectionId command options :
  (is_type regular (parseCommand command) = true ->
   forall container session,
     within_fuel (self connectionId
                    (buildContainerExecCommand container command session false)
                    options)) ->
  within_fuel
    (st <- get ;;
     match live_connection connectionId st with
     | None => throw (not_connected_message connectionId)
     | Some (connection, client) =>
       try_catch
         (executeCommand_try self connectionId connection client command options)
         executeCommand_catch
     end).
Proof.
  intros Hself. apply within_fuel_bind; [apply within_fuel_get|]. intros st.
  destruct (live_connection connectionId st) as [[connection client]|];
    [|apply within_fuel_throw].
  apply within_fuel_try_catch.
  - apply executeCommand_try_within_fuel, Hself.
  - intros message. apply within_fuel_ret.
Qed.

(** Three levels are enough: what the method wraps twice is not a regular
    command any more. *)
Lemma executeCommand_within_fuel fuel connectionId command options :
  3 <= fuel -> within_fuel (executeCommand fuel connectionId command options).
Proof.
  intros Hfuel. destruct fuel as [|[|[|fuel]]]; try lia.
  cbn [executeCommand]. apply executeCommand_within_fuel_step.
  intros _ container session.
  apply executeCommand_within_fuel_step.
  intros _ container' session'.
  apply executeCommand_within_fuel_step.
  intros Hreg. rewrite wrapped_twice_not_regular in Hreg. discriminate.
Qed.

Lemma executeCommand_live_no_throw fuel connectionId command options st
    connection client message :
  live_connection connectionId st = Some (connection, client) ->
  fst (executeCommand fuel connectionId command options st) <> Throw message.
Proof.
  intros Hlive. destruct fuel as [|fuel]; cbn [executeCommand]; [discriminate|].
  unfold bind at 1, get, try_catch, executeCommand_catch, ret. rewrite Hlive.
  destruct (executeCommand_try _ _ _ _ _ _ st) as [[result|m|] st'];
    discriminate.
Qed.

Lemma executeCommand_live_returns fuel connectionId command options st
    connection client :
  3 <= fuel ->
  live_connection connectionId st = Some (connection, client) ->
  exists result, fst (executeCommand fuel connectionId command options st) = Ret result.
Proof.
  intros Hfuel Hlive.
  pose proof (executeCommand_within_fuel fuel connectionId command options
                Hfuel st) as Hf.
  pose proof (fun m => executeCommand_live_no_throw fuel connectionId command
                         options st connection client m Hlive) as Ht.
  destruct (fst (executeCommand fuel connectionId command options st))
    as [result|m|].
  - exists result. reflexivity.
  - exfalso. apply (Ht m). reflexivity.
  - exfalso. apply Hf. reflexivity.
Qed.

Lemma executeCommand_not_connected fuel connectionId command options st :
  live_connection connectionId st = None ->
  executeCommand (S fuel) connectionId command options st
  = (Throw (not_connected_message connectionId), st).
Proof.
  intros Hlive. cbn [executeCommand]. unfold bind, get, throw.
  rewrite Hlive. reflexivity.
Qed.

Lemma live_connection_log_io connectionId ev st :
  live_connection connectionId (log_io ev st) = live_connection connectionId st.
Proof. reflexivity. Qed.

Lemma getCurrentDirectory_run connectionId st connection client :
  live_connection connectionId st = Some (connection, client) ->
  getCurrentDirectory connectionId st
  = (Ret (match ssh_exec (history st) client (js "pwd")
                  {| cwd := None; timeout := None |} with
          | ExecResolved out _ _ => trim out
          | ExecRejected _ => []
          end),
     log_io (IoExec client (js "pwd") {| cwd := None; timeout := None |}) st).
Proof.
  intros Hlive. unfold getCurrentDirectory. rewrite bind_get, Hlive.
  unfold try_catch, bind, execCommand.
  destruct (ssh_exec _ _ _ _); reflexivity.
Qed.





(** ** Sudo (C4) *)

Lemma sudo_rewrite_not_cd password command :
  startsWith (trim (sudo_rewrite password command)) (js "cd ") = false.
Proof.
  unfold sudo_rewrite.
  change (js "echo " ++ [dq] ++ password ++ [dq] ++ js " | "
          ++ regex_replace_all SUDO_WORD (js "sudo -S") command
          ++ js " 2>/dev/null")
    with (101%N :: (js "cho " ++ [dq] ++ password ++ [dq] ++ js " | "
          ++ regex_replace_all SUDO_WORD (js "sudo -S") command
          ++ js " 2>/dev/null")).
  rewrite trim_cons_nonspace by reflexivity. reflexivity.
Qed.

Lemma record_docker_context_history dockerCmd connectionId st :
  history (snd (record_docker_context dockerCmd connectionId st)) = history st.
Proof. reflexivity. Qed.

(** C4, as the code has it: a command whose trimmed text starts with
    [sudo ] or which holds [ sudo ] between blanks, and which reaches the
    execution step, is sent to the remote with every [sudo] at a word
    boundary rewritten to [sudo -S], after [echo "<password>" | ] and
    before [ 2>/dev/null], when the configuration or the credential store
    holds a password. [sudo -n id] with password [p] becomes
    [echo "p" | sudo -S -n id 2>/dev/null]. *)
Theorem executeCommand_sudo_rewrite fuel connectionId command options st
    connection client password :
  live_connection connectionId st = Some (connection, client) ->
  reaches_execution connectionId command st = true ->
  is_sudo_command command = true ->
  stored_password connection st = Some password ->
  password <> [] ->
  history (snd (executeCommand (S fuel) connectionId command options st))
  = history st ++ [IoExec client (sudo_rewrite password command)
                     (exec_options connection options)]
  /\ sudo_rewrite password command
     = js "echo " ++ [dq] ++ password ++ [dq] ++ js " | "
       ++ regex_replace_all SUDO_WORD (js "sudo -S") command ++ js " 2>/dev/null"
  /\ is_sudo_command (js "sudo -n id") = true
  /\ sudo_rewrite (js "p") (js "sudo -n id")
     = js "echo " ++ [dq] ++ js "p" ++ [dq] ++ js " | sudo -S -n id 2>/dev/null".
Proof.
  intros Hlive Hreach Hsudo Hpw Hne.
  split; [|split; [reflexivity|split; vm_compute; reflexivity]].
  unfold reaches_execution in Hreach.
  apply andb_true_iff in Hreach as [Hctx Hwrap].
  apply negb_true_iff in Hctx, Hwrap.
  cbn [executeCommand]. unfold bind at 1, get. rewrite Hlive.
  unfold try_catch, executeCommand_try, bind at 1, get. rewrite Hctx, Hwrap.
  unfold execute_plain. rewrite Hsudo.
  assert (Htruthy : truthy_opt (Some password) = true)
    by (destruct password; [congruence|reflexivity]).
  unfold stored_password in Hpw.
  assert (Hcmd : forall st0,
    credentialStore st0 = credentialStore st ->
    (if truthy_opt (cfg_password (conn_config connection))
     then ret (cfg_password (conn_config connection))
     else savedCredentials <- getCredentials (conn_id connection) ;;
          ret (cred_password savedCredentials)) st0
    = (Ret (Some password), st0)).
  { intros st0 Hst0. destruct (truthy_opt (cfg_password (conn_config connection))).
    - rewrite Hpw. reflexivity.
    - unfold getCredentials, bind, get, ret. rewrite Hst0, Hpw. reflexivity. }
  unfold bind at 1. unfold bind at 1. rewrite (Hcmd st eq_refl).
  rewrite Htruthy. unfold ret at 1. cbn [default].
  unfold bind at 1. unfold execCommand.
  rewrite sudo_rewrite_not_cd.
  destruct (ssh_exec (history st) client _ _) as [out err exit|message].
  - unfold bind at 1. unfold ret at 1. unfold bind at 1.
    destruct (is_type docker_exec (parseCommand command)).
    + destruct (pc_dockerCommands (parseCommand command)) as [|dockerCmd l].
      * reflexivity.
      * unfold bind. 
        destruct (record_docker_context dockerCmd connectionId _) as [[[]| |] st2] eqn:E;
          apply (f_equal snd) in E; cbn [snd] in E; rewrite <- E; reflexivity.
    + reflexivity.
  - reflexivity.
Qed.

(** ** The container context (C3) *)

Lemma jseqb_eq a b : jseqb a b = true <-> a = b.
Proof. unfold jseqb. apply bool_decide_eq_true. Qed.

Lemma jseqb_refl a : jseqb a a = true.
Proof. apply jseqb_eq. reflexivity. Qed.

Lemma map_get_set {V} k (v : V) m : map_get k (map_set k v m) = Some v.
Proof.
  induction m as [|[k' v'] m IH]; simpl.
  - rewrite jseqb_refl. reflexivity.
  - destruct (jseqb k' k) eqn:E; simpl; rewrite E; [reflexivity|exact IH].
Qed.

Lemma map_set_idem {V} k (v : V) m : map_set k v (map_set k v m) = map_set k v m.
Proof.
  induction m as [|[k' v'] m IH]; simpl.
  - rewrite jseqb_refl. reflexivity.
  - destruct (jseqb k' k) eqn:E; simpl; rewrite E; [reflexivity|].
    rewrite IH. reflexivity.
Qed.

Lemma map_set_elem {V} k (v : V) m kv :
  kv ∈ map_set k v m -> kv ∈ m \/ snd kv = v.
Proof.
  induction m as [|[k' v'] m IH]; simpl.
  - intros H. apply list_elem_of_singleton in H as ->. right. reflexivity.
  - destruct (jseqb k' k) eqn:E; intros H; apply elem_of_cons in H as [->|H].
    + right. reflexivity.
    + left. right. exact H.
    + left. left.
    + destruct (IH H) as [?|?]; [left; right; assumption|right; assumption].
Qed.

Lemma map_set_has {V} k (v : V) m : exists k', (k', v) ∈ map_set k v m.
Proof.
  induction m as [|[k' v'] m IH]; simpl.
  - exists k. left.
  - destruct (jseqb k' k).
    + exists k'. left.
    + destruct IH as [k'' H]. exists k''. right. exact H.
Qed.

Lemma updateActivity_after_set now connectionId containerName wd env user sessions :
  updateActivity now connectionId containerName
    (setContainerContext now connectionId containerName wd env user sessions)
  = setContainerContext now connectionId containerName wd env user sessions.
Proof.
  unfold updateActivity, getContainerContext, setContainerContext.
  rewrite map_get_set. cbn. apply map_set_idem.
Qed.

(** The session set last, later than every other one, is the active one. *)
Lemma active_loop_latest connectionId session now sessions :
  cs_connectionId session = connectionId -> cs_isActive session = true ->
  cs_lastActivity session = now ->
  (forall kv, kv ∈ sessions ->
     snd kv = session \/ (cs_lastActivity (snd kv) < now)%Z) ->
  forall activeContainer latestActivity,
    ((latestActivity < now)%Z /\ (exists k, (k, session) ∈ sessions)
     \/ latestActivity = now /\ activeContainer = Some (cs_containerName session)) ->
    active_loop connectionId sessions activeContainer latestActivity
    = Some (cs_containerName session).
Proof.
  intros Hid Hact Hnow. induction sessions as [|[k s] sessions IH];
    intros Hall activeContainer latestActivity Hinv; cbn [active_loop].
  - destruct Hinv as [[_ [k H]]|[_ ->]]; [inversion H|reflexivity].
  - assert (Hall' : forall kv, kv ∈ sessions ->
              snd kv = session \/ (cs_lastActivity (snd kv) < now)%Z)
      by (intros kv Hkv; apply Hall; right; exact Hkv).
    destruct (Hall (k, s)) as [Hs|Hs]; [left|..]; cbn [snd] in Hs.
    + subst s. rewrite Hid, jseqb_refl, Hact, Hnow. cbn [andb].
      destruct Hinv as [[Hlt _]|[-> ->]].
      * destruct (Z.ltb_spec latestActivity now); [|lia].
        apply IH; [exact Hall'|]. right. auto.
      * rewrite Z.ltb_irrefl. apply IH; [exact Hall'|]. right. auto.
    + destruct (jseqb (cs_connectionId s) connectionId && cs_isActive s
                && (latestActivity <? cs_lastActivity s)%Z) eqn:E.
      * apply IH; [exact Hall'|]. left. split; [exact Hs|].
        destruct Hinv as [[_ [k' Hin]]|[-> _]].
        -- apply elem_of_cons in Hin as [Heq|Hin]; [|eauto].
           injection Heq as -> ->. lia.
        -- apply andb_true_iff in E as [_ E]. apply Z.ltb_lt in E. lia.
      * apply IH; [exact Hall'|].
        destruct Hinv as [[Hlt [k' Hin]]|[-> ->]]; [left|right; auto].
        split; [exact Hlt|].
        apply elem_of_cons in Hin as [Heq|Hin]; [|eauto].
        injection Heq as -> ->. lia.
Qed.

Lemma parse_docker_exec_web :
  parseCommand (js "docker exec -w /srv -u www-data web ls")
  = {| pc_type := docker_exec;
       pc_originalCommand := js "docker exec -w /srv -u www-data web ls";
       pc_dockerCommands :=
         [{| dc_containerName := js "web"; dc_command := js "ls";
             dc_options := []; dc_workdir := Some (js "/srv");
             dc_user := Some (js "www-data"); dc_env := [] |}];
       pc_regularCommands := [];
       pc_needsContainerContext := None |}.
Proof. vm_compute. reflexivity. Qed.

Lemma executeCommand_wrap fuel connectionId command options st connection
    client container :
  live_connection connectionId st = Some (connection, client) ->
  getActiveContainer connectionId (containerSessions st) = Some container ->
  container <> [] ->
  pc_type (parseCommand command) = regular ->
  executeCommand (S fuel) connectionId command options st
  = executeCommand fuel connectionId
      (buildContainerExecCommand container command
         (getContainerContext connectionId container (containerSessions st)) false)
      options st.
Proof.
  intros Hlive Hactive Hne Hreg.
  assert (Hctx : default false (pc_needsContainerContext (parseCommand command))
                 = false).
  { rewrite parseCommand_needs_none; [reflexivity|].
    rewrite Hreg. discriminate. }
  assert (Hty : is_type regular (parseCommand command) = true)
    by (unfold is_type; rewrite Hreg; reflexivity).
  cbn [executeCommand]. unfold bind at 1, get. rewrite Hlive.
  unfold try_catch, executeCommand_try, bind at 1, get.
  rewrite Hctx, Hactive, Hty.
  replace (truthy_opt (Some container)) with true
    by (destruct container; [congruence|reflexivity]).
  cbn [andb default].
  pose proof (fun m => executeCommand_live_no_throw fuel connectionId
    (buildContainerExecCommand container command
       (getContainerContext connectionId container (containerSessions st)) false)
    options st connection client m Hlive) as Hnt.
  destruct (executeCommand fuel connectionId _ options st) as [[r|m|] st'];
    [reflexivity|exfalso; apply (Hnt m); reflexivity|reflexivity].
Qed.

(** C3: with an active container, a command that parses as regular is
    executed as [executeCommand] of the active container's docker exec
    form, which carries the session's working directory ([-w]), user
    ([-u]) and environment ([-e]) and ends with the container and the
    command. In particular, once [docker exec -w /srv -u www-data web ls]
    was run (the remote answering, at a time later than zero and than every
    other session's last activity), the active container is [web] with
    working directory [/srv] and user [www-data], and [ls] is executed as
    [docker exec -w /srv -u www-data web ls]. *)
Theorem executeCommand_container_context :
  (forall fuel connectionId command options st connection client container,
     live_connection connectionId st = Some (connection, client) ->
     getActiveContainer connectionId (containerSessions st) = Some container ->
     container <> [] ->
     pc_type (parseCommand command) = regular ->
     executeCommand (S fuel) connectionId command options st
     = executeCommand fuel connectionId
         (buildContainerExecCommand container command
            (getContainerContext connectionId container (containerSessions st))
            false)
         options st
     /\ forall session,
          getContainerContext connectionId container (containerSessions st)
          = Some session ->
          buildContainerExecCommand container command (Some session) false
          = js "docker exec"
            ++ (if truthy (cs_workingDirectory session)
                then js " -w " ++ cs_workingDirectory session else [])
            ++ (if truthy_opt (cs_user session)
                then js " -u " ++ default [] (cs_user session) else [])
            ++ concat ((fun kv => js " -e " ++ fst kv ++ js "=" ++ [dq]
                                    ++ snd kv ++ [dq])
                         <$> cs_environment session)
            ++ js " " ++ container ++ js " " ++ command)
  /\
  (forall fuel fuel' connectionId options st connection client out err exit,
     let command := js "docker exec -w /srv -u www-data web ls" in
     let now := clock (history st ++ [IoExec client command
                                        (exec_options connection options)]) in
     live_connection connectionId st = Some (connection, client) ->
     ssh_exec (history st) client command (exec_options connection options)
     = ExecResolved out err exit ->
     (0 < now)%Z ->
     (forall kv, kv ∈ containerSessions st -> (cs_lastActivity (snd kv) < now)%Z) ->
     let st1 := snd (executeCommand (S fuel') connectionId command options st) in
     getActiveContainer connectionId (containerSessions st1) = Some (js "web")
     /\ (exists session,
           getContainerContext connectionId (js "web") (containerSessions st1)
           = Some session
           /\ cs_workingDirectory session = js "/srv"
           /\ cs_user session = Some (js "www-data"))
     /\ executeCommand (S fuel) connectionId (js "ls") options st1
        = executeCommand fuel connectionId
            (js "docker exec -w /srv -u www-data web ls") options st1).
Proof.
  split.
  - intros fuel connectionId command options st connection client container
      Hlive Hactive Hne Hreg.
    split; [apply (executeCommand_wrap _ _ _ _ _ connection client); assumption|].
    intros session _. unfold buildContainerExecCommand. reflexivity.
  - intros fuel fuel' connectionId options st connection client out err exit
      command now Hlive Hexec Hnow Hold st1.
    set (session :=
      {| cs_connectionId := connectionId; cs_containerName := js "web";
         cs_workingDirectory := js "/srv"; cs_environment := [];
         cs_user := Some (js "www-data"); cs_lastActivity := now;
         cs_isActive := true |}).
    assert (Hst1 : st1 =
      set_containerSessions
        (fun sessions => map_set (sessionKey connectionId (js "web")) session sessions)
        (log_io (IoExec client command (exec_options connection options)) st)).
    { subst st1. cbn [executeCommand]. rewrite bind_get, Hlive.
      assert (Hrun : execCommand client command (exec_options connection options) st
                     = (Ret {| stdout := out; stderr := err; code := exit |},
                        log_io (IoExec client command
                                  (exec_options connection options)) st))
        by (unfold execCommand; rewrite Hexec; reflexivity).
      erewrite try_catch_run; [reflexivity|].
      unfold executeCommand_try. rewrite bind_get.
      subst command. rewrite parse_docker_exec_web.
      cbn [pc_needsContainerContext default].
      replace (is_type regular _) with false by reflexivity.
      rewrite andb_false_r. unfold execute_plain.
      replace (is_sudo_command _) with false by (vm_compute; reflexivity).
      rewrite bind_ret. erewrite bind_run by exact Hrun.
      replace (startsWith (trim _) (js "cd ")) with false
        by (vm_compute; reflexivity).
      rewrite bind_ret.
      replace (is_type docker_exec _) with true by reflexivity.
      cbn [pc_dockerCommands].
      unfold record_docker_context, bind, get, modify, ret. f_equal.
      unfold set_containerSessions, log_io.
      cbn [containerSessions history connections credentialStore
           connectionCollection tunnels next_handle
           dc_containerName dc_workdir dc_env dc_user].
      rewrite updateActivity_after_set. reflexivity. }
    assert (Hget : getContainerContext connectionId (js "web") (containerSessions st1)
                   = Some session).
    { rewrite Hst1. unfold getContainerContext. cbn. apply map_get_set. }
    assert (Hact : getActiveContainer connectionId (containerSessions st1)
                   = Some (js "web")).
    { rewrite Hst1. cbn [containerSessions set_containerSessions log_io].
      apply (active_loop_latest connectionId session now); try reflexivity.
      - intros kv Hkv. apply map_set_elem in Hkv as [Hkv|Hkv]; [|left; exact Hkv].
        right. apply Hold, Hkv.
      - left. split; [exact Hnow|].
        apply map_set_has. }
    split; [exact Hact|]. split; [exists session; auto|].
    destruct (service_frame_live st st1 connectionId connection client)
      as (connection' & Hlive' & _).
    { subst st1. apply executeCommand_frame. }
    { exact Hlive. }
    rewrite (executeCommand_wrap fuel connectionId (js "ls") options st1
               connection' client (js "web") Hlive' Hact);
      [|discriminate|vm_compute; reflexivity].
    rewrite Hget. reflexivity.
Qed.

(** ** The tool handler (C2, C9) *)

Lemma bind_modify {S B} (f : S -> S) (g : unit -> M S B) st :
  bind (modify f) g st = g tt (f st).
Proof. reflexivity. Qed.

(** The text the handler builds always holds the prompt, so it is never
    empty or blank: the guard of the tmux enrichment is never met. *)
Lemma trim_app_nonspace u b v :
  is_space b = false -> truthy (trim (u ++ b :: v)) = true.
Proof.
  intros Hb. unfold trim. rewrite trimStart_app_nonspace by exact Hb.
  rewrite trimEnd_app_nonspace by exact Hb.
  destruct (trimStart u); reflexivity.
Qed.

Lemma render_output_not_blank connection result :
  truthy (render_output connection result) = true
  /\ truthy (trim (render_output connection result)) = true.
Proof.
  unfold render_output. cbv zeta.
  match goal with
  | |- context [?o ++ [nl] ++ (js "[" ++ ?u) ++ ?w] =>
    replace (o ++ [nl] ++ (js "[" ++ u) ++ w)
      with ((o ++ [nl]) ++ 91%N :: u ++ w)
      by (rewrite <- !app_assoc; reflexivity)
  end.
  split; [|apply trim_app_nonspace; reflexivity].
  match goal with |- truthy (?a ++ _) = true => destruct a; reflexivity end.
Qed.

Lemma enrichment_guard_false command connection result :
  isTmuxCommand command && bool_decide (code result = Some 0%Z)
  && (negb (truthy (render_output connection result))
      || negb (truthy (trim (render_output connection result)))) = false.
Proof.
  destruct (render_output_not_blank connection result) as [-> ->].
  apply andb_false_r.
Qed.

Lemma call_executeCommand_run fuel connectionId command options ms r st' :
  executeCommand fuel connectionId command options (sshService ms) = (r, st') ->
  call_executeCommand fuel connectionId command options ms
  = (r, {| sshService := st';
           activeConnections := activeConnections ms;
           service_calls := service_calls ms ++ [(connectionId, command, options)] |}).
Proof. intros H. unfold call_executeCommand. rewrite H. reflexivity. Qed.

Lemma call_executeCommand_frame fuel connectionId command options :
  preserves mcp_frame (call_executeCommand fuel connectionId command options).
Proof.
  intros ms. unfold call_executeCommand.
  pose proof (executeCommand_frame fuel connectionId command options
                (sshService ms)) as H.
  destruct (executeCommand fuel connectionId command options (sshService ms))
    as [r st']. split; [exact H|reflexivity].
Qed.

Lemma tmux_blocked_check_frame fuel connectionId sessionName cwd :
  preserves mcp_frame (tmux_blocked_check fuel connectionId sessionName cwd).
Proof.
  unfold tmux_blocked_check, has_children.
  repeat first [apply call_executeCommand_frame | frame_step].
Qed.

(** After the time is recorded, the handler leaves the dispatcher's record
    of activity alone, and changes the service as command execution does. *)
Lemma executeCommandTool_frame fuel enrich connectionId command cwd timeout force
    ms connection :
  connections (sshService ms) !! connectionId = Some connection ->
  is_CONNECTED (conn_status connection) = true ->
  let ms' := snd (executeCommandTool fuel enrich connectionId command cwd timeout
                    force ms) in
  activeConnections ms'
  = <[connectionId := clock (history (sshService ms))]> (activeConnections ms)
  /\ service_frame (sshService ms) (sshService ms').
Proof.
  intros Hconn Hstatus ms'.
  set (ms0 := {| sshService := sshService ms;
                 activeConnections :=
                   <[connectionId := clock (history (sshService ms))]>
                     (activeConnections ms);
                 service_calls := service_calls ms |}).
  assert (H : mcp_frame ms0 ms'); [|destruct H as [H1 H2]; split; assumption].
  subst ms'. unfold executeCommandTool.
  lazymatch goal with
  | |- context [try_catch (bind get ?F) ?h ms] =>
    change (try_catch (bind get F) h ms) with (try_catch (F ms) h ms)
  end.
  cbv beta. rewrite Hconn, Hstatus. cbn [negb].
  lazymatch goal with
  | |- context [try_catch (bind (touch_active connectionId) ?g) ?h ms] =>
    change (try_catch (bind (touch_active connectionId) g) h ms)
      with (try_catch (g tt) h ms0)
  end.
  cbv beta.
  lazymatch goal with
  | |- mcp_frame ms0 (snd (?m ms0)) => enough (preserves mcp_frame m) by auto
  end.
  repeat first [ apply call_executeCommand_frame
               | apply tmux_blocked_check_frame
               | rewrite enrichment_guard_false
               | frame_step ].
Qed.

Lemma service_frame_lastUsed st st' connectionId connection :
  service_frame st st' ->
  connections st !! connectionId = Some connection ->
  exists connection',
    connections st' !! connectionId = Some connection'
    /\ conn_lastUsed connection' = conn_lastUsed connection.
Proof.
  intros (H & _) Hconn. specialize (H connectionId). rewrite Hconn in H.
  destruct (connections st' !! connectionId) as [c'|]; [|discriminate].
  exists c'. split; [reflexivity|].
  change (conn_lastUsed (erase_dir c') = conn_lastUsed (erase_dir connection)).
  simpl in H. congruence.
Qed.

Lemma live_connection_lookup connectionId st connection client :
  live_connection connectionId st = Some (connection, client) ->
  connections st !! connectionId = Some connection
  /\ is_CONNECTED (conn_status connection) = true.
Proof.
  unfold live_connection. intros H.
  destruct (connections st !! connectionId) as [c|]; [|discriminate].
  destruct (conn_client c); [|discriminate].
  destruct (is_CONNECTED (conn_status c)) eqn:Hs; [|discriminate].
  injection H as <- _. auto.
Qed.

Lemma tmux_blocked_check_not_connected fuel connectionId sessionName cwd ms :
  live_connection connectionId (sshService ms) = None ->
  exists ms',
    tmux_blocked_check (S fuel) connectionId sessionName cwd ms = (Ret None, ms')
    /\ sshService ms' = sshService ms.
Proof.
  intros Hlive. unfold tmux_blocked_check. eexists. split.
  - erewrite try_catch_throws; [reflexivity|].
    erewrite bind_throws; [reflexivity|].
    apply call_executeCommand_run, executeCommand_not_connected, Hlive.
  - reflexivity.
Qed.

Lemma executeCommandTool_not_connected fuel enrich connectionId command cwd
    timeout force ms :
  live_connection connectionId (sshService ms) = None ->
  exists text ms',
    executeCommandTool (S fuel) enrich connectionId command cwd timeout force ms
    = (Ret {| tr_text := text; tr_isError := true |}, ms')
    /\ sshService ms' = sshService ms.
Proof.
  intros Hlive. unfold executeCommandTool.
  lazymatch goal with
  | |- context [try_catch (bind get ?F) ?h ms] =>
    change (try_catch (bind get F) h ms) with (try_catch (F ms) h ms)
  end.
  cbv beta.
  destruct (connections (sshService ms) !! connectionId) as [connection|] eqn:Hconn;
    [|do 2 eexists; split; reflexivity].
  destruct (is_CONNECTED (conn_status connection)) eqn:Hstatus; cbn [negb];
    [|do 2 eexists; split; reflexivity].
  assert (Hmain : forall ms1, sshService ms1 = sshService ms ->
    call_executeCommand (S fuel) connectionId command
      {| cwd := cwd; timeout := timeout |} ms1
    = (Throw (not_connected_message connectionId),
       {| sshService := sshService ms1;
          activeConnections := activeConnections ms1;
          service_calls := service_calls ms1
            ++ [(connectionId, command, {| cwd := cwd; timeout := timeout |})] |})).
  { intros ms1 H1. apply call_executeCommand_run, executeCommand_not_connected.
    rewrite H1. exact Hlive. }
  assert (Hblocked : exists ms1,
    (match regex_match_group tmuxSendKeysRegex 1 command with
     | Some sessionName =>
       if negb (default false force)
       then tmux_blocked_check (S fuel) connectionId
              (default (js "undefined") sessionName) cwd
       else ret None
     | None => ret None
     end)
      {| sshService := sshService ms;
         activeConnections :=
           <[connectionId := clock (history (sshService ms))]> (activeConnections ms);
         service_calls := service_calls ms |} = (Ret None, ms1)
    /\ sshService ms1 = sshService ms).
  { destruct (regex_match_group tmuxSendKeysRegex 1 command) as [sessionName|];
      [|eexists; split; reflexivity].
    destruct (negb (default false force)); [|eexists; split; reflexivity].
    lazymatch goal with
    | |- exists ms1, tmux_blocked_check _ _ ?s _ ?m = _ /\ _ =>
      destruct (tmux_blocked_check_not_connected fuel connectionId s cwd m Hlive)
        as (ms1 & H1 & H2);
      exists ms1; split; [exact H1|exact H2]
    end. }
  destruct Hblocked as (ms1 & Hblocked & Hms1).
  do 2 eexists. split.
  - erewrite try_catch_throws; [reflexivity|].
    unfold touch_active. rewrite bind_modify. cbv beta.
    eapply bind_step; [exact Hblocked|]. cbv beta iota.
    eapply bind_throws. apply Hmain, Hms1.
  - exact Hms1.
Qed.

(** C9, as the code has it: the service's [executeCommand] rejects, with
    the state as it was, when the connection is missing, has no client or
    is not connected, and the tool handler then answers with an error
    result without contacting the service's remote. On a connected
    connection the handler records the time of the call under the
    connection's id in its own [activeConnections]; the [lastUsed] of the
    connection record is what it was, after the service's call and after
    the handler's. *)
Theorem executeCommand_connected_only fuel enrich connectionId command options
    cwd timeout force :
  (forall st,
     live_connection connectionId st = None ->
     executeCommand (S fuel) connectionId command options st
     = (Throw (not_connected_message connectionId), st))
  /\ (forall ms,
        live_connection connectionId (sshService ms) = None ->
        exists text ms',
          executeCommandTool (S fuel) enrich connectionId command cwd timeout
            force ms
          = (Ret {| tr_text := text; tr_isError := true |}, ms')
          /\ sshService ms' = sshService ms)
  /\ (forall st connection client,
        live_connection connectionId st = Some (connection, client) ->
        exists connection',
          connections (snd (executeCommand fuel connectionId command options st))
            !! connectionId = Some connection'
          /\ conn_lastUsed connection' = conn_lastUsed connection)
  /\ (forall ms connection client,
        live_connection connectionId (sshService ms) = Some (connection, client) ->
        let ms' := snd (executeCommandTool fuel enrich connectionId command cwd
                          timeout force ms) in
        activeConnections ms' !! connectionId
        = Some (clock (history (sshService ms)))
        /\ exists connection',
             connections (sshService ms') !! connectionId = Some connection'
             /\ conn_lastUsed connection' = conn_lastUsed connection).
Proof.
  split; [|split; [|split]].
  - intros st. apply executeCommand_not_connected.
  - intros ms. apply executeCommandTool_not_connected.
  - intros st connection client Hlive.
    apply live_connection_lookup in Hlive as [Hconn _].
    eapply service_frame_lastUsed; [apply executeCommand_frame|exact Hconn].
  - intros ms connection client Hlive ms'.
    apply live_connection_lookup in Hlive as [Hconn Hstatus].
    destruct (executeCommandTool_frame fuel enrich connectionId command cwd
                timeout force ms connection Hconn Hstatus) as [Hac Hframe].
    fold ms' in Hac, Hframe. split.
    + rewrite Hac. apply lookup_insert_eq.
    + eapply service_frame_lastUsed; [exact Hframe|exact Hconn].
Qed.

Lemma executeCommand_keeps_live fuel connectionId connectionId' command options
    st r st' connection client :
  executeCommand fuel connectionId' command options st = (r, st') ->
  live_connection connectionId st = Some (connection, client) ->
  exists connection', live_connection connectionId st' = Some (connection', client).
Proof.
  intros Hrun Hlive.
  pose proof (executeCommand_frame fuel connectionId' command options st) as Hf.
  rewrite Hrun in Hf.
  destruct (service_frame_live _ _ _ _ _ Hf Hlive) as (c' & Hc' & _). eauto.
Qed.

Lemma executeCommand_live_step fuel connectionId command options st connection
    client :
  3 <= fuel ->
  live_connection connectionId st = Some (connection, client) ->
  exists result st' connection',
    executeCommand fuel connectionId command options st = (Ret result, st')
    /\ live_connection connectionId st' = Some (connection', client).
Proof.
  intros Hfuel Hlive.
  destruct (executeCommand_live_returns fuel connectionId command options st
              connection client Hfuel Hlive) as (result & Hres).
  destruct (executeCommand fuel connectionId command options st) as [o st'] eqn:Hrun.
  simpl in Hres. subst o.
  destruct (executeCommand_keeps_live _ _ _ _ _ _ _ _ _ _ Hrun Hlive) as (c' & Hc').
  eauto.
Qed.


(** The handler's first steps on a connected connection: the checks pass
    and the time is recorded. *)
Lemma executeCommandTool_enter fuel enrich connectionId command cwd timeout force
    ms connection client r ms' :
  live_connection connectionId (sshService ms) = Some (connection, client) ->
  (blocked <-
     (match regex_match_group tmuxSendKeysRegex 1 command with
      | Some sessionName =>
        if negb (default false force)
        then tmux_blocked_check fuel connectionId
               (default (js "undefined") sessionName) cwd
        else ret None
      | None => ret None
      end) ;;
   match blocked with
   | Some result => ret result
   | None =>
     result <- call_executeCommand fuel connectionId command
                 {| cwd := cwd; timeout := timeout |} ;;
     ms1 <- get ;;
     let connection1 :=
       default connection (connections (sshService ms1) !! connectionId) in
     let output := render_output connection1 result in
     output1 <-
       (if isTmuxCommand command
           && bool_decide (code result = Some 0%Z)
           && (negb (truthy output) || negb (truthy (trim output)))
        then try_catch
               (enrich connectionId command cwd result output)
               (fun message =>
                  ret (js "tmux命令已执行，但无法获取额外信息: " ++ message))
        else ret output) ;;
     let output2 := limitOutputLength output1 in
     ret {| tr_text := if truthy output2 then output2
                       else js "命令执行成功，无输出";
            tr_isError := false |}
   end)
    {| sshService := sshService ms;
       activeConnections :=
         <[connectionId := clock (history (sshService ms))]> (activeConnections ms);
       service_calls := service_calls ms |} = (Ret r, ms') ->
  executeCommandTool fuel enrich connectionId command cwd timeout force ms
  = (Ret r, ms').
Proof.
  intros Hlive Hrest.
  apply live_connection_lookup in Hlive as [Hconn Hstatus].
  unfold executeCommandTool. apply try_catch_run.
  rewrite bind_get, Hconn, Hstatus. cbn [negb].
  unfold touch_active. rewrite bind_modify. exact Hrest.
Qed.


(** ** Tunnels (C8) *)

Lemma tunnel_port_taken_spec localPort st :
  tunnel_port_taken localPort st = true
  <-> exists id t, tunnels st !! id = Some t /\ tn_isActive t = true
                   /\ tc_localPort (tn_config t) = localPort.
Proof.
  unfold tunnel_port_taken. rewrite existsb_exists. split.
  - intros ([id t] & Hin & H). apply andb_true_iff in H as [Hp Ha].
    apply list_elem_of_In, elem_of_map_to_list in Hin.
    exists id, t. simpl in *. repeat split; [assumption..|lia].
  - intros (id & t & Hl & Ha & Hp). exists (id, t). split.
    + apply list_elem_of_In, elem_of_map_to_list. exact Hl.
    + simpl. rewrite Ha, andb_true_r. lia.
Qed.



Lemma foldl_destroy_socket l : forall st,
  tunnels (foldl destroy_socket st l) = tunnels st
  /\ history (foldl destroy_socket st l)
     = history st
       ++ concat ((fun socket => [IoSocketRemoveAllListeners socket;
                                  IoSocketDestroy socket]) <$> l)
  /\ forall socket,
       sockets (foldl destroy_socket st l) !! socket
       = if bool_decide (socket ∈ l)
         then without_listeners <$> sockets st !! socket
         else sockets st !! socket.
Proof.
  induction l as [|s l IH]; intros st; cbn [foldl].
  - split; [reflexivity|]. split; [symmetry; apply app_nil_r|].
    intros socket. rewrite bool_decide_eq_false_2; [reflexivity|].
    apply not_elem_of_nil.
  - destruct (IH (destroy_socket st s)) as (-> & -> & Hs).
    split; [reflexivity|]. split.
    { simpl. rewrite <- !app_assoc. reflexivity. }
    intros socket. rewrite Hs. cbn [sockets destroy_socket log_io set_sockets].
    destruct (decide (socket = s)) as [->|Hne].
    + rewrite lookup_alter_eq.
      rewrite (bool_decide_eq_true_2 (s ∈ s :: l)) by constructor.
      destruct (sockets st !! s); destruct (bool_decide (s ∈ l)); reflexivity.
    + rewrite lookup_alter_ne by congruence.
      destruct (decide (socket ∈ l)) as [Hin|Hout].
      * rewrite !bool_decide_eq_true_2; [reflexivity| |exact Hin].
        right. exact Hin.
      * rewrite !bool_decide_eq_false_2; [reflexivity| |exact Hout].
        intros H. apply elem_of_cons in H as [?|?]; [congruence|auto].
Qed.

Lemma closeTunnel_begin_run tunnel tunnelId st :
  exists st',
    closeTunnel_begin tunnel tunnelId st = (Ret tt, st')
    /\ tunnels st'
       = alter (fun t =>
                  {| tn_config := tn_config t; tn_server := tn_server t;
                     tn_connections := []; tn_isActive := tn_isActive t |})
           tunnelId (tunnels st)
    /\ sockets st' = sockets (foldl destroy_socket st (tn_connections tunnel))
    /\ history st'
       = history st
         ++ concat ((fun socket => [IoSocketRemoveAllListeners socket;
                                    IoSocketDestroy socket])
                      <$> tn_connections tunnel)
         ++ match tn_server tunnel with
            | Some server => [IoServerRemoveAllListeners server; IoServerClose server]
            | None => []
            end.
Proof.
  unfold closeTunnel_begin. rewrite bind_modify. cbv beta.
  rewrite bind_modify. cbv beta.
  destruct (foldl_destroy_socket (tn_connections tunnel) st) as (Ht & Hh & _).
  destruct (tn_server tunnel) as [server|].
  - eexists. split; [reflexivity|].
    cbn [tunnels sockets history set_tunnels log_io]. rewrite Ht, Hh.
    split; [reflexivity|]. split; [reflexivity|].
    rewrite <- !app_assoc. reflexivity.
  - eexists. split; [reflexivity|].
    cbn [tunnels sockets history set_tunnels log_io]. rewrite Ht, Hh.
    split; [reflexivity|]. split; [reflexivity|].
    rewrite app_nil_r. reflexivity.
Qed.

Lemma closeTunnel_finish_run tunnelId st :
  exists st',
    closeTunnel_finish tunnelId st = (Ret true, st')
    /\ tunnels st' = delete tunnelId (tunnels st)
    /\ sockets st' = sockets st /\ history st' = history st.
Proof.
  unfold closeTunnel_finish. rewrite bind_modify. cbv beta.
  rewrite bind_modify. cbv beta. eexists. split; [reflexivity|].
  cbn [tunnels sockets history set_tunnels]. split; [|split; reflexivity].
  apply map_eq. intros id. destruct (decide (id = tunnelId)) as [->|Hne].
  - rewrite !lookup_delete_eq. reflexivity.
  - rewrite !lookup_delete_ne, !lookup_alter_ne by congruence. reflexivity.
Qed.

(** What [closeTunnel] does to a tunnel it finds. *)
Lemma closeTunnel_found tunnelId tunnel st :
  tunnels st !! tunnelId = Some tunnel ->
  exists st',
    closeTunnel tunnelId st = (Ret true, st')
    /\ tunnels st' = delete tunnelId (tunnels st)
    /\ sockets st' = sockets (foldl destroy_socket st (tn_connections tunnel))
    /\ history st'
       = history st
         ++ concat ((fun socket => [IoSocketRemoveAllListeners socket;
                                    IoSocketDestroy socket])
                      <$> tn_connections tunnel)
         ++ match tn_server tunnel with
            | Some server => [IoServerRemoveAllListeners server; IoServerClose server]
            | None => []
            end.
Proof.
  intros Hfound. unfold closeTunnel. rewrite bind_get, Hfound.
  destruct (closeTunnel_begin_run tunnel tunnelId st)
    as (st1 & Hrun1 & Ht1 & Hs1 & Hh1).
  destruct (closeTunnel_finish_run tunnelId st1)
    as (st2 & Hrun2 & Ht2 & Hs2 & Hh2).
  exists st2. split.
  { rewrite (bind_run _ _ st tt st1) by exact Hrun1. exact Hrun2. }
  rewrite Ht2, Hs2, Hh2, Ht1, Hs1, Hh1. split; [|split; reflexivity].
  apply map_eq. intros id. destruct (decide (id = tunnelId)) as [->|Hne].
  - rewrite !lookup_delete_eq. reflexivity.
  - rewrite !lookup_delete_ne, !lookup_alter_ne by congruence. reflexivity.
Qed.










(** ** Connecting (C1) *)

Lemma bind_ret_inv {S A B} (m : M S A) (f : A -> M S B) st b st' :
  bind m f st = (Ret b, st') ->
  exists a s, m st = (Ret a, s) /\ f a s = (Ret b, st').
Proof.
  unfold bind. destruct (m st) as [[a|e|] s]; [eauto|discriminate..].
Qed.

Lemma bind_throw_never_returns {S A B} (m : M S A) message st (b : B) st' :
  bind m (fun _ => throw message) st <> (Ret b, st').
Proof.
  unfold bind, throw. destruct (m st) as [[a|e|] s]; discriminate.
Qed.

Lemma live_connection_ext connectionId st st' :
  connections st' = connections st ->
  live_connection connectionId st' = live_connection connectionId st.
Proof. intros H. unfold live_connection. rewrite H. reflexivity. Qed.

Lemma saveCredentials_connections id password passphrase st :
  connections (snd (saveCredentials id password passphrase st)) = connections st.
Proof. unfold saveCredentials. destruct isDocker; reflexivity. Qed.

Lemma connect_returns_live config name rememberPassword tags st c1 st1 :
  connect config name rememberPassword tags st = (Ret c1, st1) ->
  exists client, live_connection (generateConnectionId config) st1 = Some (c1, client).
Proof.
  unfold connect. rewrite bind_get. cbv zeta.
  set (connectionId := generateConnectionId config).
  destruct (live_connection connectionId st) as [[c cl]|] eqn:Hlive.
  { intros [= <- <-]. eauto. }
  intros H. apply bind_ret_inv in H as ([] & sa & _ & H).
  unfold try_catch in H.
  match type of H with
  | (let (_, _) := ?body sa in _) = _ =>
    destruct (body sa) as [[a|message|] s'] eqn:Hbody
  end; [|exfalso|discriminate].
  2:{ apply bind_ret_inv in H as (? & ? & _ & H).
      exact (bind_throw_never_returns _ _ _ _ _ H). }
  injection H as -> ->.
  apply bind_ret_inv in Hbody as (config1 & s1 & Hconfig & Hbody).
  apply bind_ret_inv in Hbody as (ssh & s2 & Hssh & Hbody).
  rewrite bind_get in Hbody. unfold update_connection at 1 in Hbody.
  rewrite bind_modify in Hbody. cbv beta in Hbody.
  apply bind_ret_inv in Hbody as (dir & s4 & Hdir & Hbody).
  unfold update_connection at 1 in Hbody.
  rewrite bind_modify in Hbody. cbv beta in Hbody.
  apply bind_ret_inv in Hbody as ([] & s6 & Hsave & Hbody).
  rewrite bind_get in Hbody.
  (* the directory is asked of a live connection *)
  match type of Hdir with getCurrentDirectory _ ?s = _ => set (s3 := s) in * end.
  pose proof (getCurrentDirectory_frame connectionId s3) as Hframe.
  rewrite Hdir in Hframe. cbn [snd] in Hframe.
  unfold getCurrentDirectory in Hdir. rewrite bind_get in Hdir.
  destruct (live_connection connectionId s3) as [[c3 cl3]|] eqn:Hlive3;
    [|discriminate].
  destruct (service_frame_live _ _ _ _ _ Hframe Hlive3) as (c4 & Hlive4 & _).
  match type of Hsave with _ ?s = _ => set (s5 := s) in * end.
  assert (Hlive5 : live_connection connectionId s5
                   = Some (with_currentDirectory c4 (Some dir), cl3)).
  { subst s5. revert Hlive4. unfold live_connection.
    cbn [connections set_connections]. rewrite lookup_alter_eq.
    destruct (connections s4 !! connectionId) as [c|]; [|discriminate].
    cbn [fmap option_fmap option_map conn_client conn_status with_currentDirectory].
    destruct (conn_client c); [|discriminate].
    destruct (is_CONNECTED (conn_status c)); [|discriminate].
    intros [= -> ->]. reflexivity. }
  assert (Hlive6 : live_connection connectionId s6
                   = Some (with_currentDirectory c4 (Some dir), cl3)).
  { rewrite <- Hlive5. apply live_connection_ext.
    destruct rememberPassword.
    - pose proof (saveCredentials_connections connectionId
                    (cfg_password config1) (cfg_passphrase config1) s5) as Hc.
      rewrite Hsave in Hc. exact Hc.
    - injection Hsave as <-. reflexivity. }
  exists cl3.
  pose proof Hlive6 as Hlookup. apply live_connection_lookup in Hlookup as [Hlookup _].
  rewrite Hlookup in Hbody.
  apply bind_ret_inv in Hbody as ([] & s7 & Hsaved & Hbody).
  injection Hbody as <- <-.
  unfold saveConnection in Hsaved. rewrite bind_get in Hsaved.
  injection Hsaved as <-.
  rewrite <- Hlive6. apply live_connection_ext. reflexivity.
Qed.

Lemma keeps_registry_wf_connections st st' :
  connections st' = connections st -> keeps_registry_wf st st'.
Proof. intros H Hwf id c. rewrite H. apply Hwf. Qed.

Lemma service_frame_keeps_wf st st' : service_frame st st' -> keeps_registry_wf st st'.
Proof.
  intros (H & _) Hwf id c' Hc'. specialize (H id). rewrite Hc' in H.
  destruct (connections st !! id) as [c|] eqn:Hc; [|discriminate].
  rewrite <- (Hwf id c Hc).
  change (conn_id (erase_dir c') = conn_id (erase_dir c)).
  simpl in H. congruence.
Qed.

Lemma update_connection_wf connectionId f :
  (forall c, conn_id (f c) = conn_id c) ->
  preserves keeps_registry_wf (update_connection connectionId f).
Proof.
  intros Hf st Hwf id c'. unfold update_connection, modify.
  cbn [snd connections set_connections]. rewrite lookup_alter.
  case_decide as Hid; [subst id|apply Hwf].
  destruct (connections st !! connectionId) as [c|] eqn:Hc; [|discriminate].
  simpl. intros [= <-]. rewrite Hf. apply Hwf, Hc.
Qed.

Lemma connect_keeps_wf config name rememberPassword tags :
  preserves keeps_registry_wf (connect config name rememberPassword tags).
Proof.
  unfold connect, scheduleReconnect, getCredentials, saveConnection.
  repeat first
    [ apply update_connection_wf; intros; reflexivity
    | lazymatch goal with
      | |- preserves _ (getCurrentDirectory _) =>
        intros ?; apply service_frame_keeps_wf, getCurrentDirectory_frame
      | |- preserves _ (saveCredentials _ _ _) =>
        intros ?; apply keeps_registry_wf_connections,
                    saveCredentials_connections
      | |- preserves _ (new_transport _) =>
        intros ?; apply keeps_registry_wf_connections;
        unfold new_transport, take_handle;
        destruct (ssh_connect _ _); reflexivity
      | |- preserves _ (modify (set_connections (insert _ _))) =>
        let H := fresh "Hwf" in
        intros ? H ? ?; cbn [snd modify connections set_connections];
        rewrite lookup_insert; case_decide;
        [intros [= <-]; subst; reflexivity|apply H]
      | |- preserves _ (modify _) =>
        intros ?; apply keeps_registry_wf_connections; reflexivity
      end
    | frame_step ].
Qed.

Lemma connect_live config name rememberPassword tags st connection client :
  live_connection (generateConnectionId config) st = Some (connection, client) ->
  connect config name rememberPassword tags st = (Ret connection, st).
Proof. intros Hlive. unfold connect. rewrite bind_get, Hlive. reflexivity. Qed.

(** C1: the connection id is the hash of [username@host:port], the port
    read as 22 when it is absent (or zero), so that configurations that agree
    on these get the same id. [connect] on a configuration whose id has a
    connected client in the registry returns that record and leaves the
    state, and with it the history of transports, as it was. So when
    [connect] has returned a connection, its id is the id of the
    configuration (in a registry that files records under their ids), and a
    second [connect], with the same configuration or any of the same id,
    returns the same record and establishes nothing. *)
Theorem connect_idempotent :
  (forall config,
     generateConnectionId config
     = md5hex (cfg_username config ++ js "@" ++ cfg_host config ++ js ":"
               ++ Z_to_js (match cfg_port config with
                           | Some port => if (port =? 0)%Z then 22%Z else port
                           | None => 22%Z
                           end)))
  /\ (forall config name rememberPassword tags st connection client,
        live_connection (generateConnectionId config) st = Some (connection, client) ->
        connect config name rememberPassword tags st = (Ret connection, st))
  /\ (forall config name rememberPassword tags st connection st1,
        connect config name rememberPassword tags st = (Ret connection, st1) ->
        (registry_wf st -> conn_id connection = generateConnectionId config)
        /\ forall config' name' rememberPassword' tags',
             generateConnectionId config' = generateConnectionId config ->
             connect config' name' rememberPassword' tags' st1
             = (Ret connection, st1)).
Proof.
  split; [|split].
  - intros config. unfold generateConnectionId, truthy_num.
    destruct (cfg_port config) as [port|]; [|reflexivity].
    simpl. destruct (port =? 0)%Z; reflexivity.
  - apply connect_live.
  - intros config name rememberPassword tags st connection st1 Hrun.
    destruct (connect_returns_live _ _ _ _ _ _ _ Hrun) as (client & Hlive).
    split.
    + intros Hwf.
      pose proof (connect_keeps_wf config name rememberPassword tags st Hwf) as Hwf1.
      rewrite Hrun in Hwf1. apply Hwf1.
      apply live_connection_lookup in Hlive as [Hl _]. exact Hl.
    + intros config' name' rememberPassword' tags' Hid.
      apply (connect_live _ _ _ _ _ _ client). rewrite Hid. exact Hlive.
Qed.

(** ** Transfers (C7) *)

Lemma round_nearest_even_cases num den :
  (0 < den)%Z ->
  let q := (num / den)%Z in
  let r := (num - den * q)%Z in
  (0 <= r < den)%Z
  /\ ((2 * r < den)%Z /\ round_nearest_even num den = q
      \/ (den < 2 * r)%Z /\ round_nearest_even num den = (q + 1)%Z
      \/ (2 * r = den)%Z /\ Z.even q = true /\ round_nearest_even num den = q
      \/ (2 * r = den)%Z /\ Z.even q = false
         /\ round_nearest_even num den = (q + 1)%Z).
Proof.
  intros Hden q r.
  pose proof (Z.div_mod num den ltac:(lia)) as Hdm.
  pose proof (Z.mod_pos_bound num den Hden) as Hmod.
  assert (Hr : r = (num mod den)%Z) by (subst r q; lia).
  split; [lia|]. unfold round_nearest_even. fold q. rewrite <- Hr.
  destruct (2 * r <? den)%Z eqn:H1; [left; split; [lia|reflexivity]|].
  destruct (den <? 2 * r)%Z eqn:H2; [right; left; split; [lia|reflexivity]|].
  destruct (Z.even q) eqn:H3.
  - right; right; left. repeat split; lia.
  - right; right; right. repeat split; lia.
Qed.

Lemma round_nearest_even_lower k num den :
  (0 < den)%Z -> (k * den <= num)%Z -> (k <= round_nearest_even num den)%Z.
Proof.
  intros Hden Hk.
  assert (k <= num / den)%Z by (apply Z.div_le_lower_bound; lia).
  destruct (round_nearest_even_cases num den Hden)
    as (_ & [[_ ->]|[[_ ->]|[(_ & _ & ->)|(_ & _ & ->)]]]); lia.
Qed.

Lemma round_nearest_even_upper k num den :
  (0 < den)%Z -> (num <= k * den)%Z -> (round_nearest_even num den <= k)%Z.
Proof.
  intros Hden Hk.
  destruct (round_nearest_even_cases num den Hden)
    as (Hr & [[_ ->]|[[H ->]|[(_ & _ & ->)|(H & _ & ->)]]]); nia.
Qed.

Lemma round_nearest_even_mono num den num' den' :
  (0 < den)%Z -> (0 < den')%Z -> (num * den' <= num' * den)%Z ->
  (round_nearest_even num den <= round_nearest_even num' den')%Z.
Proof.
  intros Hden Hden' Hle.
  assert (Hq : (num / den <= num' / den')%Z).
  { apply Z.div_le_lower_bound; [lia|].
    pose proof (Z.mul_div_le num den Hden).
    assert (den * (den' * (num / den)) <= den * num')%Z by nia.
    nia. }
  destruct (round_nearest_even_cases num den Hden) as (Hr & Hc).
  destruct (round_nearest_even_cases num' den' Hden') as (Hr' & Hc').
  cbv zeta in *.
  revert Hq Hr Hc Hr' Hc'.
  generalize (num / den)%Z (num' / den')%Z
    (round_nearest_even num den) (round_nearest_even num' den').
  intros q q' v v' Hq Hr Hc Hr' Hc'.
  destruct (Z.eq_dec q q') as [<-|Hne].
  - destruct Hc as [[H ->]|[[H ->]|[(H & He & ->)|(H & He & ->)]]];
      destruct Hc' as [[H' ->]|[[H' ->]|[(H' & He' & ->)|(H' & He' & ->)]]];
      try lia; try congruence; nia.
  - destruct Hc as [[H ->]|[[H ->]|[(H & He & ->)|(H & He & ->)]]];
      destruct Hc' as [[H' ->]|[[H' ->]|[(H' & He' & ->)|(H' & He' & ->)]]];
      lia.
Qed.

Lemma div_lt_bound a b k : (0 < b)%Z -> (a / b < k)%Z -> (a < b * k)%Z.
Proof.
  intros Hb H. destruct (Z_lt_le_dec a (b * k)) as [Hlt|Hge]; [exact Hlt|].
  assert (k <= a / b)%Z by (apply Z.div_le_lower_bound; lia). lia.
Qed.

Lemma log2_upper q : (0 <= q)%Z -> (q < 2 ^ (Z.log2 q + 1))%Z.
Proof.
  intros Hq. destruct (Z.eq_dec q 0%Z) as [->|Hne]; [reflexivity|].
  pose proof (Z.log2_spec q ltac:(lia)). lia.
Qed.

Lemma binary64_round_nonneg num den :
  (0 <= num)%Z -> (0 < den)%Z -> (0 <= binary64_round num den)%Z.
Proof.
  intros Hnum Hden. unfold binary64_round.
  set (e := Z.max _ 0).
  assert (0 < 2 ^ e)%Z by (apply Z.pow_pos_nonneg; lia).
  assert (0 <= round_nearest_even num (den * 2 ^ e))%Z
    by (apply round_nearest_even_lower; nia).
  nia.
Qed.

(** Rounding to binary64 keeps the order. *)
Lemma binary64_round_mono num den num' den' :
  (0 <= num)%Z -> (0 < den)%Z -> (0 < den')%Z ->
  (num * den' <= num' * den)%Z ->
  (binary64_round num den <= binary64_round num' den')%Z.
Proof.
  intros Hnum Hden Hden' Hle. unfold binary64_round.
  assert (Hnum' : (0 <= num')%Z) by nia.
  assert (Hq0 : (0 <= num / den)%Z) by (apply Z.div_pos; lia).
  assert (Hq : (num / den <= num' / den')%Z).
  { apply Z.div_le_lower_bound; [lia|].
    pose proof (Z.mul_div_le num den Hden).
    assert (den * (den' * (num / den)) <= den * num')%Z by nia.
    nia. }
  pose proof (Z.log2_le_mono _ _ Hq) as Hlog.
  remember (Z.max (Z.log2 (num / den) - 52) 0) as e eqn:Hee.
  remember (Z.max (Z.log2 (num' / den') - 52) 0) as e' eqn:Hee'.
  assert (He : (0 <= e <= e')%Z) by lia.
  assert (Hp : (0 < 2 ^ e)%Z) by (apply Z.pow_pos_nonneg; lia).
  assert (Hp' : (0 < 2 ^ e')%Z) by (apply Z.pow_pos_nonneg; lia).
  destruct (Z.eq_dec e e') as [Heq|Hne].
  - rewrite <- Heq.
    apply Z.mul_le_mono_nonneg_r; [lia|].
    apply round_nearest_even_mono; nia.
  - (* different binades: a power of two lies between the two *)
    assert (Hup : (round_nearest_even num (den * 2 ^ e) <= 2 ^ 53)%Z).
    { apply round_nearest_even_upper; [nia|].
      pose proof (log2_upper (num / den) Hq0) as Hu.
      assert (Hm : (2 ^ (Z.log2 (num / den) + 1) <= 2 ^ (e + 53))%Z)
        by (apply Z.pow_le_mono_r; lia).
      assert (Hlt : (num < den * 2 ^ (e + 53))%Z)
        by (apply div_lt_bound; lia).
      rewrite Z.pow_add_r in Hlt by lia. nia. }
    assert (Hlow : (2 ^ 52 <= round_nearest_even num' (den' * 2 ^ e'))%Z).
    { apply round_nearest_even_lower; [nia|].
      assert (Hpos : (0 < num' / den')%Z).
      { destruct (Z.eq_dec (num' / den')%Z 0%Z) as [Hz|Hz]; [|lia].
        exfalso. rewrite Hz in Hee'. change (Z.log2 0) with 0%Z in Hee'. lia. }
      pose proof (Z.log2_spec _ Hpos) as [Hl _].
      assert (He' : (Z.log2 (num' / den') = e' + 52)%Z) by lia.
      rewrite He', Z.pow_add_r in Hl by lia.
      pose proof (Z.mul_div_le num' den' Hden'). nia. }
    assert (Hstep : (2 ^ (e + 1) <= 2 ^ e')%Z) by (apply Z.pow_le_mono_r; lia).
    rewrite Z.pow_add_r in Hstep by lia.
    change (2 ^ 53)%Z with (2 ^ 52 * 2)%Z in Hup.
    assert (0 < 2 ^ 52)%Z by reflexivity.
    generalize dependent (2 ^ 52)%Z. intros.
    nia.
Qed.

Lemma binary64_unit_pos : (0 < binary64_unit)%Z.
Proof. unfold binary64_unit. apply Z.pow_pos_nonneg; lia. Qed.

Lemma Math_round_mono x y : (x <= y)%Z -> (Math_round x <= Math_round y)%Z.
Proof.
  intros H. unfold Math_round. pose proof binary64_unit_pos.
  apply Z.div_le_mono; lia.
Qed.

Lemma Math_round_nonneg x : (0 <= x)%Z -> (0 <= Math_round x)%Z.
Proof.
  intros H. unfold Math_round. pose proof binary64_unit_pos.
  apply Z.div_pos; lia.
Qed.

Lemma binary64_div_nonneg a b : (0 <= a)%Z -> (0 < b)%Z -> (0 <= binary64_div a b)%Z.
Proof.
  intros Ha Hb. pose proof binary64_unit_pos.
  apply binary64_round_nonneg; nia.
Qed.

Lemma transfer_progress_bounds b s p :
  (0 <= b)%Z -> (0 <= s)%Z -> transfer_progress b s = Some p -> (0 <= p <= 100)%Z.
Proof.
  intros Hb Hs. unfold transfer_progress.
  destruct (s =? 0)%Z eqn:Hs0.
  - destruct (b =? 0)%Z; [discriminate|]. intros [= <-]. lia.
  - intros [= <-].
    assert (0 <= binary64_div b s)%Z by (apply binary64_div_nonneg; lia).
    assert (0 <= binary64_mul (binary64_div b s) 100)%Z
      by (apply binary64_round_nonneg; lia).
    pose proof (Math_round_nonneg _ H0). lia.
Qed.

Lemma transfer_progress_mono b b' s :
  (0 <= b <= b')%Z -> (0 < s)%Z ->
  exists p p', transfer_progress b s = Some p /\ transfer_progress b' s = Some p'
               /\ (p <= p')%Z.
Proof.
  intros Hb Hs. unfold transfer_progress.
  replace (s =? 0)%Z with false by (symmetry; apply Z.eqb_neq; lia).
  do 2 eexists. split; [reflexivity|]. split; [reflexivity|].
  apply Z.min_le_compat_l, Math_round_mono.
  pose proof binary64_unit_pos.
  assert (0 <= binary64_div b s)%Z by (apply binary64_div_nonneg; lia).
  assert (binary64_div b s <= binary64_div b' s)%Z.
  { unfold binary64_div. apply binary64_round_mono; [nia|lia|lia|].
    apply Z.mul_le_mono_nonneg_r; [lia|].
    apply Z.mul_le_mono_nonneg_r; lia. }
  unfold binary64_mul. apply binary64_round_mono; lia.
Qed.

(** What holds of the record at a point of a transfer. *)
Lemma stream_points_invariant events : forall run r,
  ft_status (run_info run) <> completed ->
  (forall p, ft_progress (run_info run) = Some p -> (0 <= p <= 100)%Z) ->
  (0 <= ft_size (run_info run))%Z ->
  (0 <= run_bytesTransferred run)%Z ->
  Forall chunk_length_ok events ->
  r ∈ stream_points run (fst (until_settled events)) ->
  (forall p, ft_progress (run_info r) = Some p -> (0 <= p <= 100)%Z)
  /\ (ft_status (run_info r) = completed ->
      ft_bytesTransferred (run_info r) = ft_size (run_info r)
      /\ ft_progress (run_info r) = Some 100%Z).
Proof.
  induction events as [|ev events IH]; intros run r Hst Hp Hsize Hbytes Hok Hr.
  - simpl in Hr. apply elem_of_nil in Hr. destruct Hr.
  - apply Forall_cons in Hok as [Hev Hok].
    destruct ev as [n|message now|message now|now]; simpl in Hr.
    + destruct (until_settled events) as [taken s] eqn:Hu. simpl in Hr, Hev.
      apply elem_of_cons in Hr as [->|Hr].
      * split; [|intros Hc; contradiction].
        cbn [run_info on_stream_event transfer_update ft_progress].
        intros p. apply transfer_progress_bounds; lia.
      * apply (IH (on_stream_event (DataEvent n) run)); try assumption.
        -- cbn [run_info on_stream_event transfer_update ft_progress].
           intros p. apply transfer_progress_bounds; lia.
        -- simpl. lia.
    + apply list_elem_of_singleton in Hr as ->. split; [exact Hp|discriminate].
    + apply list_elem_of_singleton in Hr as ->. split; [exact Hp|discriminate].
    + apply list_elem_of_singleton in Hr as ->. split.
      * intros p [= <-]. lia.
      * intros _. split; reflexivity.
Qed.

Lemma until_settled_resolved events : forall taken,
  until_settled events = (taken, Some None) ->
  exists l now, taken = l ++ [CloseEvent now].
Proof.
  induction events as [|ev events IH]; intros taken; simpl; [discriminate|].
  destruct ev as [n|message now|message now|now]; simpl.
  - destruct (until_settled events) as [taken' s]. intros [= <- ->].
    destruct (IH taken' eq_refl) as (l & now & ->).
    exists (DataEvent n :: l), now. reflexivity.
  - discriminate.
  - discriminate.
  - intros [= <-]. exists [], now. reflexivity.
Qed.

Lemma transfer_catch_failed transferId localPath remotePath direction message
    now fileTransfers r fileTransfers' :
  transfer_catch transferId localPath remotePath direction message now
    fileTransfers = (Ret r, fileTransfers') ->
  ft_status r = failed.
Proof.
  unfold transfer_catch. rewrite bind_get.
  destruct (fileTransfers !! transferId); cbv zeta; rewrite bind_modify;
    intros [= <- _]; reflexivity.
Qed.

Lemma transfer_run_eta run :
  {| run_info := run_info run;
     run_bytesTransferred := run_bytesTransferred run |} = run.
Proof. destruct run. reflexivity. Qed.

Lemma handle_events_run transferId bytesTransferred events info fileTransfers :
  handle_events transferId bytesTransferred events
    (<[transferId := info]> fileTransfers)
  = (Ret tt,
     <[transferId :=
         run_info (run_stream {| run_info := info;
                                 run_bytesTransferred := bytesTransferred |}
                     events)]> fileTransfers).
Proof. unfold handle_events, modify. rewrite alter_insert_eq. reflexivity. Qed.

Lemma transfer_catch_filed transferId localPath remotePath direction message now
    info fileTransfers :
  transfer_catch transferId localPath remotePath direction message now
    (<[transferId := info]> fileTransfers)
  = (Ret (transfer_failed info message now),
     <[transferId := transfer_failed info message now]> fileTransfers).
Proof.
  unfold transfer_catch. rewrite bind_get, lookup_insert_eq. cbv zeta.
  rewrite bind_modify, insert_insert_eq. reflexivity.
Qed.

(** The run of the streams of a transfer: what the call returns, and the
    registry after the last event. *)
Lemma stream_transfer_run transferInfo world fileTransfers :
  let later := after_settled (tw_events world) in
  let run :=
    run_stream (started_run transferInfo) (fst (until_settled (tw_events world))) in
  stream_transfer transferInfo world fileTransfers
  = match snd (until_settled (tw_events world)) with
    | Some None =>
      (Ret (run_info run),
       <[ft_id transferInfo := run_info (run_stream run later)]> fileTransfers)
    | Some (Some message) =>
      let run1 := run_stream run (take (tw_before_catch world) later) in
      let result := transfer_failed (run_info run1) message (tw_caught world) in
      (Ret result,
       <[ft_id transferInfo :=
           run_info (run_stream
                       {| run_info := result;
                          run_bytesTransferred := run_bytesTransferred run1 |}
                       (drop (tw_before_catch world) later))]> fileTransfers)
    | None => (OutOfFuel, <[ft_id transferInfo := run_info run]> fileTransfers)
    end.
Proof.
  cbv zeta. unfold stream_transfer.
  destruct (until_settled (tw_events world)) as [events settled].
  cbv zeta. cbn [fst snd]. rewrite bind_modify.
  destruct settled as [[message|]|]; [| |reflexivity].
  - rewrite (bind_run _ _ _ tt _ (handle_events_run _ _ _ _ _)).
    rewrite transfer_run_eta.
    rewrite (bind_run _ _ _ _ _ (transfer_catch_filed _ _ _ _ _ _ _ _)).
    rewrite (bind_run _ _ _ tt _ (handle_events_run _ _ _ _ _)).
    reflexivity.
  - rewrite (bind_run _ _ _ tt _ (handle_events_run _ _ _ _ _)).
    rewrite transfer_run_eta. reflexivity.
Qed.

Lemma stream_transfer_completed transferInfo world fileTransfers r fileTransfers' :
  stream_transfer transferInfo world fileTransfers = (Ret r, fileTransfers') ->
  ft_status r = completed ->
  ft_bytesTransferred r = ft_size r /\ ft_progress r = Some 100%Z.
Proof.
  rewrite stream_transfer_run. cbv zeta.
  destruct (until_settled (tw_events world)) as [events settled] eqn:Hu.
  cbn [fst snd].
  destruct settled as [[message|]|].
  - intros [= <- _]. discriminate.
  - intros [= <- _] _.
    destruct (until_settled_resolved _ _ Hu) as (l & now & ->).
    unfold run_stream. rewrite foldl_app. split; reflexivity.
  - discriminate.
Qed.

Lemma uploadFile_completed connectionId localPath remotePath world st
    fileTransfers r fileTransfers' :
  uploadFile connectionId localPath remotePath world st fileTransfers
  = (Ret r, fileTransfers') ->
  ft_status r = completed ->
  ft_bytesTransferred r = ft_size r /\ ft_progress r = Some 100%Z.
Proof.
  unfold uploadFile.
  destruct (live_connection connectionId st); [|discriminate].
  cbv zeta.
  destruct (tw_stat world) as [message|[isFile size]].
  { intros H Hc. apply transfer_catch_failed in H. congruence. }
  destruct isFile; cbn [negb].
  2:{ intros H Hc. apply transfer_catch_failed in H. congruence. }
  rewrite bind_modify.
  destruct (tw_requestSFTP world) as [message|].
  { intros H Hc. apply transfer_catch_failed in H. congruence. }
  apply stream_transfer_completed.
Qed.

Lemma downloadFile_completed connectionId remotePath localPath world st
    fileTransfers r fileTransfers' :
  downloadFile connectionId remotePath localPath world st fileTransfers
  = (Ret r, fileTransfers') ->
  ft_status r = completed ->
  ft_bytesTransferred r = ft_size r /\ ft_progress r = Some 100%Z.
Proof.
  unfold downloadFile.
  destruct (live_connection connectionId st); [|discriminate].
  cbv zeta.
  destruct (tw_mkdir world) as [message|].
  { intros H Hc. apply transfer_catch_failed in H. congruence. }
  destruct (tw_requestSFTP world) as [message|].
  { intros H Hc. apply transfer_catch_failed in H. congruence. }
  destruct (tw_stat world) as [message|[isFile size]].
  { intros H Hc. apply transfer_catch_failed in H. congruence. }
  rewrite bind_modify. apply stream_transfer_completed.
Qed.

(** C7, as the code has it. The progress written at a chunk is
    [Math.min(100, Math.round((bytesTransferred / size) * 100))] computed
    in binary64; it lies between 0 and 100 and does not go down when the
    byte count goes up. The byte count written at a chunk is the sum of the
    lengths of the chunks read so far, whatever the size. At every point of
    the streams of a transfer the progress, when it is a number, is between
    0 and 100, and a record that is completed has its byte count equal to
    its size and its progress at 100; so have the completed records that
    [uploadFile] and [downloadFile] return. *)
Theorem transfer_progress_invariants :
  (forall b s p,
     (0 <= b)%Z -> (0 <= s)%Z -> transfer_progress b s = Some p ->
     (0 <= p <= 100)%Z)
  /\ (forall b b' s,
        (0 <= b <= b')%Z -> (0 < s)%Z ->
        exists p p', transfer_progress b s = Some p
                     /\ transfer_progress b' s = Some p' /\ (p <= p')%Z)
  /\ (forall chunkLength run,
        let run' := on_stream_event (DataEvent chunkLength) run in
        run_bytesTransferred run' = (run_bytesTransferred run + chunkLength)%Z
        /\ ft_bytesTransferred (run_info run')
           = (run_bytesTransferred run + chunkLength)%Z
        /\ ft_progress (run_info run')
           = transfer_progress (run_bytesTransferred run + chunkLength)
               (ft_size (run_info run))
        /\ ft_size (run_info run') = ft_size (run_info run)
        /\ ft_status (run_info run') = ft_status (run_info run))
  /\ (forall transferId localPath remotePath direction size now events r,
        (0 <= size)%Z -> Forall chunk_length_ok events ->
        r ∈ stream_points
              (started_run (pending_transfer transferId localPath remotePath
                              direction size now))
              (fst (until_settled events)) ->
        (forall p, ft_progress (run_info r) = Some p -> (0 <= p <= 100)%Z)
        /\ (ft_status (run_info r) = completed ->
            ft_bytesTransferred (run_info r) = ft_size (run_info r)
            /\ ft_progress (run_info r) = Some 100%Z))
  /\ (forall connectionId localPath remotePath world st fileTransfers r
             fileTransfers',
        (uploadFile connectionId localPath remotePath world st fileTransfers
         = (Ret r, fileTransfers')
         \/ downloadFile connectionId remotePath localPath world st fileTransfers
            = (Ret r, fileTransfers')) ->
        ft_status r = completed ->
        ft_bytesTransferred r = ft_size r /\ ft_progress r = Some 100%Z).
Proof.
  split; [exact transfer_progress_bounds|].
  split; [exact transfer_progress_mono|].
  split; [intros chunkLength run; repeat split|].
  split.
  - intros transferId localPath remotePath direction size now events r Hsize Hok.
    apply stream_points_invariant; try assumption.
    + discriminate.
    + intros p [= <-]. lia.
    + simpl. lia.
  - intros connectionId localPath remotePath world st fileTransfers r
      fileTransfers' [H|H].
    + eapply uploadFile_completed, H.
    + eapply downloadFile_completed, H.
Qed.

(** * Further properties of the code *)

(** ** The depth of [executeCommand]'s calls to itself *)

Lemma executeCommand_fuel_mono fuel : forall connectionId command options st,
  fst (executeCommand fuel connectionId command options st) <> OutOfFuel ->
  executeCommand (S fuel) connectionId command options st
  = executeCommand fuel connectionId command options st.
Proof.
  induction fuel as [|fuel IH]; intros connectionId command options st Hfuel.
  - exfalso. apply Hfuel. reflexivity.
  - revert Hfuel.
    change (executeCommand (S (S fuel)) connectionId command options st)
      with ((st0 <- get ;;
             match live_connection connectionId st0 with
             | None => throw (not_connected_message connectionId)
             | Some (connection, client) =>
               try_catch
                 (executeCommand_try (executeCommand (S fuel)) connectionId
                    connection client command options)
                 executeCommand_catch
             end) st).
    change (executeCommand (S fuel) connectionId command options st)
      with ((st0 <- get ;;
             match live_connection connectionId st0 with
             | None => throw (not_connected_message connectionId)
             | Some (connection, client) =>
               try_catch
                 (executeCommand_try (executeCommand fuel) connectionId
                    connection client command options)
                 executeCommand_catch
             end) st).
    rewrite !bind_get.
    destruct (live_connection connectionId st) as [[connection client]|];
      [|reflexivity].
    unfold try_catch, executeCommand_try. rewrite !bind_get. cbv zeta.
    destruct (default false _); [reflexivity|].
    destruct (truthy_opt _ && _); [|reflexivity].
    intros Hfuel. rewrite IH; [reflexivity|].
    intros Hout. apply Hfuel.
    destruct (executeCommand fuel connectionId _ options st) as [[r|m|] s];
      simpl in *; congruence.
Qed.

Lemma executeCommand_fuel_independent fuel connectionId command options st :
  3 <= fuel ->
  executeCommand fuel connectionId command options st
  = executeCommand 3 connectionId command options st.
Proof.
  intros Hfuel. induction Hfuel as [|fuel Hfuel IH]; [reflexivity|].
  rewrite executeCommand_fuel_mono; [exact IH|].
  apply executeCommand_within_fuel. exact Hfuel.
Qed.

Lemma reaches_second_word_after_blank u c v :
  is_space c = false -> reaches_second_word 2 (u ++ c :: v) = true.
Proof.
  intros Hc. induction u as [|x u IH]; simpl.
  - rewrite Hc. reflexivity.
  - destruct (is_space x); [exact IH|reflexivity].
Qed.

Lemma has_nonspace_split s :
  has_nonspace s = true ->
  exists u c v, s = u ++ c :: v /\ is_space c = false.
Proof.
  unfold has_nonspace. rewrite existsb_exists. intros (c & Hin & Hc).
  apply in_split in Hin as (u & v & ->). exists u, c, v.
  split; [reflexivity|]. destruct (is_space c); [discriminate|reflexivity].
Qed.

(** With a working directory that is not blank, as every path is, the
    command wrapped once is a docker exec command already. *)
Lemma wrapped_once_not_regular container command session :
  has_nonspace (cs_workingDirectory session) = true ->
  is_type regular
    (parseCommand (buildContainerExecCommand container command (Some session)
                     false)) = false.
Proof.
  intros Hwd. apply parse_docker_not_regular.
  apply has_nonspace_split in Hwd as (u & c & v & Hwd & Hc).
  unfold buildContainerExecCommand. rewrite Hwd.
  replace (truthy (u ++ c :: v)) with true by (destruct u; reflexivity).
  cbn [app].
  match goal with
  | |- isDockerExecCommand (trim (js "docker exec" ++ (js " -w " ++ u ++ c :: v)
                                  ++ ?rest)) = true =>
    replace (js "docker exec" ++ (js " -w " ++ u ++ c :: v) ++ rest)
      with (100%N :: (js "ocker exec -w " ++ u) ++ c :: (v ++ rest))
      by (rewrite <- !app_assoc; reflexivity);
    set (q := v ++ rest)
  end.
  rewrite trim_cons_nonspace by reflexivity.
  rewrite trimEnd_app_nonspace by exact Hc.
  replace (100%N :: (js "ocker exec -w " ++ u) ++ c :: trimEnd q)
    with (js "docker exec" ++ (js " -w " ++ u ++ c :: trimEnd q))
    by (rewrite <- !app_assoc; reflexivity).
  eapply (docker_exec_shape _ 32%N); [reflexivity|reflexivity|].
  change (js " -w " ++ u ++ c :: trimEnd q)
    with (32%N :: 45%N :: 119%N :: 32%N :: (u ++ c :: trimEnd q)).
  cbn [reaches_second_word]. 
  replace (is_space 32) with true by reflexivity.
  replace (is_space 45) with false by reflexivity.
  replace (is_space 119) with false by reflexivity.
  apply reaches_second_word_after_blank, Hc.
Qed.

(** X1: [executeCommand] ends, however long the chain of commands wrapped
    for an active container: what it wrapped twice is never wrapped again,
    so three levels of the method are enough and more levels change
    nothing. When the session of the active container has a working
    directory that is not blank, the command wrapped once is not wrapped
    again. *)
Theorem executeCommand_recursion_bounded fuel connectionId command options st :
  3 <= fuel ->
  fst (executeCommand fuel connectionId command options st) <> OutOfFuel
  /\ executeCommand fuel connectionId command options st
     = executeCommand 3 connectionId command options st
  /\ (forall container container' session session',
        is_type regular
          (parseCommand
             (buildContainerExecCommand container'
                (buildContainerExecCommand container command session false)
                session' false)) = false)
  /\ (forall container session,
        has_nonspace (cs_workingDirectory session) = true ->
        is_type regular
          (parseCommand (buildContainerExecCommand container command
                           (Some session) false)) = false).
Proof.
  intros Hfuel. split; [|split; [|split]].
  - apply executeCommand_within_fuel, Hfuel.
  - apply executeCommand_fuel_independent, Hfuel.
  - intros. apply wrapped_twice_not_regular.
  - intros. apply wrapped_once_not_regular. assumption.
Qed.

(** ** What command execution leaves alone *)

Lemma others_kept_refl connectionId st : others_kept connectionId st st.
Proof. intros id _. reflexivity. Qed.

Lemma others_kept_trans connectionId a b c :
  others_kept connectionId a b -> others_kept connectionId b c ->
  others_kept connectionId a c.
Proof. intros H K id Hid. rewrite K, H by exact Hid. reflexivity. Qed.

#[local] Hint Resolve others_kept_refl others_kept_trans : frame.

Lemma others_kept_connections connectionId st st' :
  connections st' = connections st -> others_kept connectionId st st'.
Proof. intros H id _. rewrite H. reflexivity. Qed.

Lemma execCommand_others connectionId client command opts :
  preserves (others_kept connectionId) (execCommand client command opts).
Proof.
  intros st. apply others_kept_connections. unfold execCommand.
  destruct (ssh_exec _ _ _ _); reflexivity.
Qed.

Lemma getCurrentDirectory_others connectionId connectionId' :
  preserves (others_kept connectionId) (getCurrentDirectory connectionId').
Proof.
  unfold getCurrentDirectory. repeat frame_step. apply execCommand_others.
Qed.

Lemma record_docker_context_others connectionId dockerCmd :
  preserves (others_kept connectionId)
    (record_docker_context dockerCmd connectionId).
Proof.
  intros st. apply others_kept_connections. reflexivity.
Qed.

Lemma docker_exec_loop_connections client connectionId parsedCommand opts cmds :
  forall acc st,
    connections (snd (docker_exec_loop client connectionId parsedCommand opts
                        cmds acc st)) = connections st.
Proof.
  induction cmds as [|dockerCmd rest IH]; intros acc st; cbn [docker_exec_loop];
    [reflexivity|].
  unfold execCommand. destruct (ssh_exec _ _ _ _); [|reflexivity].
  destruct (negb _); cbn [snd]; [reflexivity|]. rewrite IH. reflexivity.
Qed.

Lemma executeDockerContextCommand_connections connectionId parsedCommand options
    st :
  connections (snd (executeDockerContextCommand connectionId parsedCommand
                      options st)) = connections st.
Proof.
  unfold executeDockerContextCommand.
  destruct (connections st !! connectionId) as [connection|]; [|reflexivity].
  destruct (conn_client connection) as [client|]; [|reflexivity].
  match goal with
  | |- context [docker_exec_loop ?c ?i ?p ?o ?l ?a st] =>
    pose proof (docker_exec_loop_connections c i p o l a st) as Hloop;
    destruct (docker_exec_loop c i p o l a st) as [[acc [message|]] st1]
  end; cbn [snd] in *; [assumption|].
  destruct (_ && _ && _); [|assumption].
  unfold execCommand. destruct (ssh_exec _ _ _ _); cbn [snd]; assumption.
Qed.

Lemma execute_plain_others connectionId connection client parsedCommand command
    options :
  preserves (others_kept connectionId)
    (execute_plain connectionId connection client parsedCommand command options).
Proof.
  unfold execute_plain, getCredentials. repeat frame_step;
    auto using execCommand_others, getCurrentDirectory_others,
      record_docker_context_others.
  all: apply preserves_modify; intros st id Hid;
    cbn [connections set_connections]; apply lookup_alter_ne; congruence.
Qed.

Lemma executeCommand_others fuel : forall connectionId command options,
  preserves (others_kept connectionId)
    (executeCommand fuel connectionId command options).
Proof.
  induction fuel as [|fuel IH]; intros connectionId command options;
    cbn [executeCommand].
  - intros st. apply others_kept_refl.
  - unfold executeCommand_try, executeCommand_catch. repeat frame_step;
      auto using execute_plain_others.
    intros st. apply others_kept_connections,
      executeDockerContextCommand_connections.
Qed.

(** X2: whatever the command and whatever the remote answers,
    [executeCommand] leaves the credentials, the saved connections and the
    tunnels as they were, changes no connection record but the one it runs
    on, and of that one nothing but the current directory; what was asked
    of the outside before is still on record. *)
Theorem executeCommand_changes_only_directory fuel connectionId command options
    st :
  let st' := snd (executeCommand fuel connectionId command options st) in
  credentialStore st' = credentialStore st
  /\ connectionCollection st' = connectionCollection st
  /\ tunnels st' = tunnels st
  /\ (forall id, id <> connectionId ->
        connections st' !! id = connections st !! id)
  /\ (forall connection,
        connections st !! connectionId = Some connection ->
        exists dir,
          connections st' !! connectionId
          = Some (with_currentDirectory connection dir))
  /\ exists events, history st' = history st ++ events.
Proof.
  intros st'.
  destruct (executeCommand_frame fuel connectionId command options st)
    as (Hconn & Hcred & Hsaved & Htun & Hhist).
  fold st' in Hconn, Hcred, Hsaved, Htun, Hhist.
  repeat (split; [assumption|]).
  split; [exact (executeCommand_others fuel connectionId command options st)|].
  split; [|exact Hhist].
  intros connection Hc. specialize (Hconn connectionId). rewrite Hc in Hconn.
  destruct (connections st' !! connectionId) as [c'|]; [|discriminate].
  exists (conn_currentDirectory c'). f_equal.
  simpl in Hconn. injection Hconn as Hconn.
  destruct c', connection. unfold erase_dir, with_currentDirectory in *.
  simpl in *. congruence.
Qed.

(** ** The current directory *)

(** The run of a command that goes straight to the remote, without sudo. *)
Lemma executeCommand_plain_run fuel connectionId command options st connection
    client :
  live_connection connectionId st = Some (connection, client) ->
  reaches_execution connectionId command st = true ->
  is_sudo_command command = false ->
  let execOptions := exec_options connection options in
  let st1 := log_io (IoExec client command execOptions) st in
  let run := executeCommand (S fuel) connectionId command options st in
  match ssh_exec (history st) client command execOptions with
  | ExecRejected message =>
    run = (Ret {| stdout := []; stderr := message; code := Some 1%Z |}, st1)
  | ExecResolved out err exit =>
    fst run = Ret {| stdout := out; stderr := err; code := exit |}
    /\ if startsWith (trim command) (js "cd ")
       then connections (snd run)
            = alter (fun c =>
                       with_currentDirectory c
                         (Some (match ssh_exec (history st1) client (js "pwd")
                                        {| cwd := None; timeout := None |} with
                                | ExecResolved o _ _ => trim o
                                | ExecRejected _ => []
                                end)))
                connectionId (connections st)
            /\ history (snd run)
               = history st1
                 ++ [IoExec client (js "pwd") {| cwd := None; timeout := None |}]
       else connections (snd run) = connections st
            /\ history (snd run) = history st1
  end.
Proof.
  intros Hlive Hreach Hsudo execOptions st1 run. subst run.
  unfold reaches_execution in Hreach.
  apply andb_true_iff in Hreach as [Hctx Hwrap].
  apply negb_true_iff in Hctx, Hwrap.
  cbn [executeCommand]. rewrite bind_get, Hlive.
  unfold try_catch, executeCommand_try. rewrite bind_get, Hctx, Hwrap.
  unfold execute_plain. rewrite Hsudo, bind_ret.
  fold execOptions.
  destruct (ssh_exec (history st) client command execOptions)
    as [out err exit|message] eqn:Hexec.
  2:{ rewrite (bind_throws _ _ st message st1);
        [reflexivity|unfold execCommand; rewrite Hexec; reflexivity]. }
  rewrite (bind_run _ _ st {| stdout := out; stderr := err; code := exit |} st1)
    by (unfold execCommand; rewrite Hexec; reflexivity).
  assert (Htail : forall st2,
    let tail :=
      ((if is_type docker_exec (parseCommand command) then
          match pc_dockerCommands (parseCommand command) with
          | dockerCmd :: _ => record_docker_context dockerCmd connectionId
          | [] => ret tt
          end
        else ret tt) ;;;
       ret {| stdout := stdout {| stdout := out; stderr := err; code := exit |};
              stderr := stderr {| stdout := out; stderr := err; code := exit |};
              code := code {| stdout := out; stderr := err; code := exit |} |})
        st2 in
    fst tail = Ret {| stdout := out; stderr := err; code := exit |}
    /\ connections (snd tail) = connections st2
    /\ history (snd tail) = history st2).
  { intros st2. cbv zeta.
    destruct (is_type docker_exec (parseCommand command));
      [|repeat split; reflexivity].
    destruct (pc_dockerCommands (parseCommand command));
      repeat split; reflexivity. }
  destruct (startsWith (trim command) (js "cd ")).
  - set (dir := match ssh_exec (history st1) client (js "pwd")
                        {| cwd := None; timeout := None |} with
                | ExecResolved o _ _ => trim o
                | ExecRejected _ => []
                end).
    set (st2 := set_connections
                  (alter (fun c => with_currentDirectory c (Some dir))
                     connectionId)
                  (log_io (IoExec client (js "pwd")
                             {| cwd := None; timeout := None |}) st1)).
    rewrite (bind_run _ _ st1 tt st2)
      by (unfold bind;
          rewrite (getCurrentDirectory_run connectionId st1 connection client
                     Hlive); reflexivity).
    destruct (Htail st2) as (H1 & H2 & H3). cbv zeta in H1, H2, H3.
    match type of H1 with
    | fst ?t = _ => destruct t as [[r|m|] s3]
    end; simpl in H1, H2, H3; try discriminate.
    injection H1 as ->. simpl. rewrite H2, H3. repeat split; reflexivity.
  - rewrite bind_ret.
    destruct (Htail st1) as (H1 & H2 & H3). cbv zeta in H1, H2, H3.
    match type of H1 with
    | fst ?t = _ => destruct t as [[r|m|] s3]
    end; simpl in H1, H2, H3; try discriminate.
    injection H1 as ->. simpl. rewrite H2, H3. repeat split; reflexivity.
Qed.

Lemma live_connection_alter_dir connectionId st st' connection client dir :
  connections st'
  = alter (fun c => with_currentDirectory c dir) connectionId (connections st) ->
  live_connection connectionId st = Some (connection, client) ->
  live_connection connectionId st'
  = Some (with_currentDirectory connection dir, client).
Proof.
  unfold live_connection. intros ->. rewrite lookup_alter_eq.
  destruct (connections st !! connectionId) as [c|]; [|discriminate].
  cbn [fmap option_fmap option_map conn_client conn_status with_currentDirectory].
  destruct (conn_client c); [|discriminate].
  destruct (is_CONNECTED (conn_status c)); [|discriminate].
  intros [= -> ->]. reflexivity.
Qed.

(** X3: a command that starts with [cd ], goes straight to the remote and
    is answered makes the service ask the remote for [pwd] and keep the
    trimmed answer as the connection's current directory (the empty text
    when [pwd] is rejected). The next command that gives no [cwd] of its
    own is then run in that directory, unless it is the empty text. *)
Theorem executeCommand_cd_sets_directory fuel connectionId command options st
    connection client out err exit :
  live_connection connectionId st = Some (connection, client) ->
  reaches_execution connectionId command st = true ->
  is_sudo_command command = false ->
  startsWith (trim command) (js "cd ") = true ->
  ssh_exec (history st) client command (exec_options connection options)
  = ExecResolved out err exit ->
  let asked := IoExec client command (exec_options connection options) in
  let pwd := IoExec client (js "pwd") {| cwd := None; timeout := None |} in
  let dir := match ssh_exec (history st ++ [asked]) client (js "pwd")
                     {| cwd := None; timeout := None |} with
             | ExecResolved o _ _ => trim o
             | ExecRejected _ => []
             end in
  let run := executeCommand (S fuel) connectionId command options st in
  fst run = Ret {| stdout := out; stderr := err; code := exit |}
  /\ connections (snd run) !! connectionId
     = Some (with_currentDirectory connection (Some dir))
  /\ history (snd run) = history st ++ [asked; pwd]
  /\ forall command2 timeout2,
       reaches_execution connectionId command2 (snd run) = true ->
       is_sudo_command command2 = false ->
       exists events,
         history (snd (executeCommand (S fuel) connectionId command2
                         {| cwd := None; timeout := timeout2 |} (snd run)))
         = history (snd run)
           ++ IoExec client command2
                {| cwd := if truthy dir then Some dir else None;
                   timeout := timeout (exec_options connection
                                         {| cwd := None; timeout := timeout2 |}) |}
              :: events.
Proof.
  intros Hlive Hreach Hsudo Hcd Hexec asked pwd dir run.
  pose proof (executeCommand_plain_run fuel connectionId command options st
                connection client Hlive Hreach Hsudo) as Hrun.
  cbv zeta in Hrun. rewrite Hexec, Hcd in Hrun.
  destruct Hrun as (Hres & Hconn & Hhist). fold run in Hres, Hconn, Hhist.
  change (history (log_io (IoExec client command
                             (exec_options connection options)) st))
    with (history st ++ [asked]) in Hconn, Hhist.
  fold dir in Hconn.
  pose proof (live_connection_alter_dir connectionId st (snd run) connection
                client (Some dir) Hconn Hlive) as Hlive'.
  split; [exact Hres|]. split.
  { apply live_connection_lookup in Hlive' as [H _]. exact H. }
  split; [rewrite Hhist, <- app_assoc; reflexivity|].
  intros command2 timeout2 Hreach2 Hsudo2.
  pose proof (executeCommand_plain_run fuel connectionId command2
                {| cwd := None; timeout := timeout2 |} (snd run)
                (with_currentDirectory connection (Some dir)) client
                Hlive' Hreach2 Hsudo2) as Hrun2.
  cbv zeta in Hrun2.
  assert (Hopts : exec_options (with_currentDirectory connection (Some dir))
                    {| cwd := None; timeout := timeout2 |}
                  = {| cwd := if truthy dir then Some dir else None;
                       timeout := timeout (exec_options connection
                                   {| cwd := None; timeout := timeout2 |}) |}).
  { unfold exec_options. cbn. destruct (truthy dir); reflexivity. }
  rewrite Hopts in Hrun2.
  destruct (ssh_exec (history (snd run)) client command2 _).
  - destruct Hrun2 as (_ & Hrest).
    destruct (startsWith (trim command2) (js "cd ")).
    + destruct Hrest as (_ & ->). eexists. cbn [history log_io].
      rewrite <- app_assoc. reflexivity.
    + destruct Hrest as (_ & ->). exists []. reflexivity.
  - rewrite Hrun2. exists []. reflexivity.
Qed.

(** ** The tool handler's answer *)

Lemma bind_ext {S A B} (m : M S A) (f g : A -> M S B) st :
  (forall a s, f a s = g a s) -> bind m f st = bind m g st.
Proof.
  intros H. unfold bind. destruct (m st) as [[a|e|] s]; [apply H|reflexivity..].
Qed.

Lemma limitOutputLength_truthy text :
  truthy text = true -> truthy (limitOutputLength text) = true.
Proof.
  intros H. unfold limitOutputLength, limitOutputLength_with.
  destruct (_ <=? _)%Z; [exact H|].
  destruct (substring _ _ _); reflexivity.
Qed.

Lemma executeCommandTool_enrich_unused fuel enrich1 enrich2 connectionId command
    cwd timeout force ms :
  executeCommandTool fuel enrich1 connectionId command cwd timeout force ms
  = executeCommandTool fuel enrich2 connectionId command cwd timeout force ms.
Proof.
  unfold executeCommandTool, try_catch.
  match goal with
  | |- (let (_, _) := ?a in _) = (let (_, _) := ?b in _) =>
    assert (Heq : a = b); [|rewrite Heq; reflexivity]
  end.
  rewrite !bind_get.
  destruct (connections (sshService ms) !! connectionId) as [connection|];
    [|reflexivity].
  destruct (negb _); [reflexivity|].
  apply bind_ext. intros [] ms0.
  apply bind_ext. intros [result|] ms1; [reflexivity|].
  apply bind_ext. intros result ms2.
  rewrite !bind_get. cbv zeta.
  rewrite !enrichment_guard_false. reflexivity.
Qed.

(** X4: on a connected connection, a command that is not a [tmux send-keys]
    command is passed to the service once, and the handler answers with the
    rendered result, cut to length, and never as an error, whatever the exit
    code of the command is; the prompt line written into the text shows the
    directory the connection has after the command. The block that would
    enrich the output of a tmux command never runs: the rendered text always
    holds the prompt, so the handler's answer is the same whatever that block
    does, for every command. *)
Theorem executeCommandTool_plain_answer fuel enrich connectionId command cwd
    timeout force ms connection client :
  3 <= fuel ->
  live_connection connectionId (sshService ms) = Some (connection, client) ->
  regex_match_group tmuxSendKeysRegex 1 command = None ->
  let options := {| cwd := cwd; timeout := timeout |} in
  let run := executeCommand fuel connectionId command options (sshService ms) in
  (exists result,
     fst run = Ret result
     /\ executeCommandTool fuel enrich connectionId command cwd timeout force ms
        = (Ret {| tr_text :=
                    limitOutputLength
                      (render_output
                         (default connection (connections (snd run) !! connectionId))
                         result);
                  tr_isError := false |},
           {| sshService := snd run;
              activeConnections :=
                <[connectionId := clock (history (sshService ms))]>
                  (activeConnections ms);
              service_calls :=
                service_calls ms ++ [(connectionId, command, options)] |}))
  /\ (forall enrich' command' cwd' timeout' force' ms',
        executeCommandTool fuel enrich' connectionId command' cwd' timeout' force' ms'
        = executeCommandTool fuel enrich connectionId command' cwd' timeout' force' ms').
Proof.
  intros Hfuel Hlive Hmatch options run. split.
  - destruct (executeCommand_live_step fuel connectionId command options _ _ _
                Hfuel Hlive) as (result & st' & c' & Hrun & _).
    exists result. subst run. rewrite Hrun. split; [reflexivity|].
    eapply executeCommandTool_enter; [exact Hlive|].
    rewrite Hmatch, bind_ret.
    eapply bind_step; [apply call_executeCommand_run; exact Hrun|].
    cbv beta. rewrite bind_get. cbv zeta.
    rewrite enrichment_guard_false, bind_ret.
    rewrite limitOutputLength_truthy by apply render_output_not_blank.
    reflexivity.
  - intros. apply executeCommandTool_enrich_unused.
Qed.

(** ** Leaving and forgetting a connection *)

Lemma disconnect_cases connectionId st :
  let run := disconnect connectionId st in
  history (snd run) = history st
  /\ containerSessions (snd run) = containerSessions st
  /\ credentialStore (snd run) = credentialStore st
  /\ connectionCollection (snd run) = connectionCollection st
  /\ tunnels (snd run) = tunnels st
  /\ others_kept connectionId st (snd run)
  /\ match connections st !! connectionId with
     | None => run = (Ret false, st)
     | Some connection =>
       match conn_client connection with
       | None => run = (Ret false, st)
       | Some client =>
         match ssh_dispose (history st) client with
         | None =>
           fst run = Ret true
           /\ connections (snd run) !! connectionId
              = Some (with_status connection DISCONNECTED None
                        (conn_lastError connection))
         | Some message =>
           fst run = Ret false
           /\ connections (snd run) !! connectionId
              = Some (with_status connection ERROR (Some client) (Some message))
         end
       end
     end.
Proof.
  cbv zeta. unfold disconnect. rewrite bind_get.
  destruct (connections st !! connectionId) as [connection|] eqn:Hconn;
    [|repeat split; auto with frame].
  destruct (conn_client connection) as [client|] eqn:Hclient;
    [|repeat split; auto with frame].
  destruct (ssh_dispose (history st) client) as [message|];
    unfold update_connection; rewrite bind_modify; cbv beta;
    cbn [fst snd set_connections history containerSessions credentialStore
         connectionCollection tunnels connections ret];
    (repeat split;
     [intros id Hid; cbn; rewrite lookup_alter_ne by congruence; reflexivity
     |rewrite lookup_alter_eq, Hconn; cbn; rewrite ?Hclient; reflexivity]).
Qed.

Lemma disconnect_not_live connectionId st :
  live_connection connectionId (snd (disconnect connectionId st)) = None.
Proof.
  pose proof (disconnect_cases connectionId st) as H. cbv zeta in H.
  destruct H as (_ & _ & _ & _ & _ & _ & H).
  unfold live_connection.
  destruct (connections st !! connectionId) as [connection|] eqn:Hconn.
  - destruct (conn_client connection) as [client|] eqn:Hclient.
    + destruct (ssh_dispose (history st) client) as [message|];
        destruct H as [_ ->]; reflexivity.
    + rewrite H. cbn [snd]. rewrite Hconn, Hclient. reflexivity.
  - rewrite H. cbn [snd]. rewrite Hconn. reflexivity.
Qed.

(** X5: [disconnect] never rejects, also when the client's [dispose] does: it
    answers [true] exactly when the connection has a client whose [dispose]
    resolves. Whatever it answers, the connection is afterwards not usable:
    [executeCommand] and [createTunnel] on it reject with the message that
    it is not connected. The record stays in the registry, with its
    configuration; the other connections, the tunnels (also those of this
    connection), the container sessions and what is stored are left as they
    were. *)
Theorem disconnect_ends_commands fuel connectionId command options st
    tunnelId localPort remoteHost remotePort description :
  let run := disconnect connectionId st in
  let tunnel := {| tc_id := tunnelId; tc_connectionId := connectionId;
                   tc_localPort := localPort; tc_remoteHost := remoteHost;
                   tc_remotePort := remotePort; tc_description := description |} in
  (exists answer, fst run = Ret answer)
  /\ (fst run = Ret true
      <-> exists connection client,
            connections st !! connectionId = Some connection
            /\ conn_client connection = Some client
            /\ ssh_dispose (history st) client = None)
  /\ executeCommand (S fuel) connectionId command options (snd run)
     = (Throw (not_connected_message connectionId), snd run)
  /\ createTunnel tunnel (snd run)
     = (Throw (not_connected_message connectionId), snd run)
  /\ conn_config <$> connections (snd run) !! connectionId
     = conn_config <$> connections st !! connectionId
  /\ others_kept connectionId st (snd run)
  /\ tunnels (snd run) = tunnels st
  /\ containerSessions (snd run) = containerSessions st
  /\ credentialStore (snd run) = credentialStore st
  /\ connectionCollection (snd run) = connectionCollection st.
Proof.
  intros run tunnel.
  pose proof (disconnect_cases connectionId st) as H. cbv zeta in H.
  fold run in H. destruct H as (_ & Hs & Hc & Hcc & Ht & Ho & H).
  pose proof (disconnect_not_live connectionId st) as Hlive. fold run in Hlive.
  assert (Hshape :
    (exists answer, fst run = Ret answer)
    /\ (fst run = Ret true
        <-> exists connection client,
              connections st !! connectionId = Some connection
              /\ conn_client connection = Some client
              /\ ssh_dispose (history st) client = None)
    /\ conn_config <$> connections (snd run) !! connectionId
       = conn_config <$> connections st !! connectionId).
  { destruct (connections st !! connectionId) as [connection|] eqn:Hconn.
    - destruct (conn_client connection) as [client|] eqn:Hclient.
      + destruct (ssh_dispose (history st) client) as [message|] eqn:Hd;
          destruct H as [Hr Hrec]; rewrite Hr, Hrec.
        * split; [eauto|]. split; [|reflexivity]. split; [discriminate|].
          intros (c & cl & Hc' & Hcl & Hd'). congruence.
        * split; [eauto|]. split; [|reflexivity]. split; [|reflexivity].
          intros _. eauto.
      + rewrite H. cbn [fst snd]. rewrite Hconn.
        split; [eauto|]. split; [|reflexivity]. split; [discriminate|].
        intros (c & cl & Hc' & Hcl & _). congruence.
    - rewrite H. cbn [fst snd]. rewrite Hconn.
      split; [eauto|]. split; [|reflexivity]. split; [discriminate|].
      intros (c & cl & Hc' & _). congruence. }
  destruct Hshape as (H1 & H2 & H3).
  split; [exact H1|]. split; [exact H2|].
  split; [apply executeCommand_not_connected, Hlive|].
  split.
  { unfold createTunnel. rewrite bind_get. subst tunnel.
    cbn [tc_connectionId]. rewrite Hlive. reflexivity. }
  repeat split; assumption.
Qed.

Lemma deleteConnection_run connectionId st :
  deleteConnection connectionId st
  = (Ret true,
     set_credentialStore (delete connectionId)
       (set_connections (delete connectionId)
          (set_connectionCollection (delete connectionId)
             (snd (disconnect connectionId st))))).
Proof.
  unfold deleteConnection.
  pose proof (disconnect_cases connectionId st) as H. cbv zeta in H.
  destruct H as (_ & _ & _ & _ & _ & _ & H).
  assert (Hret : exists answer,
            disconnect connectionId st
            = (Ret answer, snd (disconnect connectionId st))).
  { destruct (disconnect connectionId st) as [r s] eqn:E. cbn [fst snd] in *.
    destruct (connections st !! connectionId) as [connection|].
    - destruct (conn_client connection) as [client|].
      + destruct (ssh_dispose (history st) client);
          destruct H as [-> _]; eauto.
      + injection H as -> ->. eauto.
    - injection H as -> ->. eauto. }
  destruct Hret as [answer Hret].
  eapply bind_step; [exact Hret|]. cbv beta.
  rewrite !bind_modify. reflexivity.
Qed.

(** X6: [deleteConnection] always answers [true]. Afterwards the registry,
    the saved connections and the stored credentials hold nothing under the
    connection's id, so that a command on it is rejected as not connected;
    what they hold under other ids is kept. The tunnels and the container
    sessions of the connection are not touched: an active tunnel of the
    deleted connection is still listed. *)
Theorem deleteConnection_forgets fuel connectionId command options st :
  let run := deleteConnection connectionId st in
  fst run = Ret true
  /\ getConnection connectionId (snd run) = None
  /\ connectionCollection (snd run) !! connectionId = None
  /\ credentialStore (snd run) !! connectionId = None
  /\ executeCommand (S fuel) connectionId command options (snd run)
     = (Throw (not_connected_message connectionId), snd run)
  /\ (forall id, id <> connectionId ->
        connections (snd run) !! id = connections st !! id
        /\ connectionCollection (snd run) !! id = connectionCollection st !! id
        /\ credentialStore (snd run) !! id = credentialStore st !! id)
  /\ tunnels (snd run) = tunnels st
  /\ getTunnels (snd run) = getTunnels st
  /\ containerSessions (snd run) = containerSessions st.
Proof.
  intros run. subst run. rewrite deleteConnection_run. cbn [fst snd].
  pose proof (disconnect_cases connectionId st) as H. cbv zeta in H.
  destruct H as (_ & Hs & Hc & Hcc & Ht & Ho & _).
  unfold getConnection, getTunnels, live_connection.
  unfold set_credentialStore, set_connections, set_connectionCollection.
  cbn [connections connectionCollection credentialStore tunnels
       containerSessions].
  rewrite Hs, Hc, Hcc, Ht, !lookup_delete_eq.
  split; [reflexivity|]. split; [reflexivity|]. split; [reflexivity|].
  split; [reflexivity|].
  split.
  { apply executeCommand_not_connected. unfold live_connection.
    cbn [connections]. rewrite lookup_delete_eq. reflexivity. }
  split; [|auto].
  intros id Hid. rewrite !lookup_delete_ne by congruence.
  split; [apply Ho, Hid|split; reflexivity].
Qed.

(** ** Tunnels *)

Lemma createTunnel_listening config st connection client :
  live_connection (tc_connectionId config) st = Some (connection, client) ->
  tunnel_port_taken (tc_localPort config) st = false ->
  tcp_listen (history st) (tc_localPort config) = None ->
  let tunnelId := tunnel_id_for config st in
  let server := next_handle st in
  exists st1,
    createTunnel config st = (Ret tunnelId, st1)
    /\ tunnels st1 = <[tunnelId := listening_tunnel config tunnelId server]> (tunnels st)
    /\ history st1 = history st ++ [IoListen server (tc_localPort config)]
    /\ connections st1 = connections st.
Proof.
  intros Hlive Hfree Hlisten tunnelId server.
  unfold createTunnel. rewrite bind_get, Hlive. fold (tunnel_id_for config st).
  fold tunnelId. rewrite Hfree.
  eexists. split.
  - apply try_catch_run.
    eapply bind_step; [reflexivity|]. cbv beta.
    rewrite bind_modify. cbv beta.
    eapply bind_step; [unfold listen; cbn [history set_tunnels];
                       rewrite Hlisten; reflexivity|].
    reflexivity.
  - cbn [tunnels history connections set_tunnels log_io take_handle].
    split; [|split; reflexivity].
    rewrite alter_insert_eq. reflexivity.
Qed.

(** X7: a tunnel created on a connected connection, on a local port no
    active tunnel holds and that can be bound, is filed under its id as
    active and listed by [getTunnels] with that id in its configuration;
    while it is there, creating another tunnel on the same local port is
    refused. Closing it answers [true], closes its server, and leaves the
    tunnels as they were without that id; closing it once more answers
    [false] and does nothing. *)
Theorem createTunnel_closeTunnel_round_trip config config2 st connection client :
  live_connection (tc_connectionId config) st = Some (connection, client) ->
  tunnel_port_taken (tc_localPort config) st = false ->
  tcp_listen (history st) (tc_localPort config) = None ->
  tc_connectionId config2 = tc_connectionId config ->
  tc_localPort config2 = tc_localPort config ->
  let tunnelId := tunnel_id_for config st in
  let server := next_handle st in
  let st1 := snd (createTunnel config st) in
  let st2 := snd (closeTunnel tunnelId st1) in
  fst (createTunnel config st) = Ret tunnelId
  /\ tunnels st1 !! tunnelId = Some (listening_tunnel config tunnelId server)
  /\ with_tunnel_id config tunnelId ∈ getTunnels st1
  /\ createTunnel config2 st1
     = (Throw (js "本地端口 " ++ Z_to_js (tc_localPort config)
               ++ js " 已被另一个隧道使用"), st1)
  /\ fst (closeTunnel tunnelId st1) = Ret true
  /\ tunnels st2 = delete tunnelId (tunnels st)
  /\ history st2
     = history st ++ [IoListen server (tc_localPort config);
                      IoServerRemoveAllListeners server; IoServerClose server]
  /\ closeTunnel tunnelId st2 = (Ret false, st2).
Proof.
  intros Hlive Hfree Hlisten Hsame Hport tunnelId server st1 st2.
  destruct (createTunnel_listening config st connection client Hlive Hfree Hlisten)
    as (s1 & Hrun & Ht & Hh & Hc).
  fold tunnelId server in Hrun, Ht.
  assert (Hs1 : st1 = s1) by (subst st1; rewrite Hrun; reflexivity).
  rewrite Hrun. cbn [fst]. clearbody st1. subst s1.
  assert (Hfound : tunnels st1 !! tunnelId
                   = Some (listening_tunnel config tunnelId server))
    by (rewrite Ht; apply lookup_insert_eq).
  split; [reflexivity|]. split; [exact Hfound|].
  split.
  { unfold getTunnels.
    apply (list_elem_of_fmap_2 tn_config _
             (listening_tunnel config tunnelId server)).
    apply list_elem_of_filter. split; [reflexivity|].
    apply (list_elem_of_fmap_2 snd _ (tunnelId, _)).
    apply elem_of_map_to_list. exact Hfound. }
  split.
  { unfold createTunnel. rewrite bind_get.
    assert (Hlive1 : live_connection (tc_connectionId config2) st1
                     = Some (connection, client)).
    { rewrite Hsame. unfold live_connection in *. rewrite Hc. exact Hlive. }
    rewrite Hlive1.
    replace (tunnel_port_taken (tc_localPort config2) st1) with true.
    - rewrite Hport. reflexivity.
    - symmetry. apply tunnel_port_taken_spec.
      exists tunnelId, (listening_tunnel config tunnelId server).
      repeat split; [exact Hfound|]. cbn. symmetry. exact Hport. }
  destruct (closeTunnel_found tunnelId _ st1 Hfound)
    as (s2 & Hclose & Ht2 & _ & Hh2).
  assert (Hs2 : st2 = s2) by (subst st2; rewrite Hclose; reflexivity).
  rewrite Hclose. cbn [fst]. clearbody st2. subst s2.
  split; [reflexivity|].
  split.
  { rewrite Ht2, Ht. apply delete_insert_eq. }
  split.
  { rewrite Hh2, Hh. cbn. rewrite <- app_assoc. reflexivity. }
  unfold closeTunnel. rewrite bind_get, Ht2, lookup_delete_eq. reflexivity.
Qed.

(** X8: when the local port cannot be bound, [createTunnel] rejects with the
    listener's error. It has then started to close the tunnel, without
    waiting for the end of it: the server it had made has lost its listeners
    and was asked to close, but the tunnel's record is still filed under the
    tunnel's id, inactive and without sockets. No tunnel is listed that was
    not listed before, and the port does not count as taken. The record is
    taken away only when the server has reported that it closed: the tunnels
    are then as they were before, without that id. *)
Theorem createTunnel_listen_failure config st connection client message :
  live_connection (tc_connectionId config) st = Some (connection, client) ->
  tunnel_port_taken (tc_localPort config) st = false ->
  tcp_listen (history st) (tc_localPort config) = Some message ->
  let tunnelId := tunnel_id_for config st in
  let server := next_handle st in
  let run := createTunnel config st in
  fst run = Throw message
  /\ tunnels (snd run)
     = <[tunnelId := {| tn_config := with_tunnel_id config tunnelId;
                        tn_server := Some server; tn_connections := [];
                        tn_isActive := false |}]> (tunnels st)
  /\ history (snd run)
     = history st ++ [IoListen server (tc_localPort config);
                      IoServerRemoveAllListeners server; IoServerClose server]
  /\ connections (snd run) = connections st
  /\ (forall listed, listed ∈ getTunnels (snd run) -> listed ∈ getTunnels st)
  /\ tunnel_port_taken (tc_localPort config) (snd run) = false
  /\ closeTunnel_finish tunnelId (snd run)
     = (Ret true, set_tunnels (fun _ => delete tunnelId (tunnels st)) (snd run)).
Proof.
  intros Hlive Hfree Hlisten tunnelId server run. subst run.
  unfold createTunnel. rewrite bind_get, Hlive. fold (tunnel_id_for config st).
  fold tunnelId. rewrite Hfree.
  set (record := {| tn_config := with_tunnel_id config tunnelId;
                    tn_server := Some server; tn_connections := [];
                    tn_isActive := false |}).
  set (st1 := log_io (IoListen server (tc_localPort config))
                (set_tunnels (insert tunnelId record) (snd (take_handle st)))).
  assert (Hbody :
    (server <- (fun st => let '(h, st') := take_handle st in (Ret h, st')) ;;
     modify (set_tunnels (insert tunnelId
       {| tn_config := with_tunnel_id config tunnelId;
          tn_server := Some server; tn_connections := [];
          tn_isActive := false |})) ;;;
     listen server tunnelId (tc_localPort config) ;;;
     ret tunnelId) st = (Throw message, st1)).
  { eapply bind_step; [reflexivity|]. cbv beta.
    rewrite bind_modify. cbv beta.
    erewrite bind_throws; [reflexivity|].
    unfold listen. cbn [history set_tunnels take_handle snd].
    rewrite Hlisten. reflexivity. }
  rewrite (try_catch_throws _ _ _ _ _ Hbody).
  assert (Hfound : tunnels st1 !! tunnelId = Some record)
    by (subst st1; cbn; apply lookup_insert_eq).
  set (st2 := log_io (IoServerClose server)
                (log_io (IoServerRemoveAllListeners server)
                   (set_tunnels (alter (fun t =>
                      {| tn_config := tn_config t; tn_server := tn_server t;
                         tn_connections := []; tn_isActive := tn_isActive t |})
                      tunnelId) st1))).
  assert (Hclose : closeTunnel_unawaited tunnelId st1 = (Ret tt, st2)).
  { unfold closeTunnel_unawaited. rewrite bind_get, Hfound.
    unfold closeTunnel_begin. subst record. cbn [tn_connections tn_server foldl].
    reflexivity. }
  rewrite (bind_run _ _ st1 tt st2) by exact Hclose.
  cbn [fst snd throw].
  assert (Ht2 : tunnels st2 = <[tunnelId := record]> (tunnels st)).
  { subst st2 st1. cbn [tunnels log_io set_tunnels take_handle snd].
    rewrite alter_insert_eq. reflexivity. }
  split; [reflexivity|]. split; [exact Ht2|].
  split; [subst st2 st1; cbn; rewrite <- !app_assoc; reflexivity|].
  split; [reflexivity|].
  assert (Hactive : forall id t, tunnels st2 !! id = Some t ->
            tn_isActive t = true ->
            tunnels st !! id = Some t).
  { intros id t. rewrite Ht2, lookup_insert. case_decide as Hid.
    - intros [= <-]. discriminate.
    - auto. }
  split; [|split].
  - intros listed. unfold getTunnels.
    intros Hin. apply list_elem_of_fmap in Hin as (t & -> & Hin).
    apply list_elem_of_filter in Hin as [Hact Hin].
    apply list_elem_of_fmap in Hin as ([id t'] & -> & Hin).
    apply elem_of_map_to_list in Hin. cbn [snd] in *.
    apply (list_elem_of_fmap_2 tn_config).
    apply list_elem_of_filter. split; [exact Hact|].
    apply (list_elem_of_fmap_2 snd _ (id, t')).
    apply elem_of_map_to_list. apply Hactive; assumption.
  - destruct (tunnel_port_taken (tc_localPort config) st2) eqn:Htaken;
      [|reflexivity].
    apply tunnel_port_taken_spec in Htaken as (id & t & Hl & Ha & Hp).
    rewrite <- Hfree. symmetry. apply tunnel_port_taken_spec.
    exists id, t. split; [|split; assumption]. apply Hactive; assumption.
  - unfold closeTunnel_finish. rewrite bind_modify. cbv beta.
    rewrite bind_modify. cbv beta. unfold ret, set_tunnels.
    cbn [tunnels connections containerSessions credentialStore
         connectionCollection sockets next_handle history].
    do 2 f_equal. rewrite Ht2.
    apply map_eq. intros id. destruct (decide (id = tunnelId)) as [->|Hne].
    + rewrite !lookup_delete_eq. reflexivity.
    + rewrite !lookup_delete_ne, lookup_alter_ne, lookup_insert_ne
        by congruence. reflexivity.
Qed.

(** ** Connecting *)

(** X9: when the transport refuses a connection that was not known before,
    [connect] rejects with the transport's error and leaves a record of the
    connection behind: without client, with the error as [lastError], and in
    state [ERROR], or [RECONNECTING] when the configuration asks for
    reconnection (a reconnection is then scheduled). Nothing is saved, and
    commands on the connection are rejected as not connected. *)
Theorem connect_failure_recorded fuel config name rememberPassword tags st
    message command options :
  let connectionId := generateConnectionId config in
  let config1 := config_with_saved config st in
  connections st !! connectionId = None ->
  ssh_connect (history st) (connect_options config1) = Some message ->
  let run := connect config name rememberPassword tags st in
  fst run = Throw message
  /\ connections (snd run)
     = <[connectionId :=
           {| conn_id := connectionId;
              conn_name := if truthy_opt name then name
                           else Some (cfg_username config ++ js "@"
                                      ++ cfg_host config);
              conn_config := config1;
              conn_status := if wants_reconnect config then RECONNECTING
                             else ERROR;
              conn_lastUsed := Some (clock (history st));
              conn_lastError := Some message;
              conn_client := None;
              conn_tags := tags;
              conn_currentDirectory := None |}]> (connections st)
  /\ history (snd run)
     = history st
       ++ IoConnect (next_handle st) (connect_options config1)
          :: (if wants_reconnect config then [IoScheduleReconnect connectionId]
              else [])
  /\ credentialStore (snd run) = credentialStore st
  /\ connectionCollection (snd run) = connectionCollection st
  /\ fst (executeCommand (S fuel) connectionId command options (snd run))
     = Throw (not_connected_message connectionId).
Proof.
  intros connectionId config1 Hnew Hrefused run.
  assert (Hrun :
    fst run = Throw message
    /\ connections (snd run)
       = <[connectionId :=
             {| conn_id := connectionId;
                conn_name := if truthy_opt name then name
                             else Some (cfg_username config ++ js "@"
                                        ++ cfg_host config);
                conn_config := config1;
                conn_status := if wants_reconnect config then RECONNECTING
                               else ERROR;
                conn_lastUsed := Some (clock (history st));
                conn_lastError := Some message;
                conn_client := None;
                conn_tags := tags;
                conn_currentDirectory := None |}]> (connections st)
    /\ history (snd run)
       = history st
         ++ IoConnect (next_handle st) (connect_options config1)
            :: (if wants_reconnect config then [IoScheduleReconnect connectionId]
                else [])
    /\ credentialStore (snd run) = credentialStore st
    /\ connectionCollection (snd run) = connectionCollection st).
  { subst run. unfold connect. rewrite bind_get. fold connectionId.
    unfold live_connection. rewrite Hnew. rewrite bind_modify. cbv beta.
    match goal with
    | |- context [try_catch ?body ?handler ?s0] =>
      set (st0 := s0);
      assert (Hbody : exists st1,
                body st0 = (Throw message, st1)
                /\ connections st1
                   = alter (fun c =>
                       {| conn_id := conn_id c; conn_name := conn_name c;
                          conn_config := config1; conn_status := conn_status c;
                          conn_lastUsed := conn_lastUsed c;
                          conn_lastError := conn_lastError c;
                          conn_client := conn_client c; conn_tags := conn_tags c;
                          conn_currentDirectory := conn_currentDirectory c |})
                       connectionId (connections st0)
                /\ history st1
                   = history st
                     ++ [IoConnect (next_handle st) (connect_options config1)]
                /\ credentialStore st1 = credentialStore st
                /\ connectionCollection st1 = connectionCollection st)
    end.
    { subst config1. unfold config_with_saved in *.
      fold connectionId in Hrefused |- *.
      destruct (negb (truthy_opt (cfg_password config))
                && negb (truthy_opt (cfg_privateKey config))) eqn:Hcred.
      - eexists. split.
        + eapply bind_step.
          { unfold getCredentials, update_connection, bind, get, ret, modify.
            reflexivity. }
          cbv beta. erewrite bind_throws; [reflexivity|].
          unfold new_transport. subst st0.
          cbn [take_handle history set_connections log_io credentialStore].
          rewrite Hrefused. reflexivity.
        + subst st0. cbn. auto.
      - eexists. split.
        + rewrite bind_ret. erewrite bind_throws; [reflexivity|].
          unfold new_transport. subst st0.
          cbn [take_handle history set_connections log_io credentialStore].
          rewrite Hrefused. reflexivity.
        + subst st0. cbn. repeat split; try reflexivity.
          rewrite alter_insert_eq. reflexivity. }
    destruct Hbody as (st1 & Hbody & Hc1 & Hh1 & Hs1 & Hcc1).
    rewrite (try_catch_throws _ _ _ _ _ Hbody).
    fold (wants_reconnect config).
    set (failed_record := fun c : SSHConnection =>
           {| conn_id := conn_id c; conn_name := conn_name c;
              conn_config := conn_config c; conn_status := ERROR;
              conn_lastUsed := conn_lastUsed c;
              conn_lastError := Some message;
              conn_client := conn_client c; conn_tags := conn_tags c;
              conn_currentDirectory := conn_currentDirectory c |}).
    set (stE := set_connections (alter failed_record connectionId) st1).
    assert (Hrecord :
      connections stE
      = <[connectionId :=
            {| conn_id := connectionId;
               conn_name := if truthy_opt name then name
                            else Some (cfg_username config ++ js "@"
                                       ++ cfg_host config);
               conn_config := config1;
               conn_status := ERROR;
               conn_lastUsed := Some (clock (history st));
               conn_lastError := Some message;
               conn_client := None;
               conn_tags := tags;
               conn_currentDirectory := None |}]> (connections st)).
    { subst stE. cbn [connections set_connections]. rewrite Hc1. subst st0.
      cbn [connections set_connections]. rewrite !alter_insert_eq. reflexivity. }
    match goal with
    | |- fst ?r = _ /\ _ =>
      assert (Hres : exists final,
                r = (Throw message, final)
                /\ connections final
                   = (if wants_reconnect config
                      then alter (fun c =>
                             {| conn_id := conn_id c; conn_name := conn_name c;
                                conn_config := conn_config c;
                                conn_status := RECONNECTING;
                                conn_lastUsed := conn_lastUsed c;
                                conn_lastError := conn_lastError c;
                                conn_client := conn_client c;
                                conn_tags := conn_tags c;
                                conn_currentDirectory := conn_currentDirectory c |})
                             connectionId (connections stE)
                      else connections stE)
                /\ history final
                   = history st1
                     ++ (if wants_reconnect config
                         then [IoScheduleReconnect connectionId] else [])
                /\ credentialStore final = credentialStore st1
                /\ connectionCollection final = connectionCollection st1)
    end.
    { unfold update_connection at 1. rewrite bind_modify. cbv beta.
      fold failed_record. fold stE.
      destruct (wants_reconnect config).
      - unfold scheduleReconnect.
        eexists. split.
        + eapply bind_step; [|reflexivity].
          rewrite bind_get, Hrecord, lookup_insert_eq.
          unfold update_connection. rewrite bind_modify. reflexivity.
        + cbn. auto.
      - rewrite bind_ret. eexists. split; [reflexivity|].
        cbn. rewrite app_nil_r. auto. }
    destruct Hres as (final & -> & Hcf & Hhf & Hsf & Hccf).
    cbn [fst snd]. split; [reflexivity|].
    rewrite Hcf, Hhf, Hsf, Hccf, Hh1, Hs1, Hcc1, Hrecord, <- app_assoc.
    repeat split; try reflexivity.
    destruct (wants_reconnect config); [|reflexivity].
    rewrite alter_insert_eq. reflexivity. }
  destruct Hrun as (H1 & H2 & H3 & H4 & H5).
  repeat (split; [assumption|]).
  rewrite executeCommand_not_connected; [reflexivity|].
  unfold live_connection. rewrite H2, lookup_insert_eq. cbn [conn_client].
  reflexivity.
Qed.

Lemma history_extends_refl st : history_extends st st.
Proof. exists []. symmetry. apply app_nil_r. Qed.

Lemma history_extends_trans a b c :
  history_extends a b -> history_extends b c -> history_extends a c.
Proof.
  intros [e1 H1] [e2 H2]. exists (e1 ++ e2).
  rewrite H2, H1, app_assoc. reflexivity.
Qed.

#[local] Hint Resolve history_extends_refl history_extends_trans : frame.

Lemma history_extends_same st st' :
  history st' = history st -> history_extends st st'.
Proof. intros H. exists []. rewrite H. symmetry. apply app_nil_r. Qed.

Lemma service_frame_history st st' : service_frame st st' -> history_extends st st'.
Proof. intros (_ & _ & _ & _ & H). exact H. Qed.

Lemma update_connection_history connectionId f :
  preserves history_extends (update_connection connectionId f).
Proof. intros st. apply history_extends_same. reflexivity. Qed.

Lemma saveCredentials_history id password passphrase :
  preserves history_extends (saveCredentials id password passphrase).
Proof.
  intros st. apply history_extends_same. unfold saveCredentials.
  destruct isDocker; reflexivity.
Qed.

Lemma saveConnection_history connection :
  preserves history_extends (saveConnection connection).
Proof. intros st. apply history_extends_same. reflexivity. Qed.

Lemma scheduleReconnect_history connectionId :
  preserves history_extends (scheduleReconnect connectionId).
Proof.
  intros st. unfold scheduleReconnect. rewrite bind_get.
  destruct (connections st !! connectionId); [|apply history_extends_refl].
  unfold update_connection. rewrite bind_modify.
  exists [IoScheduleReconnect connectionId]. reflexivity.
Qed.

Lemma getCurrentDirectory_history connectionId :
  preserves history_extends (getCurrentDirectory connectionId).
Proof. intros st. apply service_frame_history, getCurrentDirectory_frame. Qed.

Lemma try_catch_preserves_from {S A} (P : S -> S -> Prop) (m : M S A) h st :
  (forall a b c, P a b -> P b c -> P a c) ->
  (forall message, preserves P (h message)) ->
  P st (snd (m st)) -> P st (snd (try_catch m h st)).
Proof.
  intros Htrans Hh Hm. unfold try_catch.
  destruct (m st) as [[a|message|] st']; cbn [snd] in *; [assumption| |assumption].
  eapply Htrans; [exact Hm|apply Hh].
Qed.

(** The first thing [connect] does on a connection that is not connected,
    known or not: it asks the transport, with the stored password and
    passphrase filled in when the caller gave neither password nor key. *)
Lemma connect_asks config name rememberPassword tags st :
  live_connection (generateConnectionId config) st = None ->
  exists events,
    history (snd (connect config name rememberPassword tags st))
    = history st
      ++ IoConnect (next_handle st)
           (connect_options (config_with_saved config st)) :: events.
Proof.
  intros Hlive. unfold connect. rewrite bind_get. cbv zeta. rewrite Hlive.
  set (connectionId := generateConnectionId config).
  match goal with
  | |- context [bind ?first (fun _ => try_catch ?body ?handler) st] =>
    assert (Hfirst : exists st0,
              first st = (Ret tt, st0) /\ history st0 = history st
              /\ next_handle st0 = next_handle st
              /\ credentialStore st0 = credentialStore st);
    [|destruct Hfirst as (st0 & Hfirst & Hh0 & Hn0 & Hs0);
      rewrite (bind_run _ _ st tt st0) by exact Hfirst]
  end.
  { destruct (connections st !! connectionId); eexists; split;
      try reflexivity; auto. }
  match goal with
  | |- exists events, history (snd ?r) = _ =>
    assert (Hgoal : history_extends
              (log_io (IoConnect (next_handle st)
                         (connect_options (config_with_saved config st)))
                 (snd (take_handle st0)))
              (snd r))
  end.
  2:{ destruct Hgoal as [events Hgoal]. exists events.
      rewrite Hgoal. cbn [history log_io take_handle snd]. rewrite Hh0.
      rewrite <- app_assoc. reflexivity. }
  assert (Hhandler : forall message,
    preserves history_extends
      (update_connection connectionId (fun c =>
         {| conn_id := conn_id c; conn_name := conn_name c;
            conn_config := conn_config c; conn_status := ERROR;
            conn_lastUsed := conn_lastUsed c;
            conn_lastError := Some message;
            conn_client := conn_client c; conn_tags := conn_tags c;
            conn_currentDirectory := conn_currentDirectory c |}) ;;;
       (if default false (cfg_reconnect config)
           && truthy_num (cfg_reconnectTries config)
           && (0 <? default 0 (cfg_reconnectTries config))%Z
        then scheduleReconnect connectionId else ret tt) ;;;
       throw (A := SSHConnection) message)).
  { intros message.
    repeat first [apply update_connection_history
                 |apply scheduleReconnect_history
                 |frame_step]. }
  unfold try_catch.
  match goal with
  | |- history_extends ?s2 (snd (let (_, _) := bind ?cred ?rest st0 in _)) =>
    assert (Hcred : exists st0',
              cred st0 = (Ret (config_with_saved config st), st0')
              /\ history st0' = history st0
              /\ next_handle st0' = next_handle st0)
  end.
  { unfold config_with_saved. fold connectionId.
    destruct (negb (truthy_opt (cfg_password config))
              && negb (truthy_opt (cfg_privateKey config))).
    - unfold getCredentials, update_connection, bind, get, ret, modify.
      rewrite Hs0.
      destruct (connections st !! connectionId); eexists;
        (split; [reflexivity|split; reflexivity]).
    - eexists. split; [reflexivity|split; reflexivity]. }
  destruct Hcred as (st0' & Hcred & Hh0' & Hn0').
  rewrite (bind_run _ _ st0 _ st0') by exact Hcred.
  unfold new_transport at 1, bind at 1.
  cbn [take_handle]. rewrite Hn0', Hn0, Hh0', Hh0.
  set (config1 := config_with_saved config st).
  set (st2 := log_io (IoConnect (next_handle st) (connect_options config1))
                {| connections := connections st0';
                   containerSessions := containerSessions st0';
                   credentialStore := credentialStore st0';
                   connectionCollection := connectionCollection st0';
                   tunnels := tunnels st0';
                   next_handle := S (next_handle st);
                   history := history st |}).
  assert (Hst2 : history_extends
            (log_io (IoConnect (next_handle st) (connect_options config1))
               (snd (take_handle st0))) st2).
  { apply history_extends_same. subst st2. cbn. rewrite Hh0. reflexivity. }
  eapply history_extends_trans; [exact Hst2|].
  cbn [history].
  destruct (ssh_connect (history st) (connect_options config1)) as [message|];
    cbv beta iota.
  - apply Hhandler.
  - match goal with
    | |- history_extends st2 (snd (let (_, _) := ?rest st2 in _)) =>
      assert (Hrest : history_extends st2 (snd (rest st2)))
    end.
    { match goal with
      | |- history_extends st2 (snd (?rest st2)) =>
        assert (Hp : preserves history_extends rest); [|apply Hp]
      end.
      repeat first [apply update_connection_history
                   |apply getCurrentDirectory_history
                   |apply saveCredentials_history
                   |apply saveConnection_history
                   |frame_step]. }
    match type of Hrest with
    | history_extends st2 (snd ?r) => destruct r as [[a|message|] st3]
    end; cbn [snd] in *; [assumption| |assumption].
    eapply history_extends_trans; [exact Hrest|apply Hhandler].
Qed.

Lemma saveCredentials_password id password passphrase st :
  truthy_opt password = true ->
  cred_password <$> credentialStore
                      (snd (saveCredentials id password passphrase st)) !! id
  = Some password.
Proof.
  intros Hp. unfold saveCredentials.
  destruct isDocker; cbn [snd modify credentialStore set_credentialStore].
  - rewrite lookup_insert_eq. reflexivity.
  - rewrite Hp. cbn [orb]. rewrite lookup_insert_eq. reflexivity.
Qed.

(** X10: a password that was saved for a connection is used again. When the
    credential store holds, under the id of a configuration, what
    [saveCredentials] left there for a password that is not empty, then
    [connect] on that configuration given without password and key, for a
    connection that is not connected, asks the transport first thing, with
    the saved password. Other stored entries are not looked at: the store
    is read under the id of the configuration only. *)
Theorem connect_reuses_saved_password config name rememberPassword tags st st0
    password passphrase :
  let connectionId := generateConnectionId config in
  truthy_opt password = true ->
  credentialStore st !! connectionId
  = credentialStore (snd (saveCredentials connectionId password passphrase st0))
      !! connectionId ->
  live_connection connectionId st = None ->
  truthy_opt (cfg_password config) = false ->
  truthy_opt (cfg_privateKey config) = false ->
  exists events options,
    history (snd (connect config name rememberPassword tags st))
    = history st ++ IoConnect (next_handle st) options :: events
    /\ co_password options = password
    /\ co_host options = cfg_host config
    /\ co_username options = cfg_username config.
Proof.
  intros connectionId Hp Hstore Hlive Hpw Hkey.
  destruct (connect_asks config name rememberPassword tags st Hlive)
    as [events Hevents].
  exists events, (connect_options (config_with_saved config st)).
  split; [exact Hevents|].
  split; [|split].
  - unfold config_with_saved. rewrite Hpw, Hkey. cbn [negb andb].
    fold connectionId. rewrite Hstore.
    pose proof (saveCredentials_password connectionId password passphrase st0 Hp)
      as Hsaved.
    destruct (credentialStore (snd (saveCredentials connectionId password
                                      passphrase st0)) !! connectionId)
      as [creds|]; [|discriminate].
    cbn in Hsaved. injection Hsaved as Hsaved.
    cbn [default connect_options co_password with_secrets cfg_password].
    unfold id. rewrite Hsaved, Hp. reflexivity.
  - unfold config_with_saved.
    destruct (negb _ && negb _); reflexivity.
  - unfold config_with_saved.
    destruct (negb _ && negb _); reflexivity.
Qed.

Lemma saveCredentials_run id password passphrase st :
  saveCredentials id password passphrase st
  = (Ret tt, snd (saveCredentials id password passphrase st)).
Proof. unfold saveCredentials. destruct isDocker; reflexivity. Qed.

Lemma saveCredentials_frame id password passphrase st :
  let st' := snd (saveCredentials id password passphrase st) in
  connections st' = connections st /\ history st' = history st
  /\ connectionCollection st' = connectionCollection st
  /\ next_handle st' = next_handle st /\ tunnels st' = tunnels st
  /\ containerSessions st' = containerSessions st.
Proof. unfold saveCredentials. destruct isDocker; cbn; auto 10. Qed.

(** X11: [connect] on a configuration not known before, when the transport
    accepts: the connection returned is the record now in the registry,
    connected, with the client just made, the time read after the transport
    answered, no error, and as current directory the trimmed answer to
    [pwd] (the empty text when [pwd] is refused); its configuration is the
    caller's, with the stored password and passphrase filled in when the
    caller gave neither password nor key. The connection is saved under its
    id with name, host, port, user, key, time and tags; the credentials are
    written only when [rememberPassword] is set. *)
Theorem connect_new_connection config name rememberPassword tags st :
  let connectionId := generateConnectionId config in
  let config1 := config_with_saved config st in
  let client := next_handle st in
  let asked := IoConnect client (connect_options config1) in
  let pwd := IoExec client (js "pwd") {| cwd := None; timeout := None |} in
  let dir := match ssh_exec (history st ++ [asked]) client (js "pwd")
                     {| cwd := None; timeout := None |} with
             | ExecResolved out _ _ => trim out
             | ExecRejected _ => []
             end in
  let connection :=
    {| conn_id := connectionId;
       conn_name := if truthy_opt name then name
                    else Some (cfg_username config ++ js "@" ++ cfg_host config);
       conn_config := config1;
       conn_status := CONNECTED;
       conn_lastUsed := Some (clock (history st ++ [asked]));
       conn_lastError := None;
       conn_client := Some client;
       conn_tags := tags;
       conn_currentDirectory := Some dir |} in
  connections st !! connectionId = None ->
  ssh_connect (history st) (connect_options config1) = None ->
  let run := connect config name rememberPassword tags st in
  fst run = Ret connection
  /\ connections (snd run) = <[connectionId := connection]> (connections st)
  /\ live_connection connectionId (snd run) = Some (connection, client)
  /\ history (snd run) = history st ++ [asked; pwd]
  /\ connectionCollection (snd run)
     = <[connectionId :=
           {| sv_name := conn_name connection;
              sv_host := cfg_host config;
              sv_port := cfg_port config;
              sv_username := cfg_username config;
              sv_privateKey := cfg_privateKey config;
              sv_lastUsed := clock (history st ++ [asked]);
              sv_tags := default [] tags |}]> (connectionCollection st)
  /\ credentialStore (snd run)
     = (if rememberPassword
        then credentialStore
               (snd (saveCredentials connectionId (cfg_password config1)
                       (cfg_passphrase config1) st))
        else credentialStore st).
Proof.
  intros connectionId config1 client asked pwd dir connection Hnew Hok run.
  set (connecting :=
    {| conn_id := connectionId;
       conn_name := if truthy_opt name then name
                    else Some (cfg_username config ++ js "@" ++ cfg_host config);
       conn_config := config; conn_status := CONNECTING;
       conn_lastUsed := Some (clock (history st));
       conn_lastError := None; conn_client := None;
       conn_tags := tags; conn_currentDirectory := None |}).
  set (st0 := set_connections (insert connectionId connecting) st).
  set (connecting1 :=
    {| conn_id := connectionId; conn_name := conn_name connecting;
       conn_config := config1; conn_status := CONNECTING;
       conn_lastUsed := Some (clock (history st));
       conn_lastError := None; conn_client := None;
       conn_tags := tags; conn_currentDirectory := None |}).
  set (st1 := set_connections (insert connectionId connecting1) st).
  set (st2 := log_io asked (snd (take_handle st1))).
  assert (Htransport : new_transport (connect_options config1) st1
                       = (Ret client, st2)).
  { unfold new_transport. subst st1.
    cbn [take_handle history set_connections next_handle].
    rewrite Hok. reflexivity. }
  set (connected :=
    {| conn_id := connectionId; conn_name := conn_name connecting;
       conn_config := config1; conn_status := CONNECTED;
       conn_lastUsed := Some (clock (history st ++ [asked]));
       conn_lastError := None; conn_client := Some client;
       conn_tags := tags; conn_currentDirectory := None |}).
  set (st3 := set_connections (insert connectionId connected) st2).
  assert (Hlive3 : live_connection connectionId st3 = Some (connected, client)).
  { unfold live_connection. subst st3. cbn [connections set_connections].
    rewrite lookup_insert_eq. reflexivity. }
  set (st4 := log_io pwd st3).
  set (st5 := set_connections (insert connectionId connection) st4).
  set (st6 := if rememberPassword
              then snd (saveCredentials connectionId (cfg_password config1)
                          (cfg_passphrase config1) st5)
              else st5).
  assert (Hc6 : connections st6 = <[connectionId := connection]> (connections st)).
  { assert (Hc5 : connections st5 = <[connectionId := connection]> (connections st)).
    { subst st5 st4 st3 st2 st1. cbn [connections set_connections log_io
        take_handle snd]. rewrite !insert_insert_eq. reflexivity. }
    subst st6. destruct rememberPassword; [|exact Hc5].
    destruct (saveCredentials_frame connectionId (cfg_password config1)
                (cfg_passphrase config1) st5) as (-> & _). exact Hc5. }
  assert (Hrun :
    run = (Ret connection,
           set_connectionCollection
             (insert connectionId
                {| sv_name := conn_name connection;
                   sv_host := cfg_host config1;
                   sv_port := cfg_port config1;
                   sv_username := cfg_username config1;
                   sv_privateKey := cfg_privateKey config1;
                   sv_lastUsed := clock (history st ++ [asked]);
                   sv_tags := default [] tags |}) st6)).
  { subst run. unfold connect. rewrite bind_get. fold connectionId.
    unfold live_connection at 1. rewrite Hnew. rewrite bind_modify. cbv beta.
    fold connecting. fold st0.
    (* the configuration the transport is asked with *)
    match goal with
    | |- try_catch (bind ?cred ?rest) ?handler st0 = _ =>
      assert (Hcred : cred st0 = (Ret config1, st1))
    end.
    { unfold st1, connecting1, config1, config_with_saved. fold connectionId.
      destruct (negb (truthy_opt (cfg_password config))
                && negb (truthy_opt (cfg_privateKey config))).
      - unfold getCredentials, update_connection, bind, get, ret, modify.
        unfold st0, set_connections.
        cbn [connections credentialStore
          containerSessions connectionCollection tunnels next_handle history].
        rewrite alter_insert_eq. reflexivity.
      - reflexivity. }
    apply try_catch_run.
    eapply bind_step; [exact Hcred|]. cbv beta.
    eapply bind_step; [exact Htransport|]. cbv beta.
    rewrite bind_get. unfold update_connection at 1.
    rewrite bind_modify. cbv beta.
    assert (Hst3 : set_connections
              (alter (fun c =>
                 {| conn_id := conn_id c; conn_name := conn_name c;
                    conn_config := conn_config c; conn_status := CONNECTED;
                    conn_lastUsed := Some (clock (history st2));
                    conn_lastError := None;
                    conn_client := Some client; conn_tags := conn_tags c;
                    conn_currentDirectory := conn_currentDirectory c |})
                 connectionId) st2 = st3).
    { subst st3 st2 st1. unfold set_connections.
      cbn [connections log_io take_handle snd history containerSessions
           credentialStore connectionCollection tunnels next_handle].
      rewrite alter_insert_eq, insert_insert_eq. reflexivity. }
    rewrite Hst3.
    eapply bind_step; [apply (getCurrentDirectory_run _ _ _ _ Hlive3)|].
    cbv beta. unfold update_connection at 1. rewrite bind_modify. cbv beta.
    assert (Hst5 : set_connections
              (alter (fun c => with_currentDirectory c
                 (Some (match ssh_exec (history st3) client (js "pwd")
                                {| cwd := None; timeout := None |} with
                        | ExecResolved out _ _ => trim out
                        | ExecRejected _ => []
                        end))) connectionId) st4 = st5).
    { subst st5 st4 st3 st2 st1. unfold set_connections.
      cbn [connections log_io take_handle snd history containerSessions
           credentialStore connectionCollection tunnels next_handle].
      rewrite alter_insert_eq, !insert_insert_eq. reflexivity. }
    change (log_io (IoExec client (js "pwd") {| cwd := None; timeout := None |})
              st3) with st4.
    rewrite Hst5.
    eapply (bind_step _ _ _ tt st6).
    { subst st6. destruct rememberPassword;
        [apply saveCredentials_run|reflexivity]. }
    cbv beta. rewrite bind_get, Hc6, lookup_insert_eq.
    unfold saveConnection. unfold bind, get, modify, ret.
    reflexivity. }
  rewrite Hrun. cbn [fst snd].
  split; [reflexivity|].
  assert (Hh6 : history st6 = history st ++ [asked; pwd]).
  { subst st6. destruct rememberPassword.
    - destruct (saveCredentials_frame connectionId (cfg_password config1)
                  (cfg_passphrase config1) st5) as (_ & -> & _).
      subst st5 st4 st3 st2 st1. cbn. rewrite <- app_assoc. reflexivity.
    - subst st5 st4 st3 st2 st1. cbn. rewrite <- app_assoc. reflexivity. }
  assert (Hcc6 : connectionCollection st6 = connectionCollection st).
  { subst st6. destruct rememberPassword.
    - destruct (saveCredentials_frame connectionId (cfg_password config1)
                  (cfg_passphrase config1) st5) as (_ & _ & -> & _).
      reflexivity.
    - reflexivity. }
  split; [exact Hc6|].
  split.
  { unfold live_connection. cbn [connections set_connectionCollection].
    rewrite Hc6, lookup_insert_eq. reflexivity. }
  split; [exact Hh6|].
  split.
  { cbn [connectionCollection set_connectionCollection]. rewrite Hcc6.
    subst config1. unfold config_with_saved.
    destruct (negb _ && negb _); reflexivity. }
  cbn [credentialStore set_connectionCollection]. subst st6.
  destruct rememberPassword; [|reflexivity].
  unfold saveCredentials. destruct isDocker; reflexivity.
Qed.

(** ** The container sessions of a connection *)

Lemma insert_session_perm session sorted :
  insert_session session sorted ≡ₚ session :: sorted.
Proof.
  induction sorted as [|other rest IH]; cbn [insert_session]; [reflexivity|].
  destruct (_ <? _)%Z; [|reflexivity].
  rewrite IH. apply Permutation_swap.
Qed.

Lemma sort_sessions_perm sessions : sort_sessions sessions ≡ₚ sessions.
Proof.
  induction sessions as [|s l IH]; [reflexivity|].
  cbn [sort_sessions foldr]. rewrite insert_session_perm.
  fold (sort_sessions l). rewrite IH. reflexivity.
Qed.

Lemma insert_session_sorted session sorted :
  latest_first sorted -> latest_first (insert_session session sorted).
Proof.
  induction sorted as [|other rest IH]; cbn [insert_session latest_first].
  - auto.
  - intros [Hall Hs].
    destruct (Z.ltb_spec (cs_lastActivity session) (cs_lastActivity other)).
    + cbn [latest_first]. split; [|apply IH, Hs].
      rewrite Forall_forall. intros x Hx.
      rewrite insert_session_perm in Hx.
      apply elem_of_cons in Hx as [->|Hx]; [lia|].
      rewrite Forall_forall in Hall. apply Hall, Hx.
    + cbn [latest_first]. split; [|split; assumption].
      constructor; [lia|].
      rewrite Forall_forall in Hall |- *. intros x Hx.
      specialize (Hall x Hx). cbv beta in Hall. lia.
Qed.

Lemma sort_sessions_sorted sessions : latest_first (sort_sessions sessions).
Proof.
  induction sessions as [|s l IH]; [exact I|].
  apply insert_session_sorted, IH.
Qed.

Lemma insert_session_stable t session sorted :
  List.filter (fun s => (cs_lastActivity s =? t)%Z) (insert_session session sorted)
  = List.filter (fun s => (cs_lastActivity s =? t)%Z) (session :: sorted).
Proof.
  induction sorted as [|other rest IH]; [reflexivity|].
  cbn [insert_session].
  destruct (Z.ltb_spec (cs_lastActivity session) (cs_lastActivity other));
    [|reflexivity].
  cbn [List.filter] in *. rewrite IH.
  destruct (Z.eqb_spec (cs_lastActivity other) t),
           (Z.eqb_spec (cs_lastActivity session) t); try reflexivity; lia.
Qed.

Lemma sort_sessions_stable t sessions :
  List.filter (fun s => (cs_lastActivity s =? t)%Z) (sort_sessions sessions)
  = List.filter (fun s => (cs_lastActivity s =? t)%Z) sessions.
Proof.
  induction sessions as [|s l IH]; [reflexivity|].
  cbn [sort_sessions foldr]. rewrite insert_session_stable.
  fold (sort_sessions l). cbn [List.filter]. rewrite IH. reflexivity.
Qed.

Lemma latest_loop_head connectionId sessions : forall latestSession latestTime,
  latest_loop connectionId sessions latestSession latestTime
  = match head (getActiveContainerSessions connectionId sessions) with
    | Some first =>
      if (latestTime <? cs_lastActivity first)%Z then Some first
      else latestSession
    | None => latestSession
    end.
Proof.
  unfold getActiveContainerSessions.
  induction sessions as [|[key s] rest IH]; intros acc t; [reflexivity|].
  cbn [latest_loop fmap list_fmap snd List.filter].
  fold (session_of connectionId s).
  change (list_fmap _ _ snd rest) with (snd <$> rest).
  destruct (session_of connectionId s); cbn [andb]; [|apply IH].
  cbn [sort_sessions foldr].
  fold (sort_sessions (List.filter (session_of connectionId) (snd <$> rest))).
  destruct (Z.ltb_spec t (cs_lastActivity s)) as [Ht|Ht]; rewrite IH;
    destruct (sort_sessions (List.filter (session_of connectionId) (snd <$> rest)))
      as [|y l]; cbn [insert_session head];
    try (destruct (Z.ltb_spec (cs_lastActivity s) (cs_lastActivity y)));
    cbn [head];
    repeat match goal with
           | |- context [(?a <? ?b)%Z] => destruct (Z.ltb_spec a b)
           end; try reflexivity; lia.
Qed.

Lemma active_loop_latest_loop connectionId sessions :
  forall latestSession latestTime,
    active_loop connectionId sessions (cs_containerName <$> latestSession)
      latestTime
    = cs_containerName <$> latest_loop connectionId sessions latestSession
                             latestTime.
Proof.
  induction sessions as [|[key s] rest IH]; intros acc t; [reflexivity|].
  cbn [active_loop latest_loop].
  destruct (_ && _ && _); [|apply IH].
  apply (IH (Some s)).
Qed.

(** X12: [getActiveContainerSessions] lists exactly the active sessions of
    the connection, each as often as the map holds it, the latest activity
    first and sessions of equal time in the map's order. The session that
    [getContainerContext] returns when it is given no container name is the
    first of that list, provided its activity is later than time zero, and
    [getActiveContainer] is the container name of that session: the three
    methods agree on which container is the current one. *)
Theorem getActiveContainerSessions_latest_first connectionId containerSessions :
  let listed := getActiveContainerSessions connectionId containerSessions in
  listed ≡ₚ List.filter (session_of connectionId) (snd <$> containerSessions)
  /\ (forall session,
        session ∈ listed
        <-> (exists key, (key, session) ∈ containerSessions)
            /\ cs_connectionId session = connectionId
            /\ cs_isActive session = true)
  /\ latest_first listed
  /\ (forall time,
        List.filter (fun s => (cs_lastActivity s =? time)%Z) listed
        = List.filter (fun s => (cs_lastActivity s =? time)%Z)
            (List.filter (session_of connectionId) (snd <$> containerSessions)))
  /\ getContainerContextOpt connectionId None containerSessions
     = match head listed with
       | Some first => if (0 <? cs_lastActivity first)%Z then Some first else None
       | None => None
       end
  /\ getActiveContainer connectionId containerSessions
     = cs_containerName
         <$> getContainerContextOpt connectionId None containerSessions.
Proof.
  intros listed.
  assert (Hperm : listed
                  ≡ₚ List.filter (session_of connectionId) (snd <$> containerSessions))
    by apply sort_sessions_perm.
  split; [exact Hperm|]. split.
  { intros session. rewrite Hperm, list_elem_of_In, filter_In, <- list_elem_of_In.
    rewrite list_elem_of_fmap. unfold session_of.
    rewrite andb_true_iff, jseqb_eq. split.
    - intros [([key s] & -> & Hin) [H1 H2]]. eauto.
    - intros [[key Hin] [H1 H2]]. split; [|auto]. exists (key, session). auto. }
  split; [apply sort_sessions_sorted|].
  split; [intros time; apply sort_sessions_stable|].
  split; [apply latest_loop_head|].
  apply (active_loop_latest_loop connectionId containerSessions None).
Qed.

Lemma executeCommand_plain_history fuel connectionId command options st
    connection client :
  live_connection connectionId st = Some (connection, client) ->
  reaches_execution connectionId command st = true ->
  is_sudo_command command = false ->
  exists events,
    history (snd (executeCommand (S fuel) connectionId command options st))
    = history st ++ IoExec client command (exec_options connection options)
                    :: events.
Proof.
  intros Hlive Hreach Hsudo.
  pose proof (executeCommand_plain_run fuel connectionId command options st
                connection client Hlive Hreach Hsudo) as H.
  cbv zeta in H.
  destruct (ssh_exec (history st) client command (exec_options connection options)).
  - destruct H as [_ H].
    destruct (startsWith (trim command) (js "cd ")); destruct H as [_ ->];
      cbn [history log_io]; rewrite <- ?app_assoc; eauto.
  - rewrite H. cbn. eauto.
Qed.

Lemma closeAll_active_loop connectionId sessions : forall activeContainer t,
  active_loop connectionId (closeAllContainerSessions connectionId sessions)
    activeContainer t = activeContainer.
Proof.
  induction sessions as [|[key s] rest IH]; intros acc t; [reflexivity|].
  cbn [closeAllContainerSessions fmap list_fmap active_loop fst snd].
  destruct (jseqb (cs_connectionId s) connectionId) eqn:E.
  - cbn [with_isActive cs_connectionId cs_isActive]. rewrite E. cbn [andb].
    apply IH.
  - rewrite E. cbn [andb]. apply IH.
Qed.

Lemma closeAll_latest_loop connectionId sessions : forall latestSession t,
  latest_loop connectionId (closeAllContainerSessions connectionId sessions)
    latestSession t = latestSession.
Proof.
  induction sessions as [|[key s] rest IH]; intros acc t; [reflexivity|].
  cbn [closeAllContainerSessions fmap list_fmap latest_loop fst snd].
  destruct (jseqb (cs_connectionId s) connectionId) eqn:E.
  - cbn [with_isActive cs_connectionId cs_isActive]. rewrite E. cbn [andb].
    apply IH.
  - rewrite E. cbn [andb]. apply IH.
Qed.

Lemma closeAll_others connectionId other sessions :
  other <> connectionId ->
  forall activeContainer t,
    active_loop other (closeAllContainerSessions connectionId sessions)
      activeContainer t
    = active_loop other sessions activeContainer t.
Proof.
  intros Hne. induction sessions as [|[key s] rest IH]; intros acc t;
    [reflexivity|].
  cbn [closeAllContainerSessions fmap list_fmap active_loop fst snd].
  destruct (jseqb (cs_connectionId s) connectionId) eqn:E.
  - apply jseqb_eq in E.
    cbn [with_isActive cs_connectionId cs_isActive cs_lastActivity
         cs_containerName].
    replace (jseqb (cs_connectionId s) other) with false.
    + cbn [andb]. apply IH.
    + symmetry. apply not_true_iff_false. rewrite jseqb_eq. congruence.
  - destruct (_ && _ && _); apply IH.
Qed.

Lemma closeAll_listed connectionId sessions :
  getActiveContainerSessions connectionId
    (closeAllContainerSessions connectionId sessions) = [].
Proof.
  unfold getActiveContainerSessions.
  replace (List.filter _ _) with (@nil ContainerSession); [reflexivity|].
  symmetry. induction sessions as [|[key s] rest IH]; [reflexivity|].
  cbn [closeAllContainerSessions fmap list_fmap fst snd List.filter].
  unfold session_of at 1.
  destruct (jseqb (cs_connectionId s) connectionId) eqn:E.
  - cbn [with_isActive cs_connectionId cs_isActive]. rewrite E. exact IH.
  - rewrite E. exact IH.
Qed.

Lemma closeAll_kept connectionId sessions key :
  map_get key (closeAllContainerSessions connectionId sessions)
  = (fun s => if jseqb (cs_connectionId s) connectionId
              then with_isActive s false else s) <$> map_get key sessions.
Proof.
  induction sessions as [|[k s] rest IH]; [reflexivity|].
  cbn [closeAllContainerSessions fmap list_fmap fst snd map_get].
  destruct (jseqb k key); [reflexivity|exact IH].
Qed.

(** X13: [exitContainer] without a container name (or with the empty name)
    leaves the connection without current container: [getActiveContainer]
    and [getCurrentContainerContext] find none and no session is listed as
    active, while the sessions of other connections count as before and
    every session record is kept, marked inactive. A command that needs no
    container context and is not a sudo command is then sent to the remote
    as it is, not wrapped in [docker exec]. *)
Theorem exitContainer_all_unwraps fuel connectionId containerName command
    options st connection client :
  live_connection connectionId st = Some (connection, client) ->
  truthy_opt containerName = false ->
  default false (pc_needsContainerContext (parseCommand command)) = false ->
  is_sudo_command command = false ->
  let st1 := snd (exitContainer connectionId containerName st) in
  fst (exitContainer connectionId containerName st)
  = Ret (js "已退出所有容器上下文")
  /\ getActiveContainer connectionId (containerSessions st1) = None
  /\ getCurrentContainerContext connectionId st1 = None
  /\ getActiveContainerSessions connectionId (containerSessions st1) = []
  /\ (forall other, other <> connectionId ->
        getActiveContainer other (containerSessions st1)
        = getActiveContainer other (containerSessions st))
  /\ (forall name,
        getContainerContext connectionId name (containerSessions st1)
        = (fun s => if jseqb (cs_connectionId s) connectionId
                    then with_isActive s false else s)
            <$> getContainerContext connectionId name (containerSessions st))
  /\ exists events,
       history (snd (executeCommand (S fuel) connectionId command options st1))
       = history st ++ IoExec client command (exec_options connection options)
                       :: events.
Proof.
  intros Hlive Hname Hctx Hsudo st1.
  assert (Hrun : exitContainer connectionId containerName st
                 = (Ret (js "已退出所有容器上下文"),
                    set_containerSessions
                      (closeAllContainerSessions connectionId) st)).
  { unfold exitContainer. rewrite Hname. reflexivity. }
  subst st1. rewrite Hrun. cbn [fst snd].
  unfold getCurrentContainerContext, getContainerContextOpt.
  cbn [containerSessions set_containerSessions truthy_opt].
  split; [reflexivity|].
  split; [apply closeAll_active_loop|].
  split; [apply closeAll_latest_loop|].
  split; [apply closeAll_listed|].
  split; [intros other Hne; apply closeAll_others, Hne|].
  split; [intros name; apply closeAll_kept|].
  apply (executeCommand_plain_history fuel connectionId command options
           (set_containerSessions (closeAllContainerSessions connectionId) st)
           connection client).
  - exact Hlive.
  - unfold reaches_execution. rewrite Hctx.
    cbn [containerSessions set_containerSessions].
    unfold getActiveContainer. rewrite closeAll_active_loop. reflexivity.
  - exact Hsudo.
Qed.

(** ** How the sessions are filed *)

Lemma map_set_keys {V} k (v : V) m :
  fst <$> map_set k v m
  = if bool_decide (k ∈ fst <$> m) then fst <$> m else (fst <$> m) ++ [k].
Proof.
  induction m as [|[k' v'] m IH]; [reflexivity|].
  cbn [map_set]. destruct (jseqb k' k) eqn:E.
  - apply jseqb_eq in E. subst k'. cbn [fmap list_fmap fst].
    rewrite bool_decide_eq_true_2 by constructor. reflexivity.
  - cbn [fmap list_fmap fst]. change (list_fmap _ _ fst ?l) with (fst <$> l).
    rewrite IH.
    assert (k' <> k) by (intros ->; rewrite jseqb_refl in E; discriminate).
    destruct (decide (k ∈ fst <$> m)) as [Hin|Hnin].
    + rewrite !bool_decide_eq_true_2; [reflexivity|right; exact Hin|exact Hin].
    + rewrite !bool_decide_eq_false_2; [reflexivity| |exact Hnin].
      intros Hin. apply elem_of_cons in Hin as [?|?]; congruence.
Qed.

Lemma map_set_elem_key {V} k (v : V) m k' v' :
  (k', v') ∈ map_set k v m -> (k', v') ∈ m \/ (k' = k /\ v' = v).
Proof.
  induction m as [|[k0 v0] m IH]; cbn [map_set].
  - intros H. apply list_elem_of_singleton in H. injection H as -> ->. auto.
  - destruct (jseqb k0 k) eqn:E; intros H; apply elem_of_cons in H as [H|H].
    + injection H as -> ->. apply jseqb_eq in E. auto.
    + left. right. exact H.
    + left. rewrite H. left.
    + destruct (IH H) as [?|?]; [left; right; assumption|auto].
Qed.

Lemma map_get_elem {V} k (v : V) m : map_get k m = Some v -> (k, v) ∈ m.
Proof.
  induction m as [|[k' v'] m IH]; [discriminate|].
  cbn [map_get]. destruct (jseqb k' k) eqn:E.
  - intros [= ->]. apply jseqb_eq in E. subst. left.
  - intros H. right. apply IH, H.
Qed.

Lemma map_get_unique {V} k (v : V) m :
  NoDup (fst <$> m) -> (k, v) ∈ m -> map_get k m = Some v.
Proof.
  induction m as [|[k' v'] m IH]; intros Hnd Hin; [inversion Hin|].
  cbn [fmap list_fmap fst] in Hnd. apply NoDup_cons in Hnd as [Hk Hnd].
  cbn [map_get]. apply elem_of_cons in Hin as [Heq|Hin].
  - injection Heq as <- <-. rewrite jseqb_refl. reflexivity.
  - destruct (jseqb k' k) eqn:E; [|apply IH; assumption].
    apply jseqb_eq in E. subst k'. exfalso. apply Hk.
    apply (list_elem_of_fmap_2 fst _ (k, v)). exact Hin.
Qed.

Lemma map_set_wf key session sessions :
  key = sessionKey (cs_connectionId session) (cs_containerName session) ->
  sessions_wf sessions -> sessions_wf (map_set key session sessions).
Proof.
  intros Hkey [Hnd Hkeys]. split.
  - rewrite map_set_keys. case_bool_decide as Hin; [exact Hnd|].
    apply NoDup_app. split; [exact Hnd|]. split; [|apply NoDup_singleton].
    intros x Hx Hx'. apply list_elem_of_singleton in Hx'. subst x.
    apply Hin, Hx.
  - intros k s Hin. apply map_set_elem_key in Hin as [Hin|[-> ->]];
      [apply Hkeys, Hin|exact Hkey].
Qed.

Lemma update_session_wf connectionId containerName f sessions :
  (forall s, cs_connectionId (f s) = cs_connectionId s
             /\ cs_containerName (f s) = cs_containerName s) ->
  sessions_wf sessions ->
  sessions_wf (update_session connectionId containerName f sessions).
Proof.
  intros Hf Hwf. unfold update_session, getContainerContext.
  destruct (map_get _ sessions) as [session|] eqn:Hget; [|exact Hwf].
  apply map_set_wf; [|exact Hwf].
  destruct (Hf session) as [-> ->].
  apply map_get_elem in Hget. apply (proj2 Hwf), Hget.
Qed.

Lemma fmap_sessions_wf f sessions :
  (forall s, cs_connectionId (f s) = cs_connectionId s
             /\ cs_containerName (f s) = cs_containerName s) ->
  sessions_wf sessions ->
  sessions_wf ((fun kv => (fst kv, f (snd kv))) <$> sessions).
Proof.
  intros Hf [Hnd Hkeys]. split.
  - rewrite <- list_fmap_compose.
    erewrite list_fmap_ext; [exact Hnd|]. intros i [k s] _. reflexivity.
  - intros k s Hin. apply list_elem_of_fmap in Hin as ([k0 s0] & Heq & Hin).
    cbn [fst snd] in Heq. injection Heq as -> ->.
    destruct (Hf s0) as [-> ->]. apply Hkeys, Hin.
Qed.

Lemma setContainerContext_wf now connectionId containerName workingDirectory
    environment user sessions :
  sessions_wf sessions ->
  sessions_wf (setContainerContext now connectionId containerName
                 workingDirectory environment user sessions).
Proof. apply map_set_wf. reflexivity. Qed.

Lemma updateActivity_wf now connectionId containerName sessions :
  sessions_wf sessions ->
  sessions_wf (updateActivity now connectionId containerName sessions).
Proof.
  apply (update_session_wf connectionId containerName
           (fun session =>
              {| cs_connectionId := cs_connectionId session;
                 cs_containerName := cs_containerName session;
                 cs_workingDirectory := cs_workingDirectory session;
                 cs_environment := cs_environment session;
                 cs_user := cs_user session;
                 cs_lastActivity := now;
                 cs_isActive := cs_isActive session |})).
  intros s. split; reflexivity.
Qed.

Lemma latest_loop_active connectionId sessions : forall latestSession t session,
  latest_loop connectionId sessions latestSession t = Some session ->
  latestSession = Some session
  \/ ((exists key, (key, session) ∈ sessions)
      /\ cs_connectionId session = connectionId
      /\ cs_isActive session = true).
Proof.
  induction sessions as [|[key s] rest IH]; intros acc t session; [auto|].
  cbn [latest_loop].
  destruct (jseqb (cs_connectionId s) connectionId && cs_isActive s
            && (t <? cs_lastActivity s)%Z) eqn:E; intros H.
  - apply IH in H as [H|([k H] & H1 & H2)].
    + injection H as <-. right.
      apply andb_true_iff in E as [E _]. apply andb_true_iff in E as [E1 E2].
      apply jseqb_eq in E1. split; [exists key; left|auto].
    + right. split; [exists k; right; exact H|auto].
  - apply IH in H as [H|([k H] & H1 & H2)]; [auto|].
    right. split; [exists k; right; exact H|auto].
Qed.

(** The session filed under the name of the current container is the
    latest active session. *)
Lemma active_container_session connectionId sessions container :
  sessions_wf sessions ->
  getActiveContainer connectionId sessions = Some container ->
  getContainerContext connectionId container sessions
  = getContainerContextOpt connectionId None sessions
  /\ exists session,
       getContainerContext connectionId container sessions = Some session
       /\ cs_isActive session = true
       /\ cs_containerName session = container.
Proof.
  intros [Hnd Hkeys] Hactive.
  unfold getActiveContainer in Hactive.
  change (@None jsstring) with (cs_containerName <$> @None ContainerSession)
    in Hactive.
  rewrite active_loop_latest_loop in Hactive.
  unfold getContainerContextOpt. cbn [truthy_opt].
  destruct (latest_loop connectionId sessions None 0) as [session|] eqn:Hlatest;
    [|discriminate].
  injection Hactive as <-.
  apply latest_loop_active in Hlatest as [Hlatest|([key Hin] & Hid & Hact)];
    [discriminate|].
  pose proof (Hkeys key session Hin) as Hkey. rewrite Hid in Hkey. subst key.
  unfold getContainerContext.
  rewrite (map_get_unique _ _ _ Hnd Hin). eauto.
Qed.

Lemma keeps_sessions_wf_refl st : keeps_sessions_wf st st.
Proof. intros H. exact H. Qed.

Lemma keeps_sessions_wf_trans a b c :
  keeps_sessions_wf a b -> keeps_sessions_wf b c -> keeps_sessions_wf a c.
Proof. unfold keeps_sessions_wf. auto. Qed.

#[local] Hint Resolve keeps_sessions_wf_refl keeps_sessions_wf_trans : frame.

Lemma keeps_sessions_wf_same st st' :
  containerSessions st' = containerSessions st -> keeps_sessions_wf st st'.
Proof. intros H Hwf. rewrite H. exact Hwf. Qed.

Lemma execCommand_sessions_wf client command opts :
  preserves keeps_sessions_wf (execCommand client command opts).
Proof.
  intros st. apply keeps_sessions_wf_same. unfold execCommand.
  destruct (ssh_exec _ _ _ _); reflexivity.
Qed.

Lemma getCurrentDirectory_sessions_wf connectionId :
  preserves keeps_sessions_wf (getCurrentDirectory connectionId).
Proof.
  unfold getCurrentDirectory. repeat frame_step. apply execCommand_sessions_wf.
Qed.

Lemma record_docker_context_sessions_wf dockerCmd connectionId :
  preserves keeps_sessions_wf (record_docker_context dockerCmd connectionId).
Proof.
  intros st Hwf. unfold record_docker_context. rewrite bind_get.
  cbn [snd modify containerSessions set_containerSessions].
  apply updateActivity_wf, setContainerContext_wf, Hwf.
Qed.

Lemma docker_exec_loop_sessions_wf client connectionId parsedCommand opts cmds :
  forall acc st,
    keeps_sessions_wf st
      (snd (docker_exec_loop client connectionId parsedCommand opts cmds acc st)).
Proof.
  induction cmds as [|dockerCmd rest IH]; intros acc st; cbn [docker_exec_loop];
    [apply keeps_sessions_wf_refl|].
  pose proof (execCommand_sessions_wf client
                (default [] (head (buildContainerCommand
                   (with_dockerCommands parsedCommand [dockerCmd]) None)))
                opts st) as Hexec.
  destruct (execCommand client _ opts st) as [[result|message|] st1];
    cbn [snd] in *; [|assumption..].
  pose proof (record_docker_context_sessions_wf dockerCmd connectionId st1)
    as Hrec.
  destruct (negb _); cbn [snd].
  - eauto using keeps_sessions_wf_trans.
  - eapply keeps_sessions_wf_trans; [exact Hexec|].
    eapply keeps_sessions_wf_trans; [exact Hrec|apply IH].
Qed.

Lemma executeDockerContextCommand_sessions_wf connectionId parsedCommand options :
  preserves keeps_sessions_wf
    (executeDockerContextCommand connectionId parsedCommand options).
Proof.
  intros st. unfold executeDockerContextCommand.
  destruct (connections st !! connectionId) as [connection|];
    [|apply keeps_sessions_wf_refl].
  destruct (conn_client connection) as [client|];
    [|apply keeps_sessions_wf_refl].
  match goal with
  | |- context [docker_exec_loop ?c ?i ?p ?o ?l ?a st] =>
    pose proof (docker_exec_loop_sessions_wf c i p o l a st) as Hloop;
    destruct (docker_exec_loop c i p o l a st) as [[acc [message|]] st1]
  end; cbn [snd] in *; [assumption|].
  destruct (_ && _ && _); [|assumption].
  match goal with
  | |- context [execCommand ?c ?cmd ?o st1] =>
    pose proof (execCommand_sessions_wf c cmd o st1) as Hexec;
    destruct (execCommand c cmd o st1) as [[result|message|] st2]
  end; cbn [snd] in *; try (eapply keeps_sessions_wf_trans; eassumption).
  eapply keeps_sessions_wf_trans; [exact Hloop|].
  eapply keeps_sessions_wf_trans; [exact Hexec|].
  intros Hwf. cbn [containerSessions set_containerSessions].
  apply updateActivity_wf, Hwf.
Qed.

Lemma execute_plain_sessions_wf connectionId connection client parsedCommand
    command options :
  preserves keeps_sessions_wf
    (execute_plain connectionId connection client parsedCommand command options).
Proof.
  unfold execute_plain, getCredentials. repeat frame_step;
    auto using execCommand_sessions_wf, getCurrentDirectory_sessions_wf,
      record_docker_context_sessions_wf.
  all: apply preserves_modify; intros st; apply keeps_sessions_wf_same;
    reflexivity.
Qed.

Lemma executeCommand_sessions_wf fuel : forall connectionId command options,
  preserves keeps_sessions_wf (executeCommand fuel connectionId command options).
Proof.
  induction fuel as [|fuel IH]; intros connectionId command options;
    cbn [executeCommand].
  - intros st. apply keeps_sessions_wf_refl.
  - unfold executeCommand_try, executeCommand_catch. repeat frame_step;
      auto using execute_plain_sessions_wf,
        executeDockerContextCommand_sessions_wf.
Qed.

(** X14: the container sessions stay filed by name. In a map in which every
    session is held under the key made of its own connection id and
    container name, and no key twice (as in the empty map), every method
    of the context manager that writes to the map keeps it so, and so do
    [executeCommand], whatever the command and the remote's answers, and
    [exitContainer]. *)
Theorem sessions_wf_kept :
  sessions_wf []
  /\ (forall now connectionId containerName workingDirectory environment user
        key value maxInactiveMinutes sessions,
        sessions_wf sessions ->
        sessions_wf (setContainerContext now connectionId containerName
                       workingDirectory environment user sessions)
        /\ sessions_wf (updateActivity now connectionId containerName sessions)
        /\ sessions_wf (updateWorkingDirectory now connectionId containerName
                          (default [] workingDirectory) sessions)
        /\ sessions_wf (setEnvironmentVariable now connectionId containerName
                          key value sessions)
        /\ sessions_wf (closeContainerSession connectionId containerName sessions)
        /\ sessions_wf (closeAllContainerSessions connectionId sessions)
        /\ sessions_wf (cleanupInactiveSessions now maxInactiveMinutes sessions))
  /\ (forall fuel connectionId command options containerName st,
        sessions_wf (containerSessions st) ->
        sessions_wf (containerSessions
                       (snd (executeCommand fuel connectionId command options st)))
        /\ sessions_wf (containerSessions
                          (snd (exitContainer connectionId containerName st)))).
Proof.
  split; [split; [constructor|intros k s H; inversion H]|].
  split.
  - intros now connectionId containerName workingDirectory environment user
      key value maxInactiveMinutes sessions Hwf.
    split; [apply setContainerContext_wf, Hwf|].
    split; [apply updateActivity_wf, Hwf|].
    split; [apply update_session_wf; [intros s; split; reflexivity|exact Hwf]|].
    split; [apply update_session_wf; [intros s; split; reflexivity|exact Hwf]|].
    split; [apply update_session_wf; [intros s; split; reflexivity|exact Hwf]|].
    split.
    + apply (fmap_sessions_wf
               (fun s => if jseqb (cs_connectionId s) connectionId
                         then with_isActive s false else s));
        [|exact Hwf].
      intros s. destruct (jseqb _ _); split; reflexivity.
    + unfold cleanupInactiveSessions. cbv zeta.
      apply (fmap_sessions_wf
               (fun s => if (cs_lastActivity s
                             <? now - maxInactiveMinutes * 60 * 1000)%Z
                         then with_isActive s false else s));
        [|exact Hwf].
      intros s. destruct (_ <? _)%Z; split; reflexivity.
  - intros fuel connectionId command options containerName st Hwf. split.
    + apply (executeCommand_sessions_wf fuel connectionId command options st Hwf).
    + unfold exitContainer. destruct (truthy_opt containerName);
        rewrite bind_modify; cbn [snd ret containerSessions set_containerSessions].
      * apply update_session_wf; [intros s; split; reflexivity|exact Hwf].
      * apply (fmap_sessions_wf
                 (fun s => if jseqb (cs_connectionId s) connectionId
                           then with_isActive s false else s));
          [|exact Hwf].
        intros s. destruct (jseqb _ _); split; reflexivity.
Qed.

(** X15: in a map whose sessions are filed by name, the session
    [executeCommand] looks up under the name of the current container, to
    wrap a command with its working directory, user and environment, is
    the session [getCurrentContainerContext] reports, and it is active.
    After [closeContainerSession] of a container, that container is not the
    current one, whatever else happened before. *)
Theorem current_container_session connectionId containerName sessions :
  sessions_wf sessions ->
  (forall container,
     getActiveContainer connectionId sessions = Some container ->
     getContainerContext connectionId container sessions
     = getContainerContextOpt connectionId None sessions
     /\ exists session,
          getContainerContext connectionId container sessions = Some session
          /\ cs_isActive session = true
          /\ cs_containerName session = container)
  /\ getActiveContainer connectionId
       (closeContainerSession connectionId containerName sessions)
     <> Some containerName.
Proof.
  intros Hwf. split.
  - intros container Hactive.
    apply active_container_session; assumption.
  - intros Hactive.
    assert (Hwf' : sessions_wf (closeContainerSession connectionId containerName
                                  sessions))
      by (apply update_session_wf; [intros s; split; reflexivity|exact Hwf]).
    destruct (active_container_session _ _ _ Hwf' Hactive)
      as (_ & session & Hget & Hact & _).
    unfold closeContainerSession, update_session in Hget.
    destruct (getContainerContext connectionId containerName sessions)
      as [old|] eqn:Hold.
    + unfold getContainerContext in Hget. rewrite map_get_set in Hget.
      injection Hget as <-. discriminate.
    + congruence.
Qed.

(** ** Environment variables of a session *)

Lemma obj_has_map_get k o : obj_has k o = false -> map_get k o = None.
Proof.
  induction o as [|[k' v'] o IH]; [reflexivity|].
  cbn [obj_has map_get]. destruct (jseqb k' k); [discriminate|exact IH].
Qed.

Lemma map_get_obj_set k v o :
  k <> js "__proto__" \/ obj_has k o = true ->
  map_get k (obj_set k v o) = Some v.
Proof.
  intros Hkey. unfold obj_set. destruct (obj_has k o) eqn:Hhas.
  - clear Hkey. induction o as [|[k' v'] o IH]; [discriminate|].
    cbn [obj_has obj_update map_get] in *.
    destruct (jseqb k' k) eqn:E; cbn [map_get]; rewrite E; [reflexivity|].
    apply IH, Hhas.
  - destruct Hkey as [Hkey|]; [|discriminate].
    unfold jseqb. rewrite bool_decide_eq_false_2 by exact Hkey.
    destruct (array_index k) as [n|].
    + induction o as [|[k' v'] o IH]; cbn [obj_insert_index map_get].
      * rewrite jseqb_refl. reflexivity.
      * cbn [obj_has] in Hhas. apply orb_false_iff in Hhas as [E Hhas].
        destruct (array_index k') as [n'|];
          [destruct (n' <? n)%N|]; cbn [map_get];
          rewrite ?E, ?jseqb_refl; auto.
    + induction o as [|[k' v'] o IH]; cbn [app map_get].
      * rewrite jseqb_refl. reflexivity.
      * cbn [obj_has] in Hhas. apply orb_false_iff in Hhas as [E Hhas].
        rewrite E. apply IH, Hhas.
Qed.

Lemma obj_set_proto v o :
  obj_has (js "__proto__") o = false -> obj_set (js "__proto__") v o = o.
Proof. intros Hhas. unfold obj_set. rewrite Hhas. reflexivity. Qed.

Lemma includes_prefix x s p : includes s p = true -> includes (x ++ s) p = true.
Proof.
  rewrite !includes_spec. intros (a & b & ->).
  exists (x ++ a), b. rewrite <- app_assoc. reflexivity.
Qed.

Lemma includes_suffix s y p : includes s p = true -> includes (s ++ y) p = true.
Proof.
  rewrite !includes_spec. intros (a & b & ->).
  exists a, (b ++ y). rewrite <- !app_assoc. reflexivity.
Qed.

Lemma includes_concat (l : list jsstring) x :
  x ∈ l -> includes (concat l) x = true.
Proof.
  intros H. apply list_elem_of_split in H as (l1 & l2 & ->).
  rewrite concat_app. cbn [concat]. apply includes_spec.
  exists (concat l1), (concat l2). reflexivity.
Qed.

(** X16: an environment variable set on a session under a key other than
    [__proto__] (or under a key the session's environment already owns) is
    read back under its key by [getEnvironmentVariables], whatever the
    session held under that key before, and is passed, as [-e key="value"],
    to every command that is wrapped for the container with that session.
    Under the key [__proto__], on an environment that does not own it, the
    assignment stores nothing: the environment stays as it was and no
    [-e __proto__=...] is added to the wrapped command. In both cases
    setting it stamps the session's activity and changes nothing else of
    it; in particular it does not make a closed session active again. On a
    container without session it does nothing. *)
Theorem setEnvironmentVariable_passed now connectionId containerName key value
    sessions command interactive :
  let sessions' :=
    setEnvironmentVariable now connectionId containerName key value sessions in
  match getContainerContext connectionId containerName sessions with
  | Some session =>
    getContainerContext connectionId containerName sessions'
    = Some {| cs_connectionId := cs_connectionId session;
              cs_containerName := cs_containerName session;
              cs_workingDirectory := cs_workingDirectory session;
              cs_environment := obj_set key value (cs_environment session);
              cs_user := cs_user session;
              cs_lastActivity := now;
              cs_isActive := cs_isActive session |}
    /\ (key <> js "__proto__" \/ obj_has key (cs_environment session) = true ->
        map_get key
          (getEnvironmentVariables connectionId containerName sessions')
        = Some value
        /\ includes
             (buildContainerExecCommand containerName command
                (getContainerContext connectionId containerName sessions')
                interactive)
             (js " -e " ++ key ++ js "=" ++ [dq] ++ value ++ [dq]) = true)
    /\ (key = js "__proto__" ->
        obj_has key (cs_environment session) = false ->
        getEnvironmentVariables connectionId containerName sessions'
        = cs_environment session
        /\ buildContainerExecCommand containerName command
             (getContainerContext connectionId containerName sessions')
             interactive
           = buildContainerExecCommand containerName command
               (Some session) interactive)
  | None =>
    sessions' = sessions
    /\ getEnvironmentVariables connectionId containerName sessions' = []
  end.
Proof.
  intros sessions'. subst sessions'.
  unfold setEnvironmentVariable, update_session, getEnvironmentVariables.
  destruct (getContainerContext connectionId containerName sessions)
    as [session|] eqn:Hget.
  2:{ rewrite Hget. auto. }
  unfold getContainerContext at 1 2 3 4. rewrite !map_get_set.
  split; [reflexivity|]. cbn [cs_environment].
  split.
  - intros Hkey. split; [apply map_get_obj_set, Hkey|].
    unfold buildContainerExecCommand.
    cbn [cs_workingDirectory cs_user cs_environment].
    do 4 apply includes_prefix. apply includes_suffix, includes_concat.
    apply list_elem_of_fmap. exists (key, value). split; [reflexivity|].
    apply map_get_elem, map_get_obj_set, Hkey.
  - intros -> Hhas. rewrite (obj_set_proto _ _ Hhas).
    split; [reflexivity|]. unfold getContainerContext.
    rewrite map_get_set. reflexivity.
Qed.

(** ** Transfers: outcomes and batches *)

Lemma run_stream_id events : forall run,
  ft_id (run_info (run_stream run events)) = ft_id (run_info run).
Proof.
  unfold run_stream.
  induction events as [|ev events IH]; intros run; [reflexivity|].
  cbn [foldl]. rewrite IH. destruct ev; reflexivity.
Qed.

Lemma transfers_wf_insert id r fileTransfers :
  ft_id r = id -> transfers_wf fileTransfers ->
  transfers_wf (<[id := r]> fileTransfers).
Proof.
  intros Hid Hwf id' r'. rewrite lookup_insert. case_decide.
  - intros [= <-]. congruence.
  - apply Hwf.
Qed.

(** What the [catch] block of a transfer leaves. *)
Lemma transfer_catch_run transferId localPath remotePath direction message now
    fileTransfers :
  transfers_wf fileTransfers ->
  exists r,
    transfer_catch transferId localPath remotePath direction message now
      fileTransfers = (Ret r, <[transferId := r]> fileTransfers)
    /\ ft_id r = transferId /\ ft_status r = failed
    /\ ft_error r = Some message /\ ft_endTime r = Some now.
Proof.
  intros Hwf. unfold transfer_catch. rewrite bind_get.
  destruct (fileTransfers !! transferId) as [old|] eqn:Hold; cbv zeta;
    rewrite bind_modify; eexists; (split; [reflexivity|]);
    repeat split; try reflexivity.
  cbn. apply Hwf, Hold.
Qed.

Lemma resolved_run events : forall taken run,
  until_settled events = (taken, Some None) ->
  let r := run_info (run_stream run taken) in
  ft_status r = completed /\ ft_error r = ft_error (run_info run)
  /\ is_Some (ft_endTime r).
Proof.
  induction events as [|ev events IH]; intros taken run; simpl; [discriminate|].
  destruct ev as [n|message now|message now|now]; simpl.
  - destruct (until_settled events) as [taken' s]. intros [= <- ->].
    destruct (IH taken' (on_stream_event (DataEvent n) run) eq_refl)
      as (H1 & H2 & H3).
    split; [exact H1|]. split; [exact H2|exact H3].
  - discriminate.
  - discriminate.
  - intros [= <-]. cbn. eauto.
Qed.

(** The run of one transfer on a connected connection. *)
Lemma transfer_item_run direction connectionId item world st fileTransfers
    connection client :
  live_connection connectionId st = Some (connection, client) ->
  transfers_wf fileTransfers ->
  let transferId := transfer_item_id direction connectionId item world in
  let run := transfer_item direction connectionId item world st fileTransfers in
  let late := events_after_return direction item world in
  (fst run = OutOfFuel /\ ~ world_settles world)
  \/ exists r bytesTransferred,
       run = (Ret r,
              <[transferId :=
                  run_info (run_stream
                              {| run_info := r;
                                 run_bytesTransferred := bytesTransferred |}
                              late)]> fileTransfers)
       /\ ft_id r = transferId
       /\ match transfer_error direction item world with
          | Some message =>
            ft_status r = failed /\ ft_error r = Some message
            /\ ft_endTime r = Some (tw_caught world)
          | None =>
            ft_status r = completed /\ ft_error r = None
            /\ is_Some (ft_endTime r)
          end.
Proof.
  intros Hlive Hwf. cbv zeta.
  assert (Hcatch : forall transferId localPath remotePath dir message,
    exists r bytesTransferred,
      transfer_catch transferId localPath remotePath dir message
        (tw_caught world) fileTransfers
      = (Ret r,
         <[transferId :=
             run_info (run_stream
                         {| run_info := r;
                            run_bytesTransferred := bytesTransferred |} [])]>
           fileTransfers)
      /\ ft_id r = transferId
      /\ ft_status r = failed /\ ft_error r = Some message
      /\ ft_endTime r = Some (tw_caught world)).
  { intros transferId localPath remotePath dir message.
    destruct (transfer_catch_run transferId localPath remotePath dir message
                (tw_caught world) fileTransfers Hwf)
      as (r & Hrun & Hr & Hst & Herr & Hend).
    exists r, 0%Z. rewrite Hrun. auto. }
  assert (Hstream : forall transferInfo,
    ft_error transferInfo = None ->
    let run := bind (modify (insert (ft_id transferInfo) transferInfo))
                 (fun _ => stream_transfer transferInfo world) fileTransfers in
    (fst run = OutOfFuel /\ ~ world_settles world)
    \/ exists r bytesTransferred,
         run = (Ret r,
                <[ft_id transferInfo :=
                    run_info (run_stream
                                {| run_info := r;
                                   run_bytesTransferred := bytesTransferred |}
                                (match snd (until_settled (tw_events world)) with
                                 | Some (Some _) =>
                                   drop (tw_before_catch world)
                                     (after_settled (tw_events world))
                                 | _ => after_settled (tw_events world)
                                 end))]> fileTransfers)
         /\ ft_id r = ft_id transferInfo
         /\ match snd (until_settled (tw_events world)) with
            | Some (Some message) =>
              ft_status r = failed /\ ft_error r = Some message
              /\ ft_endTime r = Some (tw_caught world)
            | _ =>
              ft_status r = completed /\ ft_error r = None
              /\ is_Some (ft_endTime r)
            end).
  { intros transferInfo Herror. cbv zeta. rewrite bind_modify.
    rewrite stream_transfer_run. cbv zeta. unfold world_settles.
    destruct (until_settled (tw_events world)) as [events settled] eqn:Hu.
    cbn [fst snd].
    destruct settled as [[message|]|].
    - right. eexists _, _. rewrite insert_insert_eq.
      split; [reflexivity|]. split; [|repeat split].
      cbn [transfer_failed transfer_update ft_id].
      rewrite !run_stream_id. reflexivity.
    - right. exists (run_info (run_stream (started_run transferInfo) events)),
        (run_bytesTransferred (run_stream (started_run transferInfo) events)).
      rewrite insert_insert_eq, transfer_run_eta.
      split; [reflexivity|]. split; [rewrite run_stream_id; reflexivity|].
      destruct (resolved_run _ _ (started_run transferInfo) Hu)
        as (H1 & H2 & H3).
      split; [exact H1|]. split; [|exact H3]. rewrite H2. exact Herror.
    - left. split; [reflexivity|]. intros H. apply H. reflexivity. }
  destruct direction;
    cbn [transfer_item transfer_item_id];
    unfold transfer_error, events_after_return, setup_error.
  - unfold uploadFile. rewrite Hlive. cbv zeta.
    destruct (tw_stat world) as [message|[isFile size]];
      [right; apply Hcatch|].
    destruct isFile; cbn [negb]; [|right; apply Hcatch].
    destruct (tw_requestSFTP world) as [message|].
    + right. rewrite bind_modify.
      eexists _, 0%Z. rewrite transfer_catch_filed.
      split; [reflexivity|]. repeat split.
    + destruct (Hstream (pending_transfer
                           (transfer_id upload connectionId
                              (ti_localPath item) (ti_remotePath item)
                              (tw_started world))
                           (ti_localPath item) (ti_remotePath item) upload
                           size (tw_started world)) eq_refl)
        as [H|(r & bytesTransferred & Hrun & Hr & Hst)]; [left; exact H|].
      right. exists r, bytesTransferred.
      destruct (snd (until_settled (tw_events world))) as [[m|]|];
        (split; [exact Hrun|split; [exact Hr|exact Hst]]).
  - unfold downloadFile. rewrite Hlive. cbv zeta.
    destruct (tw_mkdir world) as [message|]; [right; apply Hcatch|].
    destruct (tw_requestSFTP world) as [message|] eqn:Hsftp;
      [right; apply Hcatch|].
    destruct (tw_stat world) as [message|[isFile size]];
      [right; apply Hcatch|].
    destruct (Hstream (pending_transfer
                         (transfer_id download connectionId
                            (ti_remotePath item) (ti_localPath item)
                            (tw_started world))
                         (ti_localPath item) (ti_remotePath item) download
                         size (tw_started world)) eq_refl)
      as [H|(r & bytesTransferred & Hrun & Hr & Hst)]; [left; exact H|].
    right. exists r, bytesTransferred.
    destruct (snd (until_settled (tw_events world))) as [[m|]|];
      (split; [exact Hrun|split; [exact Hr|exact Hst]]).
Qed.

(** X17: on a connected connection [uploadFile] and [downloadFile] never
    reject, and stay pending only when their streams never settle. A
    failure yields a failed record: when the source cannot be read, the
    path is not a file, the local directory cannot be made, the SFTP
    session is refused, or an error of the streams rejects the promise, the
    call returns the transfer's record marked failed, with that error as
    its error and the time of the [catch] block as its end time; without
    such an error it returns the record completed, without error. In a
    registry that files records under their ids the other records are
    untouched, and the transfer's record is filed under its id. It is the
    record returned as long as no event of the streams comes after the
    return; an event that does is still written to it. In particular the
    close of the write stream, which [downloadFile] asks for when the read
    stream fails, marks the record that was returned as failed completed,
    with progress 100 and all bytes transferred, while it keeps its error.
    Without a connected connection both reject and write nothing. *)
Theorem transfer_never_rejects direction connectionId item world st
    fileTransfers :
  transfers_wf fileTransfers ->
  let transferId := transfer_item_id direction connectionId item world in
  let run := transfer_item direction connectionId item world st fileTransfers in
  let late := events_after_return direction item world in
  match live_connection connectionId st with
  | None => run = (Throw (not_connected_message connectionId), fileTransfers)
  | Some _ =>
    (forall message, fst run <> Throw message)
    /\ (world_settles world -> fst run <> OutOfFuel)
    /\ (forall message,
          transfer_error direction item world = Some message ->
          exists r, fst run = Ret r)
    /\ forall r, fst run = Ret r ->
         ft_id r = transferId
         /\ match transfer_error direction item world with
            | Some message =>
              ft_status r = failed /\ ft_error r = Some message
              /\ ft_endTime r = Some (tw_caught world)
            | None =>
              ft_status r = completed /\ ft_error r = None
              /\ is_Some (ft_endTime r)
            end
         /\ (exists bytesTransferred,
               getTransferInfo transferId (snd run)
               = Some (run_info
                         (run_stream
                            {| run_info := r;
                               run_bytesTransferred := bytesTransferred |}
                            late)))
         /\ (late = [] -> getTransferInfo transferId (snd run) = Some r)
         /\ (forall now, late = [CloseEvent now] ->
               getTransferInfo transferId (snd run)
               = Some (transfer_update r completed (Some 100%Z) (ft_size r)
                         (ft_error r) (Some now)))
         /\ transfers_wf (snd run)
         /\ forall id, id <> transferId -> snd run !! id = fileTransfers !! id
  end.
Proof.
  intros Hwf transferId run late.
  destruct (live_connection connectionId st) as [[connection client]|] eqn:Hlive.
  2:{ subst run. destruct direction; cbn [transfer_item];
        unfold uploadFile, downloadFile; rewrite Hlive; reflexivity. }
  destruct (transfer_item_run direction connectionId item world st fileTransfers
              connection client Hlive Hwf)
    as [[Hout Hno]|(r & bytesTransferred & Hrun & Hr & Hst)];
    fold run in Hout || fold run in Hrun.
  - split; [intros message; rewrite Hout; discriminate|].
    split; [intros Hs; contradiction|].
    split.
    + intros message Herror. exfalso. apply Hno. clear - Herror Hout.
      unfold world_settles. intros Hnone. subst run.
      unfold transfer_error in Herror.
      destruct (setup_error direction item world) as [m|] eqn:Hsetup.
      * destruct direction; cbn [transfer_item] in Hout;
          unfold uploadFile, downloadFile, setup_error in *;
          destruct (live_connection connectionId st); try discriminate;
          cbv zeta in Hout.
        -- destruct (tw_stat world) as [?|[[] ?]]; cbn [negb] in *;
             try (unfold transfer_catch, bind, get, modify, ret in Hout;
                  destruct (fileTransfers !! _); discriminate).
           destruct (tw_requestSFTP world); [|discriminate].
           unfold transfer_catch, bind, get, modify, ret in Hout.
           destruct (_ !! _); discriminate.
        -- destruct (tw_mkdir world);
             [unfold transfer_catch, bind, get, modify, ret in Hout;
              destruct (fileTransfers !! _); discriminate|].
           destruct (tw_requestSFTP world);
             [unfold transfer_catch, bind, get, modify, ret in Hout;
              destruct (fileTransfers !! _); discriminate|].
           destruct (tw_stat world) as [?|[? ?]]; [|discriminate].
           unfold transfer_catch, bind, get, modify, ret in Hout.
           destruct (fileTransfers !! _); discriminate.
      * rewrite Hnone in Herror. discriminate.
    + intros r. rewrite Hout. discriminate.
  - fold transferId late in Hrun. fold transferId in Hr. rewrite Hrun.
    cbn [fst snd].
    split; [discriminate|]. split; [discriminate|].
    split; [intros message _; eauto|].
    intros r' [= <-]. split; [exact Hr|]. split; [exact Hst|].
    unfold getTransferInfo. rewrite lookup_insert_eq.
    split; [eauto|].
    split; [intros ->; reflexivity|].
    split; [intros now ->; reflexivity|].
    split.
    + apply transfers_wf_insert; [|assumption].
      rewrite run_stream_id. exact Hr.
    + intros id Hid. apply lookup_insert_ne. congruence.
Qed.

Lemma batch_loop_run direction connectionId st connection client items :
  live_connection connectionId st = Some (connection, client) ->
  forall transferIds errors fileTransfers,
    transfers_wf fileTransfers ->
    let run := batch_loop direction connectionId items st transferIds errors
                 fileTransfers in
    (fst run = OutOfFuel
     /\ ~ Forall (fun iw => world_settles (snd iw)) items)
    \/ exists fileTransfers',
         run = (Ret (transferIds
                     ++ ((fun iw => transfer_item_id direction connectionId
                                      (fst iw) (snd iw)) <$> items),
                     errors), fileTransfers')
         /\ transfers_wf fileTransfers'
         /\ (forall id, is_Some (fileTransfers !! id) ->
               is_Some (fileTransfers' !! id))
         /\ Forall (fun iw => is_Some (fileTransfers'
                                 !! transfer_item_id direction connectionId
                                      (fst iw) (snd iw))) items.
Proof.
  intros Hlive.
  induction items as [|[item world] rest IH];
    intros transferIds errors fileTransfers Hwf; cbv zeta.
  - right. exists fileTransfers. cbn. rewrite app_nil_r. auto.
  - cbn [batch_loop].
    destruct (transfer_item_run direction connectionId item world st
                fileTransfers connection client Hlive Hwf)
      as [[Hout Hno]|(r & bytesTransferred & Hrun & Hr & _)].
    + left. split.
      * unfold bind, try_catch.
        destruct (transfer_item direction connectionId item world st fileTransfers)
          as [[a|m|] s]; cbn [fst] in Hout; try discriminate. reflexivity.
      * intros Hall. apply Forall_cons in Hall as [Hs _]. exact (Hno Hs).
    + set (transferId := transfer_item_id direction connectionId item world) in *.
      set (filed := run_info (run_stream _ _)) in Hrun.
      rewrite (bind_run _ _ fileTransfers (inl transferId)
                 (<[transferId := filed]> fileTransfers)).
      2:{ apply try_catch_run. eapply bind_step; [exact Hrun|].
          unfold ret. rewrite Hr. reflexivity. }
      assert (Hwf1 : transfers_wf (<[transferId := filed]> fileTransfers)).
      { apply transfers_wf_insert; [|assumption].
        subst filed. rewrite run_stream_id. exact Hr. }
      destruct (IH (transferIds ++ [transferId]) errors _ Hwf1)
        as [[Hout Hno]|(ft' & Hrest & Hwf' & Hmono & Hall)].
      * left. split; [exact Hout|]. intros Hall.
        apply Forall_cons in Hall as [_ Hall]. exact (Hno Hall).
      * right. exists ft'. rewrite Hrest. cbn [fmap list_fmap fst snd].
        rewrite <- app_assoc. split; [reflexivity|]. split; [exact Hwf'|].
        split.
        -- intros id Hid. apply Hmono. rewrite lookup_insert.
           case_decide; [eauto|exact Hid].
        -- constructor; [|exact Hall]. cbn [fst snd]. apply Hmono.
           fold transferId. rewrite lookup_insert_eq. eauto.
Qed.

(** X18: [batchTransfer] on a connected connection, in a registry that
    files records under their ids, answers with the ids of all its
    transfers, one for each item and in the items' order, the failed ones
    included: a transfer that fails is returned by [uploadFile] or
    [downloadFile] as a failed record, not rejected, so no error is ever
    counted. Each id answered is then known to [getTransferInfo]. The
    error that the whole batch failed is thrown for the empty batch, and for
    no other. *)
Theorem batchTransfer_answers_all connectionId items direction st fileTransfers
    connection client :
  live_connection connectionId st = Some (connection, client) ->
  transfers_wf fileTransfers ->
  let run := batchTransfer connectionId items direction st fileTransfers in
  let expected :=
    (fun iw => transfer_item_id direction connectionId (fst iw) (snd iw))
      <$> items in
  (items = [] -> run = (Throw (js "批量传输完全失败: "), fileTransfers))
  /\ (items <> [] -> forall message, fst run <> Throw message)
  /\ (items <> [] -> Forall (fun iw => world_settles (snd iw)) items ->
      fst run = Ret expected
      /\ Forall (fun id => is_Some (getTransferInfo id (snd run))) expected).
Proof.
  intros Hlive Hwf run expected. subst run. unfold batchTransfer.
  rewrite Hlive.
  split; [intros ->; reflexivity|].
  destruct (batch_loop_run direction connectionId st connection client items
              Hlive [] [] fileTransfers Hwf)
    as [[Hout Hno]|(ft' & Hrun & Hwf' & Hmono & Hall)].
  - split.
    + intros _ message. unfold bind.
      destruct (batch_loop direction connectionId items st [] [] fileTransfers)
        as [[a|m|] s]; cbn [fst] in *; congruence.
    + intros _ Hs. contradiction.
  - rewrite (bind_run _ _ _ _ _ Hrun). cbn [fst snd length app].
    destruct (Nat.eqb_spec 0 (length items)) as [Hlen|Hlen].
    { assert (items = []) by (destruct items; [reflexivity|discriminate]).
      split; intros; congruence. }
    cbn [fst snd ret]. split; [intros; discriminate|].
    intros _ _. split; [reflexivity|].
    unfold expected, getTransferInfo. rewrite Forall_fmap.
    exact Hall.
Qed.

End Service.

(** * Worked examples *)

(** ** C10 *)



(** ** C4 *)

Lemma executeCommand_sudo_rewrite_witness :
  history (snd (executeCommand demo_exec demo_clock None 1 (js "c1")
                  (js "sudo -n id") no_options demo_state))
  = [IoExec 0 (js "echo " ++ [dq] ++ js "p" ++ [dq]
               ++ js " | sudo -S -n id 2>/dev/null") no_options].
Proof.
  destruct (executeCommand_sudo_rewrite demo_exec demo_clock None 0 (js "c1")
              (js "sudo -n id") no_options demo_state demo_connection 0 (js "p"))
    as (Hhistory & _ & _ & Hrewrite).
  - vm_compute. reflexivity.
  - vm_compute. reflexivity.
  - vm_compute. reflexivity.
  - vm_compute. reflexivity.
  - discriminate.
  - rewrite Hhistory, Hrewrite. reflexivity.
Defined.

(** C4, as stated, fails: [sudo] right after a pipe sign stands at a word
    boundary, and a password is stored, yet the command is sent as it is. *)
Lemma sudo_after_pipe_not_rewritten :
  regex_test SUDO_WORD (js "echo hi |sudo cat") = true
  /\ stored_password demo_connection demo_state = Some (js "p")
  /\ history (snd (executeCommand demo_exec demo_clock None 3 (js "c1")
                     (js "echo hi |sudo cat") no_options demo_state))
     = [IoExec 0 (js "echo hi |sudo cat") no_options].
Proof. repeat split; vm_compute; reflexivity. Qed.

(** ** C9 *)

(** C9, as stated, fails: the connection was last used at time 5; after a
    command ran on it, through the service or through the tool handler, at
    a time the clock reads as 100 or later, it still says 5. *)
Lemma executeCommand_keeps_lastUsed :
  live_connection (js "c1") demo_state = Some (demo_connection, 0)
  /\ conn_lastUsed demo_connection = Some 5%Z
  /\ demo_clock [] = 100%Z
  /\ conn_lastUsed
       <$> connections (snd (executeCommand demo_exec demo_clock None 3 (js "c1")
                               (js "ls") no_options demo_state)) !! js "c1"
     = Some (Some 5%Z)
  /\ conn_lastUsed
       <$> connections
             (sshService
                (snd (executeCommandTool demo_exec demo_clock None 3 demo_enrich
                        (js "c1") (js "ls") None None None demo_mcp))) !! js "c1"
     = Some (Some 5%Z).
Proof. repeat split; vm_compute; reflexivity. Qed.

Lemma executeCommand_connected_only_witness :
  activeConnections
    (snd (executeCommandTool demo_exec demo_clock None 3 demo_enrich (js "c1")
            (js "ls") None None None demo_mcp)) !! js "c1"
  = Some (demo_clock (history (sshService demo_mcp))).
Proof.
  destruct (executeCommand_connected_only demo_exec demo_clock None 3 demo_enrich
              (js "c1") (js "ls") no_options None None None)
    as (_ & _ & _ & Hconnected).
  destruct (Hconnected demo_mcp demo_connection 0) as [Hactive _].
  - vm_compute. reflexivity.
  - exact Hactive.
Defined.

(** ** C2 *)


(** ** C3 *)

Lemma executeCommand_container_context_witness :
  let st1 :=
    snd (executeCommand demo_exec demo_clock None 1 (js "c1")
           (js "docker exec -w /srv -u www-data web ls") no_options demo_state) in
  getActiveContainer (js "c1") (containerSessions st1) = Some (js "web")
  /\ executeCommand demo_exec demo_clock None 4 (js "c1") (js "ls") no_options st1
     = executeCommand demo_exec demo_clock None 3 (js "c1")
         (js "docker exec -w /srv -u www-data web ls") no_options st1.
Proof.
  destruct (executeCommand_container_context demo_exec demo_clock None)
    as [_ Hafter].
  destruct (Hafter 3 0 (js "c1") no_options demo_state demo_connection 0
              (js "ok") [] (Some 0%Z))
    as (Hactive & _ & Hwrapped).
  - vm_compute. reflexivity.
  - reflexivity.
  - vm_compute. reflexivity.
  - intros kv Hkv. apply elem_of_nil in Hkv. destruct Hkv.
  - split; [exact Hactive|exact Hwrapped].
Defined.

(** ** C1 *)

Lemma connect_idempotent_witness :
  connect demo_connect demo_exec demo_clock demo_md5hex false 22 10000
    demo_config None false None demo_state
  = (Ret demo_connection, demo_state)
  /\ exists connection st1,
       connect demo_connect demo_exec demo_clock demo_md5hex false 22 10000
         demo_config (Some (js "box")) true None empty_state
       = (Ret connection, st1)
       /\ conn_id connection = js "c1"
       /\ connect demo_connect demo_exec demo_clock demo_md5hex false 22 10000
            demo_config (Some (js "box")) true None st1
          = (Ret connection, st1).
Proof.
  destruct (connect_idempotent demo_connect demo_exec demo_clock demo_md5hex
              false 22 10000) as (_ & Hlive & Htwice).
  split.
  - apply (Hlive demo_config None false None demo_state demo_connection 0).
    vm_compute. reflexivity.
  - destruct (connect demo_connect demo_exec demo_clock demo_md5hex false 22
                10000 demo_config (Some (js "box")) true None empty_state)
      as [[connection| |] st1] eqn:Hfirst;
      [|vm_compute in Hfirst; discriminate Hfirst..].
    exists connection, st1.
    destruct (Htwice demo_config (Some (js "box")) true None empty_state
                connection st1 Hfirst) as [Hid Hsecond].
    split; [reflexivity|]. split.
    + rewrite Hid; [vm_compute; reflexivity|].
      intros id c H. cbn [connections empty_state] in H.
      rewrite lookup_empty in H. discriminate H.
    + apply Hsecond. reflexivity.
Defined.

(** ** C8 *)



(** ** C7 *)

Lemma transfer_progress_invariants_witness :
  transfer_progress 23 40 = Some 57%Z /\ (0 <= 57 <= 100)%Z.
Proof.
  assert (Hp : transfer_progress 23 40 = Some 57%Z) by (vm_compute; reflexivity).
  split; [exact Hp|].
  apply (proj1 (transfer_progress_invariants demo_md5hex) 23%Z 40%Z 57%Z); [lia|lia|exact Hp].
Defined.

(** C7, as stated, fails twice. A chunk of 20 bytes read from a source
    that was 10 bytes long when its size was taken leaves the record with
    more bytes transferred than its size. And 23 bytes of 40 are 57.5
    hundredths, which rounds to 58, while the progress computed in binary64
    is 57: the quotient 0.575 is not a binary64, and the nearest one times
    100 falls below 57.5. *)
Lemma transfer_overshoots_and_rounds_down :
  ft_size (run_info (on_stream_event (DataEvent 20)
             (started_run (pending_transfer (js "t") (js "a") (js "b") upload
                             10 0)))) = 10%Z
  /\ ft_bytesTransferred
       (run_info (on_stream_event (DataEvent 20)
          (started_run (pending_transfer (js "t") (js "a") (js "b") upload
                          10 0)))) = 20%Z
  /\ transfer_progress 23 40 = Some 57%Z
  /\ spec_progress 23 40 = 58%Z.
Proof. repeat split; vm_compute; reflexivity. Qed.

(** ** C5 and C6 *)

Lemma parseCommand_compound_spec_witness :
  pc_needsContainerContext (parseCommand (js "docker exec web ls && pwd"))
  = Some true.
Proof.
  destruct (parseCommand_compound_spec (js "docker exec web ls && pwd"))
    as (Htype & Hparts & _).
  destruct Hparts as (_ & _ & Hneeds).
  - apply Htype. left. vm_compute. reflexivity.
  - apply Hneeds. split.
    + exists (js "docker exec web ls"). split; [|vm_compute; eauto].
      vm_compute. constructor.
    + exists (js "pwd"). split; [|vm_compute; reflexivity].
      vm_compute. do 2 constructor.
Defined.

Lemma limitOutputLength_spec_witness :
  limitOutputLength (js "total 0") = js "total 0".
Proof.
  destruct (limitOutputLength_spec (js "total 0")) as [Hshort _].
  apply Hshort. vm_compute. discriminate.
Defined.

(** * Worked examples of the further properties *)

Lemma executeCommand_recursion_bounded_witness :
  fst (executeCommand demo_exec demo_clock None 5 (js "c1") (js "ls")
         no_options demo_state) <> OutOfFuel
  /\ executeCommand demo_exec demo_clock None 5 (js "c1") (js "ls")
       no_options demo_state
     = executeCommand demo_exec demo_clock None 3 (js "c1") (js "ls")
         no_options demo_state.
Proof.
  destruct (executeCommand_recursion_bounded demo_exec demo_clock None 5
              (js "c1") (js "ls") no_options demo_state) as (H1 & H2 & _).
  - lia.
  - split; [exact H1|exact H2].
Defined.

Lemma executeCommand_cd_sets_directory_witness :
  connections (snd (executeCommand demo_exec demo_clock None 1 (js "c1")
                      (js "cd /tmp") no_options demo_state)) !! js "c1"
  = Some (with_currentDirectory demo_connection (Some (js "ok"))).
Proof.
  destruct (executeCommand_cd_sets_directory demo_exec demo_clock None 0
              (js "c1") (js "cd /tmp") no_options demo_state demo_connection 0
              (js "ok") [] (Some 0%Z)) as (_ & Hdir & _).
  - vm_compute. reflexivity.
  - vm_compute. reflexivity.
  - vm_compute. reflexivity.
  - vm_compute. reflexivity.
  - reflexivity.
  - exact Hdir.
Defined.

Lemma executeCommandTool_plain_answer_witness :
  exists result,
    fst (executeCommand demo_exec demo_clock None 3 (js "c1") (js "ls")
           no_options (sshService demo_mcp)) = Ret result
    /\ tr_isError <$> fst_ret (executeCommandTool demo_exec demo_clock None 3
                                 demo_enrich (js "c1") (js "ls") None None None
                                 demo_mcp) = Some false.
Proof.
  destruct (executeCommandTool_plain_answer demo_exec demo_clock None 3
              demo_enrich (js "c1") (js "ls") None None None demo_mcp
              demo_connection 0) as ((result & Hrun & Htool) & _).
  - lia.
  - vm_compute. reflexivity.
  - vm_compute. reflexivity.
  - exists result. split; [exact Hrun|].
    rewrite Htool. reflexivity.
Defined.

Lemma createTunnel_closeTunnel_round_trip_witness :
  fst (createTunnel demo_listen demo_clock demo_md5hex (demo_tunnel "t1")
         demo_state) = Ret (js "t1")
  /\ tunnels (snd (closeTunnel (js "t1")
                     (snd (createTunnel demo_listen demo_clock demo_md5hex
                             (demo_tunnel "t1") demo_state))))
     = delete (js "t1") (tunnels demo_state).
Proof.
  destruct (createTunnel_closeTunnel_round_trip demo_listen demo_clock
              demo_md5hex (demo_tunnel "t1") (demo_tunnel "t2") demo_state
              demo_connection 0) as (H1 & _ & _ & _ & _ & H2 & _).
  - vm_compute. reflexivity.
  - vm_compute. reflexivity.
  - reflexivity.
  - reflexivity.
  - reflexivity.
  - split; [exact H1|exact H2].
Defined.

Lemma createTunnel_listen_failure_witness :
  fst (createTunnel busy_listen demo_clock demo_md5hex (demo_tunnel "t1")
         demo_state) = Throw (js "EADDRINUSE")
  /\ tunnels (snd (createTunnel busy_listen demo_clock demo_md5hex
                     (demo_tunnel "t1") demo_state))
     = {[ js "t1" := {| tn_config := demo_tunnel "t1"; tn_server := Some 1;
                        tn_connections := []; tn_isActive := false |} ]}
  /\ tunnels (snd (closeTunnel_finish (js "t1")
                     (snd (createTunnel busy_listen demo_clock demo_md5hex
                             (demo_tunnel "t1") demo_state))))
     = ∅.
Proof.
  destruct (createTunnel_listen_failure busy_listen demo_clock demo_md5hex
              (demo_tunnel "t1") demo_state demo_connection 0 (js "EADDRINUSE"))
    as (H1 & H2 & _ & _ & _ & _ & H3).
  - vm_compute. reflexivity.
  - vm_compute. reflexivity.
  - reflexivity.
  - split; [exact H1|]. split.
    + rewrite H2. reflexivity.
    + etransitivity; [exact (f_equal (fun r => tunnels (snd r)) H3)|].
      vm_compute. reflexivity.
Defined.

Lemma connect_failure_recorded_witness :
  fst (connect refusing_connect demo_exec demo_clock demo_md5hex false 22 10000
         demo_config None false None empty_state) = Throw (js "refused")
  /\ conn_status
       <$> connections
             (snd (connect refusing_connect demo_exec demo_clock demo_md5hex
                     false 22 10000 demo_config None false None empty_state))
           !! js "c1"
     = Some ERROR.
Proof.
  destruct (connect_failure_recorded refusing_connect demo_exec demo_clock
              demo_md5hex false None 22 10000 0 demo_config None false None
              empty_state (js "refused") (js "ls") no_options)
    as (H1 & H2 & _).
  - vm_compute. reflexivity.
  - reflexivity.
  - split; [exact H1|]. rewrite H2. vm_compute. reflexivity.
Defined.

Lemma connect_reuses_saved_password_witness :
  exists events options,
    history (snd (connect demo_connect demo_exec demo_clock demo_md5hex true
                    22 10000 keyless_config None false None
                    (snd (saveCredentials true (js "c1") (Some (js "p")) None
                            empty_state))))
    = IoConnect 0 options :: events
    /\ co_password options = Some (js "p").
Proof.
  destruct (connect_reuses_saved_password demo_connect demo_exec demo_clock
              demo_md5hex true 22 10000 keyless_config None false None
              (snd (saveCredentials true (js "c1") (Some (js "p")) None
                      empty_state))
              empty_state (Some (js "p")) None)
    as (events & options & Hh & Hp & _).
  - reflexivity.
  - vm_compute. reflexivity.
  - vm_compute. reflexivity.
  - reflexivity.
  - reflexivity.
  - exists events, options. split; [exact Hh|exact Hp].
Defined.

Lemma connect_new_connection_witness :
  conn_currentDirectory
    <$> fst_ret (connect demo_connect demo_exec demo_clock demo_md5hex true 22
                   10000 demo_config None true None empty_state)
  = Some (Some (js "ok"))
  /\ history (snd (connect demo_connect demo_exec demo_clock demo_md5hex true
                     22 10000 demo_config None true None empty_state))
     = [IoConnect 0 (connect_options 22 10000 demo_config);
        IoExec 0 (js "pwd") no_options].
Proof.
  destruct (connect_new_connection demo_connect demo_exec demo_clock
              demo_md5hex true 22 10000 demo_config None true None empty_state)
    as (H1 & _ & _ & H2 & _).
  - vm_compute. reflexivity.
  - reflexivity.
  - split.
    + unfold fst_ret. rewrite H1. reflexivity.
    + rewrite H2. reflexivity.
Defined.

Lemma exitContainer_all_unwraps_witness :
  getActiveContainer (js "c1") (containerSessions container_state)
  = Some (js "web")
  /\ getActiveContainer (js "c1")
       (containerSessions (snd (exitContainer (js "c1") None container_state)))
     = None
  /\ exists events,
       history (snd (executeCommand demo_exec demo_clock None 1 (js "c1")
                       (js "ls") no_options
                       (snd (exitContainer (js "c1") None container_state))))
       = IoExec 0 (js "ls") no_options :: events.
Proof.
  destruct (exitContainer_all_unwraps demo_exec demo_clock None 0 (js "c1") None
              (js "ls") no_options container_state demo_connection 0)
    as (_ & H1 & _ & _ & _ & _ & H2).
  - vm_compute. reflexivity.
  - reflexivity.
  - vm_compute. reflexivity.
  - vm_compute. reflexivity.
  - split; [vm_compute; reflexivity|]. split; [exact H1|exact H2].
Defined.

Lemma current_container_session_witness :
  getActiveContainer (js "c1")
    (closeContainerSession (js "c1") (js "web") container_sessions)
  <> Some (js "web").
Proof.
  apply (current_container_session (js "c1") (js "web") container_sessions).
  split.
  - vm_compute. repeat constructor. intros H. inversion H.
  - intros key session H. vm_compute in H.
    apply list_elem_of_singleton in H. injection H as -> ->.
    vm_compute. reflexivity.
Defined.

Lemma setEnvironmentVariable_passed_witness :
  map_get (js "LANG")
    (getEnvironmentVariables (js "c1") (js "web")
       (setEnvironmentVariable 60 (js "c1") (js "web") (js "LANG") (js "C")
          container_sessions))
  = Some (js "C")
  /\ getEnvironmentVariables (js "c1") (js "web")
       (setEnvironmentVariable 60 (js "c1") (js "web") (js "__proto__")
          (js "C") container_sessions)
     = [].
Proof.
  split.
  - pose proof (setEnvironmentVariable_passed 60 (js "c1") (js "web")
                  (js "LANG") (js "C") container_sessions (js "ls") false)
      as H.
    cbv zeta in H.
    change (getContainerContext (js "c1") (js "web") container_sessions)
      with (Some {| cs_connectionId := js "c1"; cs_containerName := js "web";
                    cs_workingDirectory := js "/root";
                    cs_environment := []; cs_user := None;
                    cs_lastActivity := 50;
                    cs_isActive := true |}) in H.
    destruct H as (_ & H & _). apply H. left. vm_compute. discriminate.
  - pose proof (setEnvironmentVariable_passed 60 (js "c1") (js "web")
                  (js "__proto__") (js "C") container_sessions (js "ls") false)
      as H.
    cbv zeta in H.
    change (getContainerContext (js "c1") (js "web") container_sessions)
      with (Some {| cs_connectionId := js "c1"; cs_containerName := js "web";
                    cs_workingDirectory := js "/root";
                    cs_environment := []; cs_user := None;
                    cs_lastActivity := 50;
                    cs_isActive := true |}) in H.
    destruct H as (_ & _ & H). apply H; reflexivity.
Defined.

Lemma transfer_never_rejects_witness :
  exists r,
    fst (transfer_item demo_md5hex download (js "c1") demo_item
           late_close_world demo_state ∅) = Ret r
    /\ ft_status r = failed /\ ft_error r = Some (js "EIO")
    /\ getTransferInfo
         (transfer_item_id demo_md5hex download (js "c1") demo_item
            late_close_world)
         (snd (transfer_item demo_md5hex download (js "c1") demo_item
                 late_close_world demo_state ∅))
       = Some (transfer_update r completed (Some 100%Z) (ft_size r)
                 (Some (js "EIO")) (Some 6%Z)).
Proof.
  pose proof (transfer_never_rejects demo_md5hex download (js "c1") demo_item
                late_close_world demo_state ∅) as H.
  cbv zeta in H.
  change (live_connection (js "c1") demo_state)
    with (Some (demo_connection, 0)) in H.
  change (transfer_error download demo_item late_close_world)
    with (Some (js "EIO")) in H.
  destruct H as (_ & _ & Hfails & Hreturned).
  - intros id r Hr. rewrite lookup_empty in Hr. discriminate Hr.
  - destruct (Hfails (js "EIO") eq_refl) as (r & Hr).
    destruct (Hreturned r Hr) as (_ & (Hst & Herr & _) & _ & _ & Hclose & _).
    exists r. split; [exact Hr|]. split; [exact Hst|]. split; [exact Herr|].
    rewrite <- Herr. apply Hclose. reflexivity.
Defined.

Lemma batchTransfer_answers_all_witness :
  fst (batchTransfer demo_md5hex (js "c1") [(demo_item, failing_world)] upload
         demo_state ∅)
  = Ret [transfer_item_id demo_md5hex upload (js "c1") demo_item failing_world].
Proof.
  destruct (batchTransfer_answers_all demo_md5hex (js "c1")
              [(demo_item, failing_world)] upload demo_state ∅
              demo_connection 0) as (_ & _ & H).
  - vm_compute. reflexivity.
  - intros id r Hr. rewrite lookup_empty in Hr. discriminate Hr.
  - destruct H as [H _]; [discriminate| |exact H].
    repeat constructor. vm_compute. discriminate.
Defined.
